(** * Soft-delete cascade, hierarchy query and tag search of the rubix schema

    A shallow embedding of the SQLite schema with its [deleted_at] cascade
    triggers and its [ON DELETE CASCADE] foreign keys, of the hierarchy
    query in its recursive variants and written level by level, of the tag
    search queries, and of the pieces of the populate program, followed by
    the properties established about them.

    Tables are finite maps from their primary key to the remaining columns;
    a statement is a function on the store; a row trigger is a function that
    receives the key and the OLD and NEW images of the row. *)

From stdpp Require Import gmap strings list fin_maps.

Open Scope Z_scope.

(** ** Rows *)

(** SQL [x IS NULL]. *)
Definition is_null {A} (o : option A) : bool :=
  match o with None => true | Some _ => false end.

(** [nodes(id PRIMARY KEY, deleted_at, type, parent_id, name, description)] *)
Record node := Node {
  n_deleted_at : option Z;
  n_type : string;
  n_parent_id : option string;
  n_name : string;
  n_description : option string }.

(** [ports(id PRIMARY KEY, deleted_at, node_id, port_type, name,
    description)] *)
Record port := Port {
  p_deleted_at : option Z;
  p_node_id : option string;
  p_port_type : string;
  p_name : string;
  p_description : option string }.

(** [port_values(id PRIMARY KEY, deleted_at, port_id, timestamp, value_*,
    is_synced, last_synced)]; the numeric payload is never inspected by a
    trigger or a query and is kept as an integer. *)
Record port_value := PortValue {
  v_deleted_at : option Z;
  v_port_id : option string;
  v_timestamp : Z;
  v_value_numeric : option Z;
  v_value_text : option string;
  v_value_boolean : option bool;
  v_value_json : option string;
  v_is_synced : option bool;
  v_last_synced : option Z }.

(** [edges(id PRIMARY KEY, deleted_at, from_port_id, to_port_id,
    description)] *)
Record edge := Edge {
  e_deleted_at : option Z;
  e_from_port_id : option string;
  e_to_port_id : option string;
  e_description : option string }.

(** [tags(node_id, deleted_at, tag_key, tag_value,
    PRIMARY KEY (node_id, tag_key, tag_value))]: the key carries every
    column but [deleted_at]. *)
Record tag := Tag { t_deleted_at : option Z }.

Abbreviation tag_key := (string * string * string)%type.

Definition tk_node_id (k : tag_key) : string := k.1.1.
Definition tk_key (k : tag_key) : string := k.1.2.
Definition tk_value (k : tag_key) : string := k.2.

#[global] Instance node_eq_dec : EqDecision node.
Proof. solve_decision. Defined.
#[global] Instance port_eq_dec : EqDecision port.
Proof. solve_decision. Defined.
#[global] Instance port_value_eq_dec : EqDecision port_value.
Proof. solve_decision. Defined.
#[global] Instance edge_eq_dec : EqDecision edge.
Proof. solve_decision. Defined.
#[global] Instance tag_eq_dec : EqDecision tag.
Proof. solve_decision. Defined.

(** Every table has the [deleted_at] column; the triggers read and write
    nothing else. *)
Class Deletable (R : Type) := {
  deleted_at : R → option Z;
  set_deleted_at : option Z → R → R;
  deleted_at_set : ∀ v r, deleted_at (set_deleted_at v r) = v;
  set_deleted_at_id : ∀ r, set_deleted_at (deleted_at r) r = r;
  set_deleted_at_set : ∀ v w r,
    set_deleted_at v (set_deleted_at w r) = set_deleted_at v r }.

#[global, refine] Instance node_deletable : Deletable node := {|
  deleted_at := n_deleted_at;
  set_deleted_at v r :=
    Node v (n_type r) (n_parent_id r) (n_name r) (n_description r) |}.
Proof. all: by repeat intros []. Defined.

#[global, refine] Instance port_deletable : Deletable port := {|
  deleted_at := p_deleted_at;
  set_deleted_at v r :=
    Port v (p_node_id r) (p_port_type r) (p_name r) (p_description r) |}.
Proof. all: by repeat intros []. Defined.

#[global, refine] Instance port_value_deletable : Deletable port_value := {|
  deleted_at := v_deleted_at;
  set_deleted_at v r :=
    PortValue v (v_port_id r) (v_timestamp r) (v_value_numeric r)
      (v_value_text r) (v_value_boolean r) (v_value_json r) (v_is_synced r)
      (v_last_synced r) |}.
Proof. all: by repeat intros []. Defined.

#[global, refine] Instance edge_deletable : Deletable edge := {|
  deleted_at := e_deleted_at;
  set_deleted_at v r :=
    Edge v (e_from_port_id r) (e_to_port_id r) (e_description r) |}.
Proof. all: by repeat intros []. Defined.

#[global, refine] Instance tag_deletable : Deletable tag := {|
  deleted_at := t_deleted_at;
  set_deleted_at v _ := Tag v |}.
Proof. all: by repeat intros []. Defined.

(** The spec's [alive] flag is the complement of soft deletion. *)
Definition alive `{Deletable R} (r : R) : bool := is_null (deleted_at r).

(** ** The store *)

Record store := Store {
  nodes : gmap string node;
  ports : gmap string port;
  port_values : gmap string port_value;
  edges : gmap string edge;
  tags : gmap tag_key tag }.

Definition set_nodes (f : gmap string node → gmap string node) (s : store) :=
  Store (f (nodes s)) (ports s) (port_values s) (edges s) (tags s).
Definition set_ports (f : gmap string port → gmap string port) (s : store) :=
  Store (nodes s) (f (ports s)) (port_values s) (edges s) (tags s).
Definition set_port_values
    (f : gmap string port_value → gmap string port_value) (s : store) :=
  Store (nodes s) (ports s) (f (port_values s)) (edges s) (tags s).
Definition set_edges (f : gmap string edge → gmap string edge) (s : store) :=
  Store (nodes s) (ports s) (port_values s) (f (edges s)) (tags s).
Definition set_tags (f : gmap tag_key tag → gmap tag_key tag) (s : store) :=
  Store (nodes s) (ports s) (port_values s) (edges s) (f (tags s)).

Definition empty_store : store := Store ∅ ∅ ∅ ∅ ∅.

(** ** Statements on tables without triggers *)

(** [UPDATE t SET deleted_at = v WHERE wh]: no trigger is declared on
    [port_values], [edges] or [tags], so the statement is a pointwise
    rewrite of the table. *)
Definition update_where `{Countable K} `{Deletable R}
    (wh : K → R → bool) (v : option Z) (m : gmap K R) : gmap K R :=
  map_imap (λ k r, Some (if wh k r then set_deleted_at v r else r)) m.

(** The keys of the rows that satisfy a WHERE clause. *)
Definition select_ids `{Countable K} {R}
    (wh : K → R → bool) (m : gmap K R) : list K :=
  (filter (λ kr, wh kr.1 kr.2 = true) (map_to_list m)).*1.

(** ** Triggers on [ports] *)

(** [WHEN NEW.deleted_at IS NOT NULL AND OLD.deleted_at IS NULL] *)
Definition when_delete `{Deletable R} (old new : R) : bool :=
  negb (is_null (deleted_at new)) && is_null (deleted_at old).

(** [WHEN NEW.deleted_at IS NULL AND OLD.deleted_at IS NOT NULL] *)
Definition when_restore `{Deletable R} (old new : R) : bool :=
  is_null (deleted_at new) && negb (is_null (deleted_at old)).

(** [UPDATE port_values SET deleted_at = NEW.deleted_at
     WHERE port_id = NEW.id AND deleted_at IS NULL] *)
Definition cascade_soft_delete_port_values_on_ports_delete
    (new_id : string) (old new : port) (s : store) : store :=
  if when_delete old new then
    set_port_values (update_where
      (λ _ r, bool_decide (v_port_id r = Some new_id)
              && is_null (deleted_at r)) (deleted_at new)) s
  else s.

(** [UPDATE edges SET deleted_at = NEW.deleted_at
     WHERE (from_port_id = NEW.id OR to_port_id = NEW.id)
       AND deleted_at IS NULL] *)
Definition cascade_soft_delete_edges_on_ports_delete
    (new_id : string) (old new : port) (s : store) : store :=
  if when_delete old new then
    set_edges (update_where
      (λ _ r, (bool_decide (e_from_port_id r = Some new_id)
               || bool_decide (e_to_port_id r = Some new_id))
              && is_null (deleted_at r)) (deleted_at new)) s
  else s.

(** [UPDATE port_values SET deleted_at = NULL
     WHERE port_id = NEW.id AND deleted_at IS NOT NULL] *)
Definition cascade_restore_port_values_on_ports_restore
    (new_id : string) (old new : port) (s : store) : store :=
  if when_restore old new then
    set_port_values (update_where
      (λ _ r, bool_decide (v_port_id r = Some new_id)
              && negb (is_null (deleted_at r))) None) s
  else s.

(** [UPDATE edges SET deleted_at = NULL
     WHERE (from_port_id = NEW.id OR to_port_id = NEW.id)
       AND deleted_at IS NOT NULL] *)
Definition cascade_restore_edges_on_ports_restore
    (new_id : string) (old new : port) (s : store) : store :=
  if when_restore old new then
    set_edges (update_where
      (λ _ r, (bool_decide (e_from_port_id r = Some new_id)
               || bool_decide (e_to_port_id r = Some new_id))
              && negb (is_null (deleted_at r))) None) s
  else s.

(** One row of [UPDATE ports SET deleted_at = v ...] once the engine has
    entered the programs of the row's triggers: the row is written, then
    the AFTER UPDATE OF deleted_at row triggers run in the order of their
    declaration, each under its WHEN clause.  Their bodies write
    [port_values] and [edges], which carry no trigger. *)
Definition update_port_row (id : string) (v : option Z) (s : store) : store :=
  match ports s !! id with
  | None => s
  | Some old =>
      let new := set_deleted_at v old in
      let s := set_ports (insert id new) s in
      let s := cascade_soft_delete_port_values_on_ports_delete id old new s in
      let s := cascade_soft_delete_edges_on_ports_delete id old new s in
      let s := cascade_restore_port_values_on_ports_restore id old new s in
      cascade_restore_edges_on_ports_restore id old new s
  end.

(** Sequencing the rows of one statement. *)
Fixpoint for_each_row (step : string → store → option store)
    (ids : list string) (s : store) : option store :=
  match ids with
  | [] => Some s
  | id :: ids => s ← step id s; for_each_row step ids s
  end.

(** One row of [UPDATE ports SET deleted_at = v ...] with [depth] levels of
    trigger nesting left.  For every row it updates the engine enters the
    program of each trigger of the table, and tests the trigger's WHEN
    clause inside that program: with no level left the entry is refused
    and the statement fails, whatever the WHEN clauses would say. *)
Definition update_port_at (depth : nat) (id : string) (v : option Z)
    (s : store) : option store :=
  match ports s !! id, depth with
  | None, _ => Some s
  | Some _, O => None
  | Some _, S _ => Some (update_port_row id v s)
  end.

(** A statement on [ports] issued from a trigger body; [None] when the
    engine's bound on trigger nesting is exceeded. *)
Definition ports_stmt :=
  (string → port → bool) → option Z → store → option store.

(** [UPDATE ports SET deleted_at = v WHERE wh] with [depth] levels of
    trigger nesting left: the matching rows are collected first and then
    updated one at a time. *)
Definition update_ports_where (depth : nat) : ports_stmt :=
  λ wh v s,
  for_each_row (λ id s, update_port_at depth id v s)
    (select_ids wh (ports s)) s.

(** ** Triggers on [nodes] *)

(** A statement on [nodes] issued from a trigger body; [None] when the
    engine's bound on trigger nesting is exceeded. *)
Definition nodes_stmt :=
  (string → node → bool) → option Z → store → option store.

(** [UPDATE nodes SET deleted_at = NEW.deleted_at
     WHERE parent_id = NEW.id AND deleted_at IS NULL] *)
Definition cascade_soft_delete_nodes_on_nodes_delete (run : nodes_stmt)
    (new_id : string) (old new : node) (s : store) : option store :=
  if when_delete old new then
    run (λ _ r, bool_decide (n_parent_id r = Some new_id)
                && is_null (deleted_at r)) (deleted_at new) s
  else Some s.

(** [UPDATE ports SET deleted_at = NEW.deleted_at
     WHERE node_id = NEW.id AND deleted_at IS NULL] *)
Definition cascade_soft_delete_ports_on_nodes_delete (runp : ports_stmt)
    (new_id : string) (old new : node) (s : store) : option store :=
  if when_delete old new then
    runp (λ _ r, bool_decide (p_node_id r = Some new_id)
                 && is_null (deleted_at r)) (deleted_at new) s
  else Some s.

(** [UPDATE tags SET deleted_at = NEW.deleted_at
     WHERE node_id = NEW.id AND deleted_at IS NULL] *)
Definition cascade_soft_delete_tags_on_nodes_delete
    (new_id : string) (old new : node) (s : store) : store :=
  if when_delete old new then
    set_tags (update_where
      (λ k r, bool_decide (tk_node_id k = new_id)
              && is_null (deleted_at r)) (deleted_at new)) s
  else s.

(** [UPDATE nodes SET deleted_at = NULL
     WHERE parent_id = NEW.id AND deleted_at IS NOT NULL] *)
Definition cascade_restore_nodes_on_nodes_restore (run : nodes_stmt)
    (new_id : string) (old new : node) (s : store) : option store :=
  if when_restore old new then
    run (λ _ r, bool_decide (n_parent_id r = Some new_id)
                && negb (is_null (deleted_at r))) None s
  else Some s.

(** [UPDATE ports SET deleted_at = NULL
     WHERE node_id = NEW.id AND deleted_at IS NOT NULL] *)
Definition cascade_restore_ports_on_nodes_restore (runp : ports_stmt)
    (new_id : string) (old new : node) (s : store) : option store :=
  if when_restore old new then
    runp (λ _ r, bool_decide (p_node_id r = Some new_id)
                 && negb (is_null (deleted_at r))) None s
  else Some s.

(** [UPDATE tags SET deleted_at = NULL
     WHERE node_id = NEW.id AND deleted_at IS NOT NULL] *)
Definition cascade_restore_tags_on_nodes_restore
    (new_id : string) (old new : node) (s : store) : store :=
  if when_restore old new then
    set_tags (update_where
      (λ k r, bool_decide (tk_node_id k = new_id)
              && negb (is_null (deleted_at r))) None) s
  else s.

(** One row of [UPDATE nodes SET deleted_at = v ...] once the engine has
    entered the programs of the row's triggers: the row is written, then
    the six triggers run in the order of their declaration, each under its
    WHEN clause.  [run] and [runp] are the statements on [nodes] and on
    [ports] at the nesting level of the trigger bodies. *)
Definition update_node_row (run : nodes_stmt) (runp : ports_stmt)
    (id : string) (v : option Z) (s : store) : option store :=
  match nodes s !! id with
  | None => Some s
  | Some old =>
      let new := set_deleted_at v old in
      let s := set_nodes (insert id new) s in
      s ← cascade_soft_delete_nodes_on_nodes_delete run id old new s;
      s ← cascade_soft_delete_ports_on_nodes_delete runp id old new s;
      let s := cascade_soft_delete_tags_on_nodes_delete id old new s in
      s ← cascade_restore_nodes_on_nodes_restore run id old new s;
      s ← cascade_restore_ports_on_nodes_restore runp id old new s;
      Some (cascade_restore_tags_on_nodes_restore id old new s)
  end.

(** One row of [UPDATE nodes SET deleted_at = v ...] with [depth] levels of
    trigger nesting left ([PRAGMA recursive_triggers = ON] lets a trigger
    body fire the triggers again).  A row that is updated makes the engine
    enter the trigger programs, which takes one level, before any WHEN
    clause is tested: with no level left the statement fails.  The
    statements of the trigger bodies run with one level less. *)
Fixpoint update_node_at (depth : nat) (id : string) (v : option Z)
    (s : store) : option store :=
  match nodes s !! id, depth with
  | None, _ => Some s
  | Some _, O => None
  | Some _, S d =>
      update_node_row
        (λ wh v s, for_each_row (λ id s, update_node_at d id v s)
                     (select_ids wh (nodes s)) s)
        (update_ports_where d) id v s
  end.

(** [UPDATE nodes SET deleted_at = v WHERE wh] with [depth] levels of
    trigger nesting left: the matching rows are collected first and then
    updated one at a time.  A statement that matches no row enters no
    trigger program. *)
Definition update_nodes_where (depth : nat) : nodes_stmt :=
  λ wh v s,
  for_each_row (λ id s, update_node_at depth id v s)
    (select_ids wh (nodes s)) s.

(** ** SetAlive *)

(** The [deleted_at] that stands for an alive state: NULL for alive, the
    time of the call for deleted. *)
Definition target_value (target : bool) (ts : Z) : option Z :=
  if target then None else Some ts.

(** Modelled from the spec: the statement a caller issues for
    [SetAlive(nodeID, target)], which the repository does not contain; the
    triggers it fires are the source's.
    [UPDATE nodes SET deleted_at = ts WHERE id = n] for a soft delete and
    [UPDATE nodes SET deleted_at = NULL WHERE id = n] for a restore, with
    [limit] the deepest trigger nesting the engine accepts.  The WHERE
    clause is on the primary key, so at most the one row is updated; the
    statement itself runs outside any trigger, with all [limit] levels
    left. *)
Definition SetAlive (limit : nat) (n : string) (target : bool) (ts : Z)
    (s : store) : option store :=
  update_node_at limit n (target_value target ts) s.

(** Modelled from the spec: the statement a caller issues to soft-delete
    or restore one port, [UPDATE ports SET deleted_at = v WHERE id = p];
    the triggers it fires are the source's.  Their programs are entered at
    the first nesting level and their bodies fire no further trigger, so
    the statement is given for an engine that accepts at least one level
    (the engine's default is 1000) and takes no limit. *)
Definition SetPortAlive (p : string) (target : bool) (ts : Z)
    (s : store) : store :=
  update_port_row p (target_value target ts) s.

(** ** Writes of the populate program *)

(** [PRAGMA foreign_keys = ON]: a reference is NULL or names a row of the
    referenced table. *)
Definition fk_ok {R} (ref : option string) (m : gmap string R) : bool :=
  match ref with
  | None => true
  | Some k => bool_decide (is_Some (m !! k))
  end.

(** [INSERT INTO nodes (id, type, parent_id, name, description) VALUES ...];
    [deleted_at] takes its default NULL.  The statement fails ([None]) on a
    duplicate primary key or a dangling [parent_id]; the foreign key is
    checked once the row is in the table, so a row may name itself. *)
Definition insert_node (id ty : string) (parent_id : option string)
    (name : string) (description : option string) (s : store)
    : option store :=
  match nodes s !! id with
  | Some _ => None
  | None =>
      let m := <[id := Node None ty parent_id name description]> (nodes s) in
      if fk_ok parent_id m then Some (set_nodes (λ _, m) s) else None
  end.

(** [INSERT INTO ports (id, node_id, port_type, name, description) ...] *)
Definition insert_port (id : string) (node_id : option string)
    (port_type name : string) (description : option string) (s : store)
    : option store :=
  match ports s !! id with
  | Some _ => None
  | None =>
      if fk_ok node_id (nodes s) then
        Some (set_ports
          (insert id (Port None node_id port_type name description)) s)
      else None
  end.

(** [INSERT INTO port_values (id, port_id, timestamp, value_numeric,
    value_text, value_boolean, is_synced) ...] *)
Definition insert_port_value (id : string) (port_id : option string)
    (timestamp : Z) (value_numeric : option Z) (value_text : option string)
    (value_boolean is_synced : option bool) (s : store) : option store :=
  match port_values s !! id with
  | Some _ => None
  | None =>
      if fk_ok port_id (ports s) then
        Some (set_port_values
          (insert id (PortValue None port_id timestamp value_numeric
                        value_text value_boolean None is_synced None)) s)
      else None
  end.

(** [INSERT INTO edges (id, from_port_id, to_port_id, description) ...] *)
Definition insert_edge (id : string) (from_port_id to_port_id : option string)
    (description : option string) (s : store) : option store :=
  match edges s !! id with
  | Some _ => None
  | None =>
      if fk_ok from_port_id (ports s) && fk_ok to_port_id (ports s) then
        Some (set_edges
          (insert id (Edge None from_port_id to_port_id description)) s)
      else None
  end.

(** [INSERT OR IGNORE INTO tags (node_id, tag_key, tag_value) ...]: a
    duplicate of the primary key is skipped. *)
Definition insert_tag (node_id key value : string) (s : store)
    : option store :=
  match tags s !! (node_id, key, value) with
  | Some _ => Some s
  | None =>
      if fk_ok (Some node_id) (nodes s) then
        Some (set_tags (insert (node_id, key, value) (Tag None)) s)
      else None
  end.

(** Modelled from the spec: a write that re-assigns a node's parent,
    [UPDATE nodes SET parent_id = p WHERE id = n], which the repository
    never issues; the schema puts nothing but the foreign key in its way,
    and no trigger listens to [parent_id]. *)
Definition set_parent (n : string) (parent_id : option string) (s : store)
    : option store :=
  match nodes s !! n with
  | None => Some s
  | Some r =>
      if fk_ok parent_id (nodes s) then
        Some (set_nodes (insert n
          (Node (n_deleted_at r) (n_type r) parent_id (n_name r)
                (n_description r))) s)
      else None
  end.

(** The writes the repository performs: populate inserts a node under no
    parent or under a node it inserted before, then ports, values, tags and
    edges; soft delete and restore run on the result. *)
Inductive write :=
  | InsertNode (id ty : string) (parent_id : option string) (name : string)
      (description : option string)
  | InsertPort (id : string) (node_id : option string)
      (port_type name : string) (description : option string)
  | InsertPortValue (id : string) (port_id : option string) (timestamp : Z)
      (value_numeric : option Z) (value_text : option string)
      (value_boolean is_synced : option bool)
  | InsertEdge (id : string) (from_port_id to_port_id : option string)
      (description : option string)
  | InsertTag (node_id key value : string)
  | NodeSetAlive (limit : nat) (n : string) (target : bool) (ts : Z)
  | PortSetAlive (p : string) (target : bool) (ts : Z).

Definition run_write (w : write) (s : store) : option store :=
  match w with
  | InsertNode id ty parent name descr =>
      if fk_ok parent (nodes s) then insert_node id ty parent name descr s
      else None
  | InsertPort id n ty name descr => insert_port id n ty name descr s
  | InsertPortValue id p t vn vt vb sy =>
      insert_port_value id p t vn vt vb sy s
  | InsertEdge id a b descr => insert_edge id a b descr s
  | InsertTag n k x => insert_tag n k x s
  | NodeSetAlive limit n target ts => SetAlive limit n target ts s
  | PortSetAlive p target ts => Some (SetPortAlive p target ts s)
  end.

Fixpoint run_writes (ws : list write) (s : store) : option store :=
  match ws with
  | [] => Some s
  | w :: ws => s ← run_write w s; run_writes ws s
  end.

Definition reachable (s : store) : Prop :=
  ∃ ws, run_writes ws empty_store = Some s.

(** ** The hierarchy query *)

(** A row of [nodes_hierarchy (id, name, type, description, level)]. *)
Record hrow := HRow {
  h_id : string;
  h_name : string;
  h_type : string;
  h_description : option string;
  h_level : Z }.

#[global] Instance hrow_eq_dec : EqDecision hrow.
Proof. solve_decision. Defined.

(** [SELECT id, name, type, description, 0 FROM nodes WHERE id = root] *)
Definition anchor (root : string) (s : store) : list hrow :=
  match nodes s !! root with
  | Some r => [HRow root (n_name r) (n_type r) (n_description r) 0]
  | None => []
  end.

(** [SELECT n.id, n.name, n.type, n.description, nh.level + 1
     FROM nodes_hierarchy nh JOIN nodes n ON n.parent_id = nh.id
     WHERE <bound on nh.level>] over the rows [work] of the last round. *)
Definition recursive_term (bound : Z → bool) (s : store) (work : list hrow)
    : list hrow :=
  nh ← work;
  if bound (h_level nh) then
    (λ kr, HRow kr.1 (n_name kr.2) (n_type kr.2) (n_description kr.2)
                (h_level nh + 1))
      <$> filter (λ kr, n_parent_id kr.2 = Some (h_id nh))
                 (map_to_list (nodes s))
  else [].

(** [WITH RECURSIVE ... UNION ALL ...]: every round's rows are emitted and
    fed to the recursive term until a round comes back empty; [None] when
    [fuel] rounds did not suffice. *)
Fixpoint rec_cte (fuel : nat) (step : list hrow → list hrow)
    (work : list hrow) : option (list hrow) :=
  match work with
  | [] => Some []
  | _ =>
      match fuel with
      | O => None
      | S f => (work ++.) <$> rec_cte f step (step work)
      end
  end.

(** The whole query, for a given bound on [nh.level]. *)
Definition nodes_hierarchy (bound : Z → Z → bool) (fuel : nat)
    (root : string) (D : Z) (s : store) : option (list hrow) :=
  rec_cte fuel (recursive_term (λ l, bound l D) s) (anchor root s).

(** The query as the PostgreSQL README and [test_queries.sql] write it:
    [WHERE nh.level < D]. *)
Definition nodes_hierarchy_pg :=
  nodes_hierarchy (λ l D, bool_decide (l < D)).

(** The query as the SQLite README writes it: [WHERE level <= D]. *)
Definition nodes_hierarchy_sqlite :=
  nodes_hierarchy (λ l D, bool_decide (l ≤ D)).

(** ** Tag search *)

(** [(tag_key = k1 AND tag_value = v1) OR (tag_key = k2 AND ...) OR ...] *)
Definition matches_any (required : list (string * string)) (k : tag_key)
    : bool :=
  existsb (λ kv, bool_decide (tk_key k = kv.1)
                 && bool_decide (tk_value k = kv.2)) required.

(** [SELECT node_id FROM tags WHERE <one predicate OR the next OR ...>
     GROUP BY node_id HAVING COUNT(DISTINCT tag_key) = <number of
     predicates>]; [deleted_at] occurs nowhere in the query. *)
Definition find_by_tags (required : list (string * string)) (s : store)
    : list string :=
  let matched := filter (λ k, matches_any required k = true)
                        (map_to_list (tags s)).*1 in
  filter (λ n,
      length (remove_dups
        (tk_key <$> filter (λ k, tk_node_id k = n) matched))
      = length required)
    (remove_dups (tk_node_id <$> matched)).

(** [SELECT * FROM nodes WHERE id IN (SELECT node_id FROM tags
     WHERE tag_key = k AND tag_value = v)] *)
Definition nodes_tagged (k v : string) (s : store) : list (string * node) :=
  filter (λ nr,
      nr.1 ∈ tk_node_id <$>
        filter (λ t, tk_key t = k ∧ tk_value t = v)
               (map_to_list (tags s)).*1)
    (map_to_list (nodes s)).

(** ** Predicates used to state what a cascade does *)

(** A row whose alive state differs from the state [v] stands for
    ([v = NULL] is alive, anything else is deleted). *)
Definition off_target `{Deletable R} (v : option Z) (r : R) : bool :=
  match v with
  | Some _ => is_null (deleted_at r)
  | None => negb (is_null (deleted_at r))
  end.

(** [m'] is [m] with [deleted_at] set to [v] on some rows that were off
    target; nothing else differs. *)
Definition flips `{Countable K} `{Deletable R}
    (v : option Z) (m m' : gmap K R) : Prop :=
  ∀ k, m' !! k = m !! k ∨
       ∃ r, m !! k = Some r ∧ off_target v r = true ∧
            m' !! k = Some (set_deleted_at v r).

(** The row with key [k] differs between [m] and [m']. *)
Definition chg `{Countable K} {R} (m m' : gmap K R) (k : K) : Prop :=
  m' !! k ≠ m !! k.

(** The row with key [k], if any, has alive state [v]. *)
Definition settled `{Countable K} `{Deletable R}
    (v : option Z) (m : gmap K R) (k : K) : Prop :=
  ∀ r, m !! k = Some r → off_target v r = false.

Record sflips (v : option Z) (s s' : store) : Prop := SFlips {
  sf_nodes : flips v (nodes s) (nodes s');
  sf_ports : flips v (ports s) (ports s');
  sf_port_values : flips v (port_values s) (port_values s');
  sf_edges : flips v (edges s) (edges s');
  sf_tags : flips v (tags s) (tags s') }.

(** The nodes a cascade started at [roots] walks into: a root that is off
    target, and every off-target child of a node already walked into. *)
Inductive creach (v : option Z) (s : store) (roots : string → Prop)
    : string → Prop :=
  | creach_root k r :
      roots k → nodes s !! k = Some r → off_target v r = true →
      creach v s roots k
  | creach_step x k r :
      creach v s roots x → nodes s !! k = Some r →
      n_parent_id r = Some x → off_target v r = true →
      creach v s roots k.

(** Every changed row is accounted for by the ownership chain. *)
Record justified (v : option Z) (roots : string → Prop) (s s' : store)
    : Prop := Justified {
  j_nodes : ∀ k, chg (nodes s) (nodes s') k → creach v s roots k;
  j_ports : ∀ k, chg (ports s) (ports s') k →
    ∃ r x, ports s !! k = Some r ∧ p_node_id r = Some x ∧
           chg (nodes s) (nodes s') x;
  j_port_values : ∀ k, chg (port_values s) (port_values s') k →
    ∃ r p, port_values s !! k = Some r ∧ v_port_id r = Some p ∧
           chg (ports s) (ports s') p;
  j_edges : ∀ k, chg (edges s) (edges s') k →
    ∃ r p, edges s !! k = Some r ∧
           (e_from_port_id r = Some p ∨ e_to_port_id r = Some p) ∧
           chg (ports s) (ports s') p;
  j_tags : ∀ k, chg (tags s) (tags s') k →
    chg (nodes s) (nodes s') (tk_node_id k) }.

(** Node [x] has taken its children, ports and tags along. *)
Record node_done (v : option Z) (s : store) (x : string) : Prop := NodeDone {
  nd_nodes : ∀ k r, nodes s !! k = Some r → n_parent_id r = Some x →
    off_target v r = false;
  nd_ports : ∀ k r, ports s !! k = Some r → p_node_id r = Some x →
    off_target v r = false;
  nd_tags : ∀ k r, tags s !! k = Some r → tk_node_id k = x →
    off_target v r = false }.

(** Port [p] has taken its values and incident edges along. *)
Record port_done (v : option Z) (s : store) (p : string) : Prop := PortDone {
  pd_port_values : ∀ k r, port_values s !! k = Some r →
    v_port_id r = Some p → off_target v r = false;
  pd_edges : ∀ k r, edges s !! k = Some r →
    e_from_port_id r = Some p ∨ e_to_port_id r = Some p →
    off_target v r = false }.

(** Every changed port is done, and every changed node is. *)
Definition pcomplete (v : option Z) (s s' : store) : Prop :=
  ∀ p, chg (ports s) (ports s') p → port_done v s' p.

Definition complete (v : option Z) (s s' : store) : Prop :=
  (∀ x, chg (nodes s) (nodes s') x → node_done v s' x) ∧ pcomplete v s s'.

(** What one [UPDATE ports] statement accounts for: only [ports] rows
    selected by [roots] change, and values and edges only below them. *)
Record pjustified (roots : string → Prop) (s s' : store) : Prop :=
  PJustified {
  pj_nodes : nodes s' = nodes s;
  pj_tags : tags s' = tags s;
  pj_ports : ∀ k, chg (ports s) (ports s') k → roots k;
  pj_port_values : ∀ k, chg (port_values s) (port_values s') k →
    ∃ r p, port_values s !! k = Some r ∧ v_port_id r = Some p ∧
           chg (ports s) (ports s') p;
  pj_edges : ∀ k, chg (edges s) (edges s') k →
    ∃ r p, edges s !! k = Some r ∧
           (e_from_port_id r = Some p ∨ e_to_port_id r = Some p) ∧
           chg (ports s) (ports s') p }.

(** What a statement on [nodes] issued by a trigger guarantees. *)
Definition stmt_post (v : option Z) (wh : string → node → bool)
    (s s' : store) : Prop :=
  sflips v s s' ∧
  justified v (λ k, ∃ r, nodes s !! k = Some r ∧ wh k r = true) s s' ∧
  complete v s s' ∧
  ∀ k r, nodes s !! k = Some r → wh k r = true → settled v (nodes s') k.

Definition run_ok (v : option Z) (run : nodes_stmt) : Prop :=
  ∀ wh s s', (∀ k r, wh k r = true → off_target v r = true) →
    run wh v s = Some s' → stmt_post v wh s s'.

(** What a statement on [ports] issued by a trigger guarantees. *)
Definition pstmt_post (v : option Z) (wh : string → port → bool)
    (s s' : store) : Prop :=
  sflips v s s' ∧
  pjustified (λ k, ∃ r, ports s !! k = Some r ∧ wh k r = true) s s' ∧
  pcomplete v s s' ∧
  ∀ k r, ports s !! k = Some r → wh k r = true → settled v (ports s') k.

Definition prun_ok (v : option Z) (runp : ports_stmt) : Prop :=
  ∀ wh s s', (∀ k r, wh k r = true → off_target v r = true) →
    runp wh v s = Some s' → pstmt_post v wh s s'.

(** The row of a statement on [nodes] is off target or holds [v] already:
    what every WHERE clause of a trigger body, and every later row of the
    same statement, satisfies. *)
Definition row_pre (v : option Z) (id : string) (s : store) : Prop :=
  ∀ r, nodes s !! id = Some r → off_target v r = true ∨ deleted_at r = v.

(** [W] holds every child of a node it holds. *)
Definition child_closed (W : string → Prop) (s : store) : Prop :=
  ∀ k r x, nodes s !! k = Some r → n_parent_id r = Some x → W x → W k.

(** What one row of a statement on [nodes] guarantees. *)
Definition row_post (v : option Z) (id : string) (s s' : store) : Prop :=
  sflips v s s' ∧ justified v (eq id) s s' ∧ complete v s s' ∧
  settled v (nodes s') id.

(** ** The shape of the node table *)

(** [x] is the parent of [k]. *)
Definition parent_of (s : store) (k x : string) : Prop :=
  ∃ r, nodes s !! k = Some r ∧ n_parent_id r = Some x.

(** [k] is [n] or one of its descendants. *)
Definition in_subtree (s : store) (n k : string) : Prop :=
  rtc (parent_of s) k n.

(** The nodes form a forest: no node is its own ancestor. *)
Definition acyclic (s : store) : Prop := ∀ k, ¬ tc (parent_of s) k k.

(** Every [parent_id] names a row of [nodes]. *)
Definition parents_exist (s : store) : Prop :=
  ∀ k x, parent_of s k x → is_Some (nodes s !! x).

(** Port [p] belongs to a node of the subtree of [n]. *)
Definition port_in_subtree (s : store) (n p : string) : Prop :=
  ∃ r x, ports s !! p = Some r ∧ p_node_id r = Some x ∧ in_subtree s n x.

(** Every record the subtree of [n] owns is alive: its nodes, their ports
    and tags, the values of those ports and the edges that have one of them
    at either end. *)
Record subtree_alive (s : store) (n : string) : Prop := SubtreeAlive {
  sa_nodes : ∀ k r, in_subtree s n k → nodes s !! k = Some r →
    alive r = true;
  sa_ports : ∀ p r, port_in_subtree s n p → ports s !! p = Some r →
    alive r = true;
  sa_tags : ∀ t r, in_subtree s n (tk_node_id t) → tags s !! t = Some r →
    alive r = true;
  sa_port_values : ∀ x r p, port_values s !! x = Some r →
    v_port_id r = Some p → port_in_subtree s n p → alive r = true;
  sa_edges : ∀ e r p, edges s !! e = Some r →
    e_from_port_id r = Some p ∨ e_to_port_id r = Some p →
    port_in_subtree s n p → alive r = true }.

(** Every row of every table is alive. *)
Definition all_alive (s : store) : Prop :=
  map_Forall (λ _ r, alive r = true) (nodes s) ∧
  map_Forall (λ _ r, alive r = true) (ports s) ∧
  map_Forall (λ _ r, alive r = true) (port_values s) ∧
  map_Forall (λ _ r, alive r = true) (edges s) ∧
  map_Forall (λ _ r, alive r = true) (tags s).

(** In [s'] the node [k] has alive = target and has brought along all its
    children, ports and tags, and every port of [k] whose alive state in
    [s] differed from target has brought along all its values and all
    edges that have it at either end. *)
Definition cascaded (target : bool) (s s' : store) (k : string) : Prop :=
  (∃ r, nodes s' !! k = Some r ∧ alive r = target) ∧
  (∀ c r, nodes s' !! c = Some r → n_parent_id r = Some k →
     alive r = target) ∧
  (∀ p r, ports s' !! p = Some r → p_node_id r = Some k →
     alive r = target) ∧
  (∀ t r, tags s' !! t = Some r → tk_node_id t = k → alive r = target) ∧
  (∀ p pr, ports s !! p = Some pr → p_node_id pr = Some k →
     alive pr ≠ target →
     (∀ x r, port_values s' !! x = Some r → v_port_id r = Some p →
        alive r = target) ∧
     (∀ e r, edges s' !! e = Some r →
        e_from_port_id r = Some p ∨ e_to_port_id r = Some p →
        alive r = target)).

(** The rows that differ between [s] and [s'] are exactly the rows a
    cascade for [v] started at [n] takes: the nodes it walks into, the
    off-target ports and tags of those nodes, and the off-target values and
    incident edges of the ports that differ. *)
Definition changes_exactly (v : option Z) (n : string) (s s' : store)
    : Prop :=
  (∀ k, chg (nodes s) (nodes s') k ↔ creach v s (eq n) k) ∧
  (∀ p, chg (ports s) (ports s') p ↔
        ∃ r x, ports s !! p = Some r ∧ off_target v r = true ∧
               p_node_id r = Some x ∧ creach v s (eq n) x) ∧
  (∀ x, chg (port_values s) (port_values s') x ↔
        ∃ r p, port_values s !! x = Some r ∧ off_target v r = true ∧
               v_port_id r = Some p ∧ chg (ports s) (ports s') p) ∧
  (∀ e, chg (edges s) (edges s') e ↔
        ∃ r p, edges s !! e = Some r ∧ off_target v r = true ∧
               (e_from_port_id r = Some p ∨ e_to_port_id r = Some p) ∧
               chg (ports s) (ports s') p) ∧
  (∀ t, chg (tags s) (tags s') t ↔
        ∃ r, tags s !! t = Some r ∧ off_target v r = true ∧
             creach v s (eq n) (tk_node_id t)).

(** Nothing differs below node [m]: the nodes of its subtree, their ports
    and tags and the values of those ports are in [s'] what they are in
    [s].  Edges are left out, since an edge follows the port at either
    end. *)
Definition untouched_below (s s' : store) (m : string) : Prop :=
  (∀ k, in_subtree s m k → nodes s' !! k = nodes s !! k) ∧
  (∀ p, port_in_subtree s m p → ports s' !! p = ports s !! p) ∧
  (∀ x r p, port_values s !! x = Some r → v_port_id r = Some p →
     port_in_subtree s m p → port_values s' !! x = port_values s !! x) ∧
  (∀ t, in_subtree s m (tk_node_id t) → tags s' !! t = tags s !! t).

(** The timestamps the engine stores as they are given: 64-bit signed
    integers.  A literal beyond them is read as a floating point number
    and rounded. *)
Definition int64 (ts : Z) : Prop := - 2 ^ 63 ≤ ts < 2 ^ 63.

(** ** The store as the spec sees it *)

(** A record with its [alive] flag in place of the deletion timestamp. *)
Definition view_row `{Deletable R} (r : R) : bool * R :=
  (alive r, set_deleted_at None r).

Definition view (s : store) :=
  (view_row <$> nodes s, view_row <$> ports s, view_row <$> port_values s,
   view_row <$> edges s, view_row <$> tags s).

(** Two tables hold the same rows up to [deleted_at]. *)
Definition same_rows `{Countable K} `{Deletable R} (m m' : gmap K R) : Prop :=
  ∀ k, set_deleted_at None <$> m' !! k = set_deleted_at None <$> m !! k.

(** ** Stores used as concrete inputs *)

Definition a_node (ty : string) (parent : option string) : node :=
  Node None ty parent "n" None.

(** Network A, device B under A, point C under B, and an unrelated network
    X; C has a port with one value and an edge to a port of X; C is tagged
    (category, medium).  Everything is alive. *)
Definition family : store :=
  Store
    (list_to_map [("A", a_node "network" None);
                  ("B", a_node "device" (Some "A"));
                  ("C", a_node "point" (Some "B"));
                  ("X", a_node "network" None)])
    (list_to_map [("pA", Port None (Some "A") "input" "p" None);
                  ("pC", Port None (Some "C") "output" "p" None);
                  ("qC", Port None (Some "C") "input" "q" None);
                  ("pX", Port None (Some "X") "input" "p" None)])
    (list_to_map [("v1", PortValue None (Some "pC") 0 None None None None
                           None None);
                  ("v2", PortValue None (Some "qC") 0 None None None None
                           None None)])
    (list_to_map [("e1", Edge None (Some "pC") (Some "pX") None);
                  ("e2", Edge None (Some "pX") (Some "qC") None)])
    (list_to_map [(("C", "category", "medium"), Tag None);
                  (("C", "zone", "a"), Tag None);
                  (("C", "zone", "b"), Tag None)]).

(** A chain n0 <- n1 <- n2 <- n3 <- n4 <- n5 of alive nodes. *)
Definition chain : store :=
  Store
    (list_to_map [("n0", a_node "network" None);
                  ("n1", a_node "device" (Some "n0"));
                  ("n2", a_node "point" (Some "n1"));
                  ("n3", a_node "point" (Some "n2"));
                  ("n4", a_node "point" (Some "n3"));
                  ("n5", a_node "point" (Some "n4"))])
    ∅ ∅ ∅ ∅.

Definition family_writes : list write :=
  [InsertNode "A" "network" None "n" None;
   InsertNode "B" "device" (Some "A") "n" None;
   InsertNode "C" "point" (Some "B") "n" None;
   InsertNode "X" "network" None "n" None;
   InsertPort "pA" (Some "A") "input" "p" None;
   InsertPort "pC" (Some "C") "output" "p" None;
   InsertPort "qC" (Some "C") "input" "q" None;
   InsertPort "pX" (Some "X") "input" "p" None;
   InsertPortValue "v1" (Some "pC") 0 None None None None;
   InsertPortValue "v2" (Some "qC") 0 None None None None;
   InsertEdge "e1" (Some "pC") (Some "pX") None;
   InsertEdge "e2" (Some "pX") (Some "qC") None;
   InsertTag "C" "category" "medium";
   InsertTag "C" "zone" "a";
   InsertTag "C" "zone" "b"].

(** [family] after B was soft-deleted and C restored on its own: C is alive
    under the dead B. *)
Definition family_b_dead : store :=
  default empty_store
    (SetAlive 4 "B" false 1 family ≫= SetAlive 4 "C" true 2).

(** The store after [INSERT INTO nodes] of a row that names itself as its
    parent, and [family] after A was re-parented under its grandchild C. *)
Definition self_parented : store :=
  default empty_store
    (insert_node "A" "network" (Some "A") "n" None empty_store).

Definition family_cycle : store :=
  default empty_store (set_parent "A" (Some "C") family).

(** [family] after B was soft-deleted: B and C are dead. *)
Definition family_b_deleted : store :=
  default empty_store (SetAlive 4 "B" false 1 family).

(** [chain] after n1 was soft-deleted, n2 restored and n3 soft-deleted:
    n0 alive, n1 dead, n2 alive, n3 and below dead. *)
Definition chain_mixed : store :=
  default empty_store
    ((SetAlive 6 "n1" false 1 chain ≫= SetAlive 6 "n2" true 2)
       ≫= SetAlive 6 "n3" false 3).

(** [family] after A was soft-deleted. *)
Definition family_a_dead : store :=
  default empty_store (SetAlive 4 "A" false 7 family).

(** The number of rows still off target: what a cascade consumes. *)
Definition off_keys `{Countable K} `{Deletable R}
    (v : option Z) (m : gmap K R) : gset K :=
  dom (filter (λ kr, off_target v kr.2 = true) m).

(** The grouping of the key-only variant of the search:
    [SELECT node_id FROM tags WHERE <one predicate OR the next OR ...>
     GROUP BY node_id HAVING COUNT(DISTINCT (tag_key, tag_value)) = <number
     of predicates>]. *)
Definition filtered_nodes (required : list (string * string)) (s : store)
    : list string :=
  let matched := filter (λ k, matches_any required k = true)
                        (map_to_list (tags s)).*1 in
  filter (λ n,
      length (remove_dups
        ((λ k, (tk_key k, tk_value k))
           <$> filter (λ k, tk_node_id k = n) matched))
      = length required)
    (remove_dups (tk_node_id <$> matched)).

(** [SELECT nd.*, tg.* FROM nodes nd
     JOIN filtered_nodes fn ON nd.id = fn.node_id
     JOIN tags tg ON nd.id = tg.node_id WHERE tg.tag_key = key] *)
Definition find_by_tags_and_key (required : list (string * string))
    (key : string) (s : store) : list ((string * node) * (tag_key * tag)) :=
  nd ← map_to_list (nodes s);
  fn ← filter (λ fn, nd.1 = fn) (filtered_nodes required s);
  tg ← filter (λ tg, nd.1 = tk_node_id tg.1 ∧ tk_key tg.1 = key)
              (map_to_list (tags s));
  [(nd, tg)].

(** ** The hierarchy query written level by level *)

(** SQL [x IN (<ids>)]; a NULL is in no list. *)
Definition is_in (x : option string) (ids : list string) : bool :=
  match x with
  | Some p => bool_decide (p ∈ ids)
  | None => false
  end.

(** [SELECT n.id, n.name, n.type, n.description, <level> AS level
     FROM nodes n WHERE parent_id IN (SELECT id FROM <prev>)] *)
Definition level_cte (level : Z) (prev : list hrow) (s : store)
    : list hrow :=
  (λ kr, HRow kr.1 (n_name kr.2) (n_type kr.2) (n_description kr.2) level)
    <$> filter (λ kr, is_in (n_parent_id kr.2) (h_id <$> prev) = true)
               (map_to_list (nodes s)).

(** [WITH base AS (...), level_1 AS (...), level_2 AS (...),
     level_3 AS (...) SELECT * FROM base UNION ALL SELECT * FROM level_1
     UNION ALL SELECT * FROM level_2 UNION ALL SELECT * FROM level_3] *)
Definition nodes_hierarchy_levels (root : string) (s : store) : list hrow :=
  let base := anchor root s in
  let level_1 := level_cte 1 base s in
  let level_2 := level_cte 2 level_1 s in
  let level_3 := level_cte 3 level_2 s in
  base ++ level_1 ++ level_2 ++ level_3.

(** [k] is a row of [nodes] that lies [l] parent links below [root]. *)
Inductive at_depth (s : store) (root : string) : nat → string → Prop :=
  | at_depth_O : is_Some (nodes s !! root) → at_depth s root 0 root
  | at_depth_S l x k :
      at_depth s root l x → parent_of s k x → at_depth s root (S l) k.

(** The row the hierarchy queries return for node [k] at level [l]. *)
Definition hrow_of (k : string) (r : node) (l : Z) : hrow :=
  HRow k (n_name r) (n_type r) (n_description r) l.

(** Rows of level [l] that come from the table. *)
Definition level_rows (s : store) (l : Z) (w : list hrow) : Prop :=
  ∀ x, x ∈ w → ∃ r, nodes s !! h_id x = Some r ∧ x = hrow_of (h_id x) r l.

(** ** Hard delete *)

(** One row of [DELETE FROM ports ...] once the engine has entered the
    programs of the foreign key actions: the row goes, and with it the rows
    of [port_values] and [edges] whose foreign key ([port_id],
    [from_port_id], [to_port_id] REFERENCES ports(id) ON DELETE CASCADE)
    names it.  The soft-delete triggers listen to [UPDATE OF deleted_at]
    only and stay silent; no foreign key references [port_values] or
    [edges], so the deletes of the actions go no further. *)
Definition delete_port_row (p : string) (s : store) : store :=
  match ports s !! p with
  | None => s
  | Some _ =>
      let s := set_ports (delete p) s in
      let s := set_port_values (filter (λ kr, v_port_id kr.2 ≠ Some p)) s in
      let s := set_edges (filter (λ kr, e_from_port_id kr.2 ≠ Some p)) s in
      set_edges (filter (λ kr, e_to_port_id kr.2 ≠ Some p)) s
  end.

(** One row of [DELETE FROM ports ...] with [depth] levels of nesting
    left.  A foreign key action is a trigger program of the engine: for
    every row deleted the programs of the three foreign keys that
    reference [ports(id)] are entered, which takes one level; with no
    level left the statement fails. *)
Definition delete_port_at (depth : nat) (p : string) (s : store)
    : option store :=
  match ports s !! p, depth with
  | None, _ => Some s
  | Some _, O => None
  | Some _, S _ => Some (delete_port_row p s)
  end.

(** A delete on [ports] issued by a foreign key action; [None] when the
    engine's bound on nesting is exceeded. *)
Definition delete_ports_stmt :=
  (string → port → bool) → store → option store.

(** [DELETE FROM ports WHERE wh], as the foreign key action on
    [ports.node_id] issues it, with [depth] levels of nesting left. *)
Definition delete_ports_where (depth : nat) : delete_ports_stmt :=
  λ wh s,
  for_each_row (λ p s, delete_port_at depth p s) (select_ids wh (ports s)) s.

(** A delete on [nodes] issued by a foreign key action; [None] when the
    engine's bound on nesting is exceeded. *)
Definition delete_stmt := (string → node → bool) → store → option store.

(** One row of [DELETE FROM nodes ...] once the engine has entered the
    programs of the foreign key actions: the row goes, then the actions of
    the foreign keys that reference [nodes(id)] run: [nodes.parent_id],
    [ports.node_id] and [tags.node_id], all [ON DELETE CASCADE].  [run] and
    [runp] are the deletes on [nodes] and on [ports] at the nesting level
    of the actions. *)
Definition delete_node_row (run : delete_stmt) (runp : delete_ports_stmt)
    (id : string) (s : store) : option store :=
  match nodes s !! id with
  | None => Some s
  | Some _ =>
      let s := set_nodes (delete id) s in
      s ← run (λ _ r, bool_decide (n_parent_id r = Some id)) s;
      s ← runp (λ _ r, bool_decide (p_node_id r = Some id)) s;
      Some (set_tags (filter (λ kr, tk_node_id kr.1 ≠ id)) s)
  end.

(** One row of [DELETE FROM nodes ...] with [depth] levels of nesting
    left: entering the programs of the actions takes one level, and the
    deletes they issue run with one level less. *)
Fixpoint delete_node_at (depth : nat) (id : string) (s : store)
    : option store :=
  match nodes s !! id, depth with
  | None, _ => Some s
  | Some _, O => None
  | Some _, S d =>
      delete_node_row
        (λ wh s, for_each_row (λ id s, delete_node_at d id s)
                   (select_ids wh (nodes s)) s)
        (delete_ports_where d) id s
  end.

(** [DELETE FROM nodes WHERE wh] with [depth] levels of nesting left. *)
Definition delete_nodes_where (depth : nat) : delete_stmt :=
  λ wh s,
  for_each_row (λ id s, delete_node_at depth id s) (select_ids wh (nodes s)) s.

(** [DELETE FROM nodes WHERE id = n], the cascade delete of the READMEs,
    with [limit] the deepest nesting of foreign key actions the engine
    accepts. *)
Definition delete_node (limit : nat) (n : string) (s : store)
    : option store :=
  delete_node_at limit n s.

(** *** Predicates used to state what a hard delete does *)

(** Row [k] of [m] is no longer in [m']. *)
Definition removed `{Countable K} {R} (m m' : gmap K R) (k : K) : Prop :=
  is_Some (m !! k) ∧ m' !! k = None.

(** No row of [s] refers to port [p]. *)
Definition port_gone (s : store) (p : string) : Prop :=
  (∀ v r, port_values s !! v = Some r → v_port_id r ≠ Some p) ∧
  (∀ e r, edges s !! e = Some r →
     e_from_port_id r ≠ Some p ∧ e_to_port_id r ≠ Some p).

(** No row of [s] refers to node [x]. *)
Definition node_gone (s : store) (x : string) : Prop :=
  (∀ c r, nodes s !! c = Some r → n_parent_id r ≠ Some x) ∧
  (∀ p r, ports s !! p = Some r → p_node_id r ≠ Some x) ∧
  (∀ t, is_Some (tags s !! t) → tk_node_id t ≠ x).

(** What a delete on [ports] guarantees: only ports among [roots] go, they
    take the rows that refer to them, and nothing else goes. *)
Record ports_post (roots : string → Prop) (s s' : store) : Prop :=
  PortsPost {
    pp_nodes : nodes s' = nodes s;
    pp_tags : tags s' = tags s;
    pp_ports : ports s' ⊆ ports s;
    pp_values : port_values s' ⊆ port_values s;
    pp_edges : edges s' ⊆ edges s;
    pp_roots : ∀ p, removed (ports s) (ports s') p → roots p;
    pp_jvalues : ∀ v r, port_values s !! v = Some r →
      port_values s' !! v = None →
      ∃ p, v_port_id r = Some p ∧ removed (ports s) (ports s') p;
    pp_jedges : ∀ e r, edges s !! e = Some r → edges s' !! e = None →
      ∃ p, (e_from_port_id r = Some p ∨ e_to_port_id r = Some p) ∧
           removed (ports s) (ports s') p;
    pp_done : ∀ p, removed (ports s) (ports s') p → port_gone s' p }.

(** Every table of [s'] is part of the table of [s]. *)
Record shrinks (s s' : store) : Prop := Shrinks {
  sh_nodes : nodes s' ⊆ nodes s;
  sh_ports : ports s' ⊆ ports s;
  sh_values : port_values s' ⊆ port_values s;
  sh_edges : edges s' ⊆ edges s;
  sh_tags : tags s' ⊆ tags s }.

(** Every row that went is accounted for: a node lies below one of
    [roots], a port or tag belonged to a node that went, a value or edge
    referred to a port that went. *)
Record djustified (roots : string → Prop) (s s' : store) : Prop :=
  DJustified {
    dj_nodes : ∀ k, removed (nodes s) (nodes s') k →
      ∃ x, roots x ∧ in_subtree s x k;
    dj_ports : ∀ p r, ports s !! p = Some r → ports s' !! p = None →
      ∃ x, p_node_id r = Some x ∧ removed (nodes s) (nodes s') x;
    dj_values : ∀ v r, port_values s !! v = Some r →
      port_values s' !! v = None →
      ∃ p, v_port_id r = Some p ∧ removed (ports s) (ports s') p;
    dj_edges : ∀ e r, edges s !! e = Some r → edges s' !! e = None →
      ∃ p, (e_from_port_id r = Some p ∨ e_to_port_id r = Some p) ∧
           removed (ports s) (ports s') p;
    dj_tags : ∀ t, removed (tags s) (tags s') t →
      removed (nodes s) (nodes s') (tk_node_id t) }.

(** Every node and port that went took the rows that referred to it. *)
Definition dcomplete (s s' : store) : Prop :=
  (∀ x, removed (nodes s) (nodes s') x → node_gone s' x) ∧
  (∀ p, removed (ports s) (ports s') p → port_gone s' p).

Definition delete_post (roots : string → Prop) (s s' : store) : Prop :=
  shrinks s s' ∧ djustified roots s s' ∧ dcomplete s s'.

Definition delete_stmt_post (wh : string → node → bool) (s s' : store)
    : Prop :=
  delete_post (λ k, ∃ r, nodes s !! k = Some r ∧ wh k r = true) s s' ∧
  ∀ k r, nodes s !! k = Some r → wh k r = true → nodes s' !! k = None.

(** Every foreign key of every row names a row of the referenced table. *)
Record fk_valid (s : store) : Prop := FkValid {
  fk_parent_id : ∀ k r, nodes s !! k = Some r →
    fk_ok (n_parent_id r) (nodes s) = true;
  fk_node_id : ∀ p r, ports s !! p = Some r →
    fk_ok (p_node_id r) (nodes s) = true;
  fk_port_id : ∀ v r, port_values s !! v = Some r →
    fk_ok (v_port_id r) (ports s) = true;
  fk_from_port_id : ∀ e r, edges s !! e = Some r →
    fk_ok (e_from_port_id r) (ports s) = true;
  fk_to_port_id : ∀ e r, edges s !! e = Some r →
    fk_ok (e_to_port_id r) (ports s) = true;
  fk_tag_node_id : ∀ t, is_Some (tags s !! t) →
    is_Some (nodes s !! tk_node_id t) }.

(** ** The populate program *)

(** What [rand] and [generateID] return is an input of the model: the ids
    and the indices drawn are parameters of the functions below. *)

Definition tagKeys : list string :=
  ["location"; "category"; "priority"; "status"; "environment"; "region";
   "zone"; "criticality"].

Definition tagValues : list string :=
  ["production"; "staging"; "development"; "high"; "medium"; "low";
   "active"; "inactive"; "north"; "south"; "east"; "west"; "zone-a";
   "zone-b"; "zone-c"].

(** How a piece of the program ends: normally, in [log.Fatal], or in a
    run-time panic. *)
Inductive outcome (A : Type) :=
  | Ok (a : A)
  | Fatal
  | Panic.
Arguments Ok {A} a.
Arguments Fatal {A}.
Arguments Panic {A}.

(** Go's [s[:8]]: the first eight bytes; a run-time panic on a shorter
    string. *)
Definition prefix8 (s : string) : option string :=
  if decide (8 ≤ String.length s)%nat then Some (String.substring 0 8 s)
  else None.

(** [createPorts(stmt, nodeID, &totalPorts, &allPorts)], with the two ids
    that [generateID] returns; the state is the transaction's store, the
    counter and the list of all port ids. *)
Definition createPorts (inputPortID outputPortID : string) (nodeID : string)
    (st : store * nat * list string)
    : outcome (list string * (store * nat * list string)) :=
  let '(s, totalPorts, allPorts) := st in
  let ports := [] in
  match prefix8 nodeID with
  | None => Panic
  | Some pre =>
      match insert_port inputPortID (Some nodeID) "input"
              ("Input-" +:+ pre) (Some "Input port") s with
      | None => Fatal
      | Some s =>
          let totalPorts := S totalPorts in
          let ports := ports ++ [inputPortID] in
          let allPorts := allPorts ++ [inputPortID] in
          match prefix8 nodeID with
          | None => Panic
          | Some pre =>
              match insert_port outputPortID (Some nodeID) "output"
                      ("Output-" +:+ pre) (Some "Output port") s with
              | None => Fatal
              | Some s =>
                  let totalPorts := S totalPorts in
                  let ports := ports ++ [outputPortID] in
                  let allPorts := allPorts ++ [outputPortID] in
                  Ok (ports, (s, totalPorts, allPorts))
              end
          end
      end
  end.

(** The tag loop of a node: one round per pair of indices drawn,
    [key := tagKeys[i]; value := tagValues[j];
     _, _ = tagStmt.Exec(nodeID, key, value); totalTags++].
    The error of the statement is dropped; a failed statement leaves the
    transaction as it was.  Indices are drawn below the lengths, so the
    lookups do not fail. *)
Definition add_tags (nodeID : string) (draws : list (nat * nat))
    (st : store * nat) : store * nat :=
  foldl (λ st d,
      let key := tagKeys !!! d.1 in
      let value := tagValues !!! d.2 in
      (default st.1 (insert_tag nodeID key value st.1), S st.2))
    st draws.

(** The pairs (key, value) that the rounds of a tag loop insert. *)
Definition drawn_tags (draws : list (nat * nat)) : list (string * string) :=
  (λ d, (tagKeys !!! d.1, tagValues !!! d.2)) <$> draws.

(** The edge loop: one round per draw of an index into [fromPorts]
    (the ports of the device or network), an index into [allPorts] and an
    edge id,
    [if fromPort != toPort { _, _ = edgeStmt.Exec(edgeID, fromPort, toPort,
     description); totalEdges++ }].
    [draws] holds the rounds that run: the loop condition does not change
    while the loop runs. *)
Definition add_edges (fromPorts allPorts : list string) (description : string)
    (draws : list (nat * nat * string)) (st : store * nat) : store * nat :=
  foldl (λ st d,
      let fromPort := fromPorts !!! d.1.1 in
      let toPort := allPorts !!! d.1.2 in
      if decide (fromPort ≠ toPort) then
        (default st.1
           (insert_edge d.2 (Some fromPort) (Some toPort) (Some description)
              st.1),
         S st.2)
      else st)
    st draws.

(** The store after populate inserted its first network. *)
Definition one_network : store :=
  default empty_store
    (insert_node "network1" "network" None "Network-1"
       (Some "Network 1 description") empty_store).




(** * Properties *)

Arguments deleted_at : simpl never.
Arguments set_deleted_at : simpl never.
Arguments recursive_term : simpl never.

Ltac store_simpl :=
  cbn [nodes ports port_values edges tags
       set_nodes set_ports set_port_values set_edges set_tags] in *.

(** ** Rows and tables *)

Section tables.
Context `{Countable K} `{Deletable R}.
Implicit Types (m : gmap K R) (r : R) (v : option Z) (k : K).

Lemma off_target_set v r : off_target v (set_deleted_at v r) = false.
Proof. unfold off_target. rewrite deleted_at_set. by destruct v. Qed.

Lemma off_target_alive v r :
  off_target v r = negb (eqb (alive r) (is_null v)).
Proof. unfold off_target, alive. by destruct v, (deleted_at r). Qed.

Lemma settled_alive v m k r :
  settled v m k → m !! k = Some r → alive r = is_null v.
Proof.
  intros Hs Hr. specialize (Hs r Hr). rewrite off_target_alive in Hs.
  by destruct (alive r), (is_null v).
Qed.

Lemma lookup_update_where (wh : K → R → bool) v m k :
  update_where wh v m !! k =
  (λ r, if wh k r then set_deleted_at v r else r) <$> m !! k.
Proof.
  unfold update_where. rewrite map_lookup_imap. by destruct (m !! k).
Qed.

Lemma elem_of_select_ids (wh : K → R → bool) m k :
  k ∈ select_ids wh m ↔ ∃ r, m !! k = Some r ∧ wh k r = true.
Proof.
  unfold select_ids. rewrite list_elem_of_fmap. split.
  - intros [[k' r] [-> [Hwh Hin]%list_elem_of_filter]].
    apply elem_of_map_to_list in Hin. eauto.
  - intros (r & Hr & Hwh). exists (k, r). split; [done|].
    apply list_elem_of_filter. split; [done|]. by apply elem_of_map_to_list.
Qed.

Lemma flips_refl v m : flips v m m.
Proof. intros k. by left. Qed.

Lemma flips_trans v m1 m2 m3 :
  flips v m1 m2 → flips v m2 m3 → flips v m1 m3.
Proof.
  intros H12 H23 k.
  destruct (H23 k) as [->|(r & Hr & Hoff & ->)]; [apply H12|].
  destruct (H12 k) as [Heq|(r' & _ & _ & Hr')].
  - right. exists r. by rewrite <- Heq.
  - rewrite Hr in Hr'. injection Hr' as ->.
    by rewrite off_target_set in Hoff.
Qed.

Lemma flips_insert v m k r :
  m !! k = Some r → off_target v r = true →
  flips v m (<[k := set_deleted_at v r]> m).
Proof.
  intros Hr Hoff k'. destruct (decide (k = k')) as [<-|Hne].
  - right. exists r. by rewrite lookup_insert_eq.
  - left. by rewrite lookup_insert_ne.
Qed.

Lemma flips_update_where (wh : K → R → bool) v m :
  (∀ k r, wh k r = true → off_target v r = true) →
  flips v m (update_where wh v m).
Proof.
  intros Hwh k. rewrite lookup_update_where.
  destruct (m !! k) as [r|] eqn:Hr; [|by left]. simpl.
  destruct (wh k r) eqn:Hk; [|by left]. right. exists r. eauto.
Qed.

(** A settled row stays as it is. *)
Lemma flips_settled_eq v m m' k r :
  flips v m m' → m !! k = Some r → off_target v r = false →
  m' !! k = Some r.
Proof.
  intros Hf Hr Hoff. destruct (Hf k) as [->|(r' & Hr' & Hoff' & _)]; [done|].
  congruence.
Qed.

(** A row still off target has not been touched. *)
Lemma flips_off_eq v m m' k r :
  flips v m m' → m' !! k = Some r → off_target v r = true →
  m !! k = Some r.
Proof.
  intros Hf Hr Hoff. destruct (Hf k) as [<-|(r' & _ & _ & Hr')]; [done|].
  rewrite Hr in Hr'. injection Hr' as ->. by rewrite off_target_set in Hoff.
Qed.

Lemma flips_settled v m m' k :
  flips v m m' → settled v m k → settled v m' k.
Proof.
  intros Hf Hs r Hr. destruct (off_target v r) eqn:Hoff; [|done].
  rewrite <- Hoff. eapply Hs, flips_off_eq; eauto.
Qed.

Lemma flips_chg v m m' k :
  flips v m m' → chg m m' k →
  ∃ r, m !! k = Some r ∧ off_target v r = true ∧
       m' !! k = Some (set_deleted_at v r).
Proof. intros Hf Hc. by destruct (Hf k). Qed.

Lemma flips_lookup_inv v m m' k r' :
  flips v m m' → m' !! k = Some r' →
  ∃ r, m !! k = Some r ∧ (r' = r ∨ r' = set_deleted_at v r).
Proof.
  intros Hf Hr'. destruct (Hf k) as [Heq|(r & Hr & _ & Heq)].
  - exists r'. split; [congruence|by left].
  - exists r. split; [done|]. right. congruence.
Qed.

Lemma flips_chg_iff v m m' k :
  flips v m m' →
  chg m m' k ↔ ∃ r, m !! k = Some r ∧ off_target v r = true ∧
                    m' !! k = Some (set_deleted_at v r).
Proof.
  intros Hf. split; [by apply flips_chg|].
  intros (r & Hr & Hoff & Hr') Heq. rewrite Hr in Heq.
  rewrite Hr' in Heq. injection Heq as Heq.
  rewrite <- Heq in Hoff. by rewrite off_target_set in Hoff.
Qed.

Lemma chg_split v m1 m2 m3 k :
  flips v m1 m2 → chg m1 m3 k → chg m1 m2 k ∨ chg m2 m3 k.
Proof.
  intros H12 Hc. destruct (H12 k) as [Heq|Hflip].
  - right. unfold chg in *. congruence.
  - left. by apply (flips_chg_iff v).
Qed.

(** A row changed by the first of two steps is changed by both. *)
Lemma chg_trans_l v m1 m2 m3 k :
  flips v m1 m2 → flips v m2 m3 → chg m1 m2 k → chg m1 m3 k.
Proof.
  intros H12 H23 (r & Hr & Hoff & Hr')%(flips_chg v); [|done].
  apply (flips_chg_iff v); [by eapply flips_trans|].
  exists r. split_and!; [done..|].
  eapply flips_settled_eq; eauto using off_target_set.
Qed.

Lemma chg_trans_r v m1 m2 m3 k :
  flips v m1 m2 → flips v m2 m3 → chg m2 m3 k → chg m1 m3 k.
Proof.
  intros H12 H23 (r & Hr & Hoff & Hr')%(flips_chg v); [|done].
  apply (flips_chg_iff v); [by eapply flips_trans|].
  exists r. split_and!; [|done..]. by eapply flips_off_eq.
Qed.

Lemma chg_off_keys v m m' k :
  flips v m m' → chg m m' k → k ∈ off_keys v m.
Proof.
  intros Hf (r & Hr & Hoff & _)%(flips_chg v); [|done].
  unfold off_keys. apply elem_of_dom. exists r.
  by apply map_lookup_filter_Some.
Qed.

Lemma elem_of_off_keys v m k :
  k ∈ off_keys v m ↔ ∃ r, m !! k = Some r ∧ off_target v r = true.
Proof.
  unfold off_keys. rewrite elem_of_dom. split.
  - intros [r [Hr Hoff]%map_lookup_filter_Some]. eauto.
  - intros (r & Hr & Hoff). exists r. by apply map_lookup_filter_Some.
Qed.

Lemma off_keys_flips v m m' : flips v m m' → off_keys v m' ⊆ off_keys v m.
Proof.
  intros Hf k (r & Hr & Hoff)%elem_of_off_keys.
  apply elem_of_off_keys. exists r. split; [|done]. by eapply flips_off_eq.
Qed.

Lemma off_keys_insert v m k r :
  m !! k = Some r → off_target v r = true →
  off_keys v (<[k := set_deleted_at v r]> m) ⊂ off_keys v m.
Proof.
  intros Hr Hoff. split.
  - by apply off_keys_flips, flips_insert.
  - intros Hsub. assert (k ∈ off_keys v m) as Hk.
    { apply elem_of_off_keys. eauto. }
    apply Hsub, elem_of_off_keys in Hk as (r' & Hr' & Hoff').
    rewrite lookup_insert_eq in Hr'. injection Hr' as <-.
    by rewrite off_target_set in Hoff'.
Qed.
End tables.

(** ** Statements on [ports] *)

Lemma sflips_refl v s : sflips v s s.
Proof. split; apply flips_refl. Qed.

Lemma sflips_trans v s1 s2 s3 :
  sflips v s1 s2 → sflips v s2 s3 → sflips v s1 s3.
Proof. intros [] []. split; by eapply flips_trans. Qed.

(** Both trigger families of [ports] are one rule: when the row flips, its
    values and incident edges that are still off target follow. *)
Lemma update_port_row_eq id v s :
  update_port_row id v s =
  match ports s !! id with
  | None => s
  | Some old =>
      let s1 := set_ports (insert id (set_deleted_at v old)) s in
      if off_target v old then
        set_edges (update_where
          (λ _ r, (bool_decide (e_from_port_id r = Some id)
                   || bool_decide (e_to_port_id r = Some id))
                  && off_target v r) v)
          (set_port_values (update_where
            (λ _ r, bool_decide (v_port_id r = Some id) && off_target v r) v)
            s1)
      else s1
  end.
Proof.
  unfold update_port_row. destruct (ports s !! id) as [old|]; [|done].
  unfold cascade_soft_delete_port_values_on_ports_delete,
    cascade_soft_delete_edges_on_ports_delete,
    cascade_restore_port_values_on_ports_restore,
    cascade_restore_edges_on_ports_restore, when_delete, when_restore.
  rewrite deleted_at_set. unfold off_target at 1.
  by destruct v, (deleted_at old).
Qed.

Lemma pjustified_refl roots s : pjustified roots s s.
Proof. split; try done; intros k Hc; by destruct Hc. Qed.

Lemma pcomplete_refl v s : pcomplete v s s.
Proof. intros p Hc. by destruct Hc. Qed.

Lemma node_done_mono v s s' x :
  sflips v s s' → node_done v s x → node_done v s' x.
Proof.
  intros [Fn Fp Fv Fe Ft] [Dn Dp Dt].
  split; intros k r Hr Hx; destruct (off_target v r) eqn:Hoff; try done;
    rewrite <- Hoff.
  - eapply Dn; [|done]. by eapply flips_off_eq.
  - eapply Dp; [|done]. by eapply flips_off_eq.
  - eapply Dt; [|done]. by eapply flips_off_eq.
Qed.

Lemma port_done_mono v s s' p :
  sflips v s s' → port_done v s p → port_done v s' p.
Proof.
  intros [Fn Fp Fv Fe Ft] [Dv De].
  split; intros k r Hr Hx; destruct (off_target v r) eqn:Hoff; try done;
    rewrite <- Hoff.
  - eapply Dv; [|done]. by eapply flips_off_eq.
  - eapply De; [|done]. by eapply flips_off_eq.
Qed.

Lemma pjustified_trans v roots s1 s2 s3 :
  sflips v s1 s2 → sflips v s2 s3 →
  pjustified roots s1 s2 → pjustified roots s2 s3 → pjustified roots s1 s3.
Proof.
  intros [Fn12 Fp12 Fv12 Fe12 Ft12] [Fn23 Fp23 Fv23 Fe23 Ft23] J12 J23. split.
  - by rewrite (pj_nodes _ _ _ J23), (pj_nodes _ _ _ J12).
  - by rewrite (pj_tags _ _ _ J23), (pj_tags _ _ _ J12).
  - intros k [Hc|Hc]%(chg_split v (ports s1) (ports s2));
      [by apply (pj_ports _ _ _ J12)|by apply (pj_ports _ _ _ J23)|done].
  - intros k [Hc|Hc]%(chg_split v _ (port_values s2)); [..|done].
    + destruct (pj_port_values _ _ _ J12 k Hc) as (r & p & Hr & Hp & Hcp).
      exists r, p. split_and!; [done..|]. by eapply chg_trans_l.
    + destruct (pj_port_values _ _ _ J23 k Hc) as (r & p & Hr & Hp & Hcp).
      exists r, p. split_and!; [|done|by eapply chg_trans_r].
      destruct (flips_chg v _ _ k Fv23 Hc) as (r' & Hr' & Hoff & _).
      rewrite Hr in Hr'. injection Hr' as <-. by eapply flips_off_eq.
  - intros k [Hc|Hc]%(chg_split v _ (edges s2)); [..|done].
    + destruct (pj_edges _ _ _ J12 k Hc) as (r & p & Hr & Hp & Hcp).
      exists r, p. split_and!; [done..|]. by eapply chg_trans_l.
    + destruct (pj_edges _ _ _ J23 k Hc) as (r & p & Hr & Hp & Hcp).
      exists r, p. split_and!; [|done|by eapply chg_trans_r].
      destruct (flips_chg v _ _ k Fe23 Hc) as (r' & Hr' & Hoff & _).
      rewrite Hr in Hr'. injection Hr' as <-. by eapply flips_off_eq.
Qed.

Lemma pcomplete_trans v s1 s2 s3 :
  sflips v s1 s2 → sflips v s2 s3 →
  pcomplete v s1 s2 → pcomplete v s2 s3 → pcomplete v s1 s3.
Proof.
  intros F12 F23 C12 C23 p [Hc|Hc]%(chg_split v _ (ports s2));
    [|by apply C23|apply F12].
  eapply port_done_mono; [done|by apply C12].
Qed.

Lemma pjustified_mono (roots roots' : string → Prop) s s' :
  (∀ k, roots k → roots' k) →
  pjustified roots s s' → pjustified roots' s s'.
Proof. intros Hsub []. split; auto. Qed.

Lemma off_target_deleted_at `{Deletable R} v (r : R) :
  deleted_at r = v → off_target v r = false.
Proof.
  intros <-. rewrite <- (set_deleted_at_id r) at 2. apply off_target_set.
Qed.

Lemma store_eta s :
  Store (nodes s) (ports s) (port_values s) (edges s) (tags s) = s.
Proof. by destruct s. Qed.

(** A row that already carries [v] is rewritten with what it holds. *)
Lemma update_port_row_same id v s :
  (∀ r, ports s !! id = Some r → deleted_at r = v) →
  update_port_row id v s = s.
Proof.
  intros Hv. rewrite update_port_row_eq.
  destruct (ports s !! id) as [old|] eqn:Hold; [|done].
  specialize (Hv old eq_refl). subst v.
  rewrite (off_target_deleted_at _ old eq_refl), set_deleted_at_id.
  unfold set_ports. rewrite insert_id by done. apply store_eta.
Qed.

Lemma update_port_row_flip id v s old :
  ports s !! id = Some old → off_target v old = true →
  sflips v s (update_port_row id v s) ∧
  pjustified (eq id) s (update_port_row id v s) ∧
  pcomplete v s (update_port_row id v s) ∧
  settled v (ports (update_port_row id v s)) id.
Proof.
  intros Hold Hoff. rewrite update_port_row_eq, Hold, Hoff. cbv zeta.
  assert (∀ k, chg (ports s) (<[id:=set_deleted_at v old]> (ports s)) k →
               id = k) as Honly.
  { intros k Hc. destruct (decide (id = k)) as [|Hne]; [done|].
    unfold chg in Hc. by rewrite lookup_insert_ne in Hc. }
  assert (chg (ports s) (<[id:=set_deleted_at v old]> (ports s)) id) as Hid.
  { eapply flips_chg_iff; [by apply flips_insert|].
    exists old. by rewrite lookup_insert_eq. }
  split_and!.
  - split; store_simpl; try apply flips_refl.
    + by apply flips_insert.
    + apply flips_update_where. by intros _ r [_ ?]%andb_prop.
    + apply flips_update_where. by intros _ r [_ ?]%andb_prop.
  - split; store_simpl; try done.
    + intros k Hc. unfold chg in Hc. rewrite lookup_update_where in Hc.
      destruct (port_values s !! k) as [r|] eqn:Hr; [|done]. simpl in Hc.
      destruct (bool_decide _) eqn:Hp; simpl in Hc; [|done].
      apply bool_decide_eq_true in Hp. eauto.
    + intros k Hc. unfold chg in Hc. rewrite lookup_update_where in Hc.
      destruct (edges s !! k) as [r|] eqn:Hr; [|done]. simpl in Hc.
      destruct (_ || _) eqn:Hp; simpl in Hc; [|done].
      exists r, id. split_and!; [done| |done].
      apply orb_prop in Hp as [Hp|Hp]; apply bool_decide_eq_true in Hp; auto.
  - intros p <-%Honly. split; store_simpl.
    + intros k r. rewrite lookup_update_where.
      destruct (port_values s !! k) as [r0|]; [|done]. simpl.
      intros [= <-] Hp. destruct (bool_decide _ && _) eqn:Hwh.
      * apply off_target_set.
      * rewrite bool_decide_eq_true_2 in Hwh; done.
    + intros k r. rewrite lookup_update_where.
      destruct (edges s !! k) as [r0|]; [|done]. simpl.
      intros [= <-] Hp. destruct (_ && _) eqn:Hwh.
      * apply off_target_set.
      * destruct Hp as [Hp|Hp]; rewrite (bool_decide_eq_true_2 _ Hp) in Hwh;
          [done|]. by rewrite orb_true_r in Hwh.
  - store_simpl. intros r. rewrite lookup_insert_eq. intros [= <-].
    apply off_target_set.
Qed.

Lemma update_port_row_post id v s :
  (∀ r, ports s !! id = Some r → off_target v r = true ∨ deleted_at r = v) →
  sflips v s (update_port_row id v s) ∧
  pjustified (eq id) s (update_port_row id v s) ∧
  pcomplete v s (update_port_row id v s) ∧
  settled v (ports (update_port_row id v s)) id.
Proof.
  intros Hpre. destruct (ports s !! id) as [old|] eqn:Hold.
  - destruct (Hpre old eq_refl) as [Hoff|Hv].
    + by apply (update_port_row_flip id v s old).
    + rewrite update_port_row_same by congruence.
      split_and!; auto using sflips_refl, pjustified_refl, pcomplete_refl.
      intros r Hr. apply off_target_deleted_at. congruence.
  - rewrite update_port_row_same by congruence.
    split_and!; auto using sflips_refl, pjustified_refl, pcomplete_refl.
    intros r Hr. congruence.
Qed.

Lemma update_ports_fold (roots : string → Prop) v l s :
  (∀ id, id ∈ l → roots id) →
  (∀ id r, id ∈ l → ports s !! id = Some r →
           off_target v r = true ∨ deleted_at r = v) →
  let s' := foldl (λ s id, update_port_row id v s) s l in
  sflips v s s' ∧ pjustified roots s s' ∧ pcomplete v s s' ∧
  ∀ id, id ∈ l → settled v (ports s') id.
Proof.
  revert s. induction l as [|id l IH]; intros s Hroots Hpre; simpl.
  - split_and!; auto using sflips_refl, pjustified_refl, pcomplete_refl.
    intros id Hin. by apply elem_of_nil in Hin.
  - destruct (update_port_row_post id v s) as (F1 & J1 & C1 & S1).
    { intros r. apply Hpre. left. }
    destruct (IH (update_port_row id v s)) as (F2 & J2 & C2 & S2).
    { intros id' Hin. apply Hroots. by right. }
    { intros id' r' Hin Hr'.
      destruct (flips_lookup_inv v _ _ _ _ (sf_ports _ _ _ F1) Hr')
        as (r & Hr & [->| ->]).
      - eapply Hpre; [by right|done].
      - right. apply deleted_at_set. }
    split_and!.
    + by eapply sflips_trans.
    + eapply pjustified_trans; [done..| |done].
      eapply pjustified_mono; [|done]. intros k <-. apply Hroots. left.
    + by eapply pcomplete_trans.
    + intros id' [->|Hin]%elem_of_cons; [|by apply S2].
      eapply flips_settled; [apply F2|done].
Qed.

Lemma update_port_at_Some depth id v s s' :
  update_port_at depth id v s = Some s' → s' = update_port_row id v s.
Proof.
  unfold update_port_at, update_port_row.
  destruct (ports s !! id), depth; congruence.
Qed.

Lemma update_port_at_total depth id v s :
  (0 < depth)%nat → is_Some (update_port_at depth id v s).
Proof.
  intros Hd. unfold update_port_at.
  destruct (ports s !! id), depth; try done. lia.
Qed.

(** A statement on [ports] that returns has updated its rows one by one. *)
Lemma update_ports_where_fold depth wh v s s' :
  update_ports_where depth wh v s = Some s' →
  s' = foldl (λ s id, update_port_row id v s) s (select_ids wh (ports s)).
Proof.
  unfold update_ports_where. generalize (select_ids wh (ports s)).
  intros l. revert s. induction l as [|id l IH]; intros s; simpl.
  - by intros [= <-].
  - destruct (update_port_at depth id v s) as [s1|] eqn:Hs1; [|done]. simpl.
    apply update_port_at_Some in Hs1 as ->. apply IH.
Qed.

(** One nesting level is all a statement on [ports] needs. *)
Lemma update_ports_where_total depth wh v s :
  (0 < depth)%nat → is_Some (update_ports_where depth wh v s).
Proof.
  intros Hd. unfold update_ports_where. generalize (select_ids wh (ports s)).
  intros l. revert s. induction l as [|id l IH]; intros s; simpl; [done|].
  destruct (update_port_at_total depth id v s Hd) as [s1 ->]. apply IH.
Qed.

(** [UPDATE ports SET deleted_at = v WHERE wh] with a WHERE clause that
    selects only rows off target, as every trigger body does. *)
Lemma update_ports_where_post depth v : prun_ok v (update_ports_where depth).
Proof.
  intros wh s s' Hwh ->%update_ports_where_fold.
  destruct (update_ports_fold
    (λ k, ∃ r, ports s !! k = Some r ∧ wh k r = true) v
    (select_ids wh (ports s)) s) as (F & J & C & S).
  - intros id Hin. by apply elem_of_select_ids in Hin.
  - intros id r (r' & Hr' & Hw)%elem_of_select_ids Hr. left.
    eapply Hwh. rewrite Hr in Hr'. injection Hr' as ->. done.
  - split_and!; [done..|]. intros k r Hr Hw. apply S.
    apply elem_of_select_ids. eauto.
Qed.

(** ** Statements on [nodes] *)

(** Both trigger families of [nodes] are one rule: when the row flips, its
    children, then its ports, then its tags that are still off target
    follow. *)
Lemma update_node_row_eq run runp id v s :
  update_node_row run runp id v s =
  match nodes s !! id with
  | None => Some s
  | Some old =>
      let s1 := set_nodes (insert id (set_deleted_at v old)) s in
      if off_target v old then
        s2 ← run (λ _ r, bool_decide (n_parent_id r = Some id)
                         && off_target v r) v s1;
        s3 ← runp (λ _ r, bool_decide (p_node_id r = Some id)
                          && off_target v r) v s2;
        Some (set_tags (update_where
                (λ k r, bool_decide (tk_node_id k = id) && off_target v r) v)
              s3)
      else Some s1
  end.
Proof.
  unfold update_node_row. destruct (nodes s !! id) as [old|]; [|done].
  unfold cascade_soft_delete_nodes_on_nodes_delete,
    cascade_soft_delete_ports_on_nodes_delete,
    cascade_soft_delete_tags_on_nodes_delete,
    cascade_restore_nodes_on_nodes_restore,
    cascade_restore_ports_on_nodes_restore,
    cascade_restore_tags_on_nodes_restore, when_delete, when_restore.
  rewrite deleted_at_set. unfold off_target at 1.
  by destruct v, (deleted_at old).
Qed.

Lemma creach_mono v s (roots roots' : string → Prop) k :
  (∀ k, roots k → roots' k) → creach v s roots k → creach v s roots' k.
Proof.
  intros Hsub. induction 1; [eapply creach_root|eapply creach_step]; eauto.
Qed.

(** What a later step walks into was already within reach at the start. *)
Lemma creach_earlier v s1 s2 (roots roots2 : string → Prop) k :
  flips v (nodes s1) (nodes s2) →
  (∀ k r, roots2 k → nodes s2 !! k = Some r → off_target v r = true →
          creach v s1 roots k) →
  creach v s2 roots2 k → creach v s1 roots k.
Proof.
  intros Hf Hroots. induction 1 as [k r Hk Hr Hoff|x k r _ IH Hr Hp Hoff].
  - by eapply Hroots.
  - eapply creach_step; [done| |done..]. by eapply flips_off_eq.
Qed.

Lemma creach_off v s roots k :
  creach v s roots k → ∃ r, nodes s !! k = Some r ∧ off_target v r = true.
Proof. destruct 1; eauto. Qed.

Lemma justified_trans v (roots roots2 : string → Prop) s1 s2 s3 :
  sflips v s1 s2 → sflips v s2 s3 →
  justified v roots s1 s2 → justified v roots2 s2 s3 →
  (∀ k r, roots2 k → nodes s2 !! k = Some r → off_target v r = true →
          creach v s1 roots k) →
  justified v roots s1 s3.
Proof.
  intros [Fn12 Fp12 Fv12 Fe12 Ft12] [Fn23 Fp23 Fv23 Fe23 Ft23] J12 J23 Hroots.
  split.
  - intros k [Hc|Hc]%(chg_split v _ (nodes s2)); [..|done].
    + by apply (j_nodes _ _ _ _ J12).
    + eapply creach_earlier; [done..|]. by apply (j_nodes _ _ _ _ J23).
  - intros k [Hc|Hc]%(chg_split v _ (ports s2)); [..|done].
    + destruct (j_ports _ _ _ _ J12 k Hc) as (r & x & Hr & Hx & Hcx).
      exists r, x. split_and!; [done..|]. by eapply chg_trans_l.
    + destruct (j_ports _ _ _ _ J23 k Hc) as (r & x & Hr & Hx & Hcx).
      exists r, x. split_and!; [|done|by eapply chg_trans_r].
      destruct (flips_chg v _ _ k Fp23 Hc) as (r' & Hr' & Hoff & _).
      rewrite Hr in Hr'. injection Hr' as <-. by eapply flips_off_eq.
  - intros k [Hc|Hc]%(chg_split v _ (port_values s2)); [..|done].
    + destruct (j_port_values _ _ _ _ J12 k Hc) as (r & p & Hr & Hp & Hcp).
      exists r, p. split_and!; [done..|]. by eapply chg_trans_l.
    + destruct (j_port_values _ _ _ _ J23 k Hc) as (r & p & Hr & Hp & Hcp).
      exists r, p. split_and!; [|done|by eapply chg_trans_r].
      destruct (flips_chg v _ _ k Fv23 Hc) as (r' & Hr' & Hoff & _).
      rewrite Hr in Hr'. injection Hr' as <-. by eapply flips_off_eq.
  - intros k [Hc|Hc]%(chg_split v _ (edges s2)); [..|done].
    + destruct (j_edges _ _ _ _ J12 k Hc) as (r & p & Hr & Hp & Hcp).
      exists r, p. split_and!; [done..|]. by eapply chg_trans_l.
    + destruct (j_edges _ _ _ _ J23 k Hc) as (r & p & Hr & Hp & Hcp).
      exists r, p. split_and!; [|done|by eapply chg_trans_r].
      destruct (flips_chg v _ _ k Fe23 Hc) as (r' & Hr' & Hoff & _).
      rewrite Hr in Hr'. injection Hr' as <-. by eapply flips_off_eq.
  - intros k [Hc|Hc]%(chg_split v _ (tags s2)); [..|done].
    + eapply chg_trans_l; [done..|]. by apply (j_tags _ _ _ _ J12).
    + eapply chg_trans_r; [done..|]. by apply (j_tags _ _ _ _ J23).
Qed.

Lemma complete_trans v s1 s2 s3 :
  sflips v s1 s2 → sflips v s2 s3 →
  complete v s1 s2 → complete v s2 s3 → complete v s1 s3.
Proof.
  intros F12 F23 [Cn12 Cp12] [Cn23 Cp23]. split;
    [|by eapply pcomplete_trans].
  intros x [Hc|Hc]%(chg_split v _ (nodes s2)); [|by apply Cn23|apply F12].
  eapply node_done_mono; [done|by apply Cn12].
Qed.

Lemma justified_refl v roots s : justified v roots s s.
Proof. split; intros k Hc; by destruct Hc. Qed.

Lemma complete_refl v s : complete v s s.
Proof. split; intros k Hc; by destruct Hc. Qed.

(** A statement on [ports] run for a node changed earlier keeps the
    account of changes in order. *)
Lemma justified_ports_step v (roots rp : string → Prop) s s2 s3 :
  sflips v s s2 → sflips v s2 s3 →
  justified v roots s s2 → pjustified rp s2 s3 →
  (∀ k r, rp k → ports s2 !! k = Some r →
     ∃ x, p_node_id r = Some x ∧ chg (nodes s) (nodes s2) x) →
  justified v roots s s3.
Proof.
  intros [Fn12 Fp12 Fv12 Fe12 Ft12] [Fn23 Fp23 Fv23 Fe23 Ft23] J12 J23 Hrp.
  pose proof (pj_nodes _ _ _ J23) as En. pose proof (pj_tags _ _ _ J23) as Et.
  split; rewrite ?En, ?Et.
  - apply J12.
  - intros k [Hc|Hc]%(chg_split v _ (ports s2)); [..|done].
    + by apply (j_ports _ _ _ _ J12).
    + destruct (flips_chg v _ _ k Fp23 Hc) as (r & Hr & Hoff & _).
      destruct (Hrp k r) as (x & Hx & Hcx); [by eapply pj_ports|done|].
      exists r, x. split_and!; [|done..]. by eapply flips_off_eq.
  - intros k [Hc|Hc]%(chg_split v _ (port_values s2)); [..|done].
    + destruct (j_port_values _ _ _ _ J12 k Hc) as (r & p & Hr & Hp & Hcp).
      exists r, p. split_and!; [done..|]. by eapply chg_trans_l.
    + destruct (pj_port_values _ _ _ J23 k Hc) as (r & p & Hr & Hp & Hcp).
      exists r, p. split_and!; [|done|by eapply chg_trans_r].
      destruct (flips_chg v _ _ k Fv23 Hc) as (r' & Hr' & Hoff & _).
      rewrite Hr in Hr'. injection Hr' as <-. by eapply flips_off_eq.
  - intros k [Hc|Hc]%(chg_split v _ (edges s2)); [..|done].
    + destruct (j_edges _ _ _ _ J12 k Hc) as (r & p & Hr & Hp & Hcp).
      exists r, p. split_and!; [done..|]. by eapply chg_trans_l.
    + destruct (pj_edges _ _ _ J23 k Hc) as (r & p & Hr & Hp & Hcp).
      exists r, p. split_and!; [|done|by eapply chg_trans_r].
      destruct (flips_chg v _ _ k Fe23 Hc) as (r' & Hr' & Hoff & _).
      rewrite Hr in Hr'. injection Hr' as <-. by eapply flips_off_eq.
  - apply J12.
Qed.

Lemma justified_tags_step v (roots : string → Prop) s s3
    (wh : tag_key → tag → bool) :
  sflips v s s3 → justified v roots s s3 →
  (∀ k r, wh k r = true → off_target v r = true) →
  (∀ k r, wh k r = true → chg (nodes s) (nodes s3) (tk_node_id k)) →
  justified v roots s (set_tags (update_where wh v) s3).
Proof.
  intros [Fn Fp Fv Fe Ft] J Hoff Hwh. split; store_simpl; try apply J.
  intros k [Hc|Hc]%(chg_split v _ (tags s3)); [..|done].
  - by apply (j_tags _ _ _ _ J).
  - unfold chg in Hc. rewrite lookup_update_where in Hc.
    destruct (tags s3 !! k) as [r|] eqn:Hr; [|done]. simpl in Hc.
    destruct (wh k r) eqn:Hk; [|done]. eauto.
Qed.

Lemma sflips_set_nodes_insert v s id old :
  nodes s !! id = Some old → off_target v old = true →
  sflips v s (set_nodes (insert id (set_deleted_at v old)) s).
Proof.
  intros Hold Hoff. split; store_simpl; try apply flips_refl.
  by apply flips_insert.
Qed.

Lemma sflips_set_tags v s (wh : tag_key → tag → bool) :
  (∀ k r, wh k r = true → off_target v r = true) →
  sflips v s (set_tags (update_where wh v) s).
Proof.
  intros Hwh. split; store_simpl; try apply flips_refl.
  by apply flips_update_where.
Qed.

Lemma chg_insert_iff `{Countable K} `{Deletable R} v (m : gmap K R) id old k :
  m !! id = Some old → off_target v old = true →
  chg m (<[id := set_deleted_at v old]> m) k ↔ id = k.
Proof.
  intros Hold Hoff. split.
  - intros Hc. destruct (decide (id = k)) as [|Hne]; [done|].
    unfold chg in Hc. by rewrite lookup_insert_ne in Hc.
  - intros <-. eapply flips_chg_iff; [by apply flips_insert|].
    exists old. by rewrite lookup_insert_eq.
Qed.

Lemma justified_set_nodes_insert v s id old :
  nodes s !! id = Some old → off_target v old = true →
  justified v (eq id) s (set_nodes (insert id (set_deleted_at v old)) s).
Proof.
  intros Hold Hoff. split; store_simpl; try (intros k Hc; by destruct Hc).
  intros k <-%(chg_insert_iff v); [|done..]. by eapply creach_root.
Qed.

Lemma update_node_row_same run runp id v s :
  (∀ r, nodes s !! id = Some r → deleted_at r = v) →
  update_node_row run runp id v s = Some s.
Proof.
  intros Hv. rewrite update_node_row_eq.
  destruct (nodes s !! id) as [old|] eqn:Hold; [|done].
  specialize (Hv old eq_refl). subst v.
  rewrite (off_target_deleted_at _ old eq_refl), set_deleted_at_id.
  unfold set_nodes. rewrite insert_id by done. by rewrite store_eta.
Qed.

Lemma update_node_row_flip run runp v id s s' old :
  run_ok v run → prun_ok v runp →
  nodes s !! id = Some old → off_target v old = true →
  update_node_row run runp id v s = Some s' → row_post v id s s'.
Proof.
  intros Hrun Hrunp Hold Hoff. rewrite update_node_row_eq, Hold, Hoff.
  cbv zeta.
  set (s1 := set_nodes (insert id (set_deleted_at v old)) s).
  destruct (run _ v s1) as [s2|] eqn:Hr2; [|done]. simpl.
  destruct (runp _ v s2) as [s3|] eqn:Hr3; [|done]. simpl. intros [= <-].
  apply Hrun in Hr2 as (F12 & J12 & C12 & S12);
    [|by intros _ r [_ ?]%andb_prop].
  apply Hrunp in Hr3 as (F23 & J23 & C23 & S23);
    [|by intros _ r [_ ?]%andb_prop].
  set (wt := λ (k : tag_key) (r : tag),
               bool_decide (tk_node_id k = id) && off_target v r).
  assert (sflips v s s1) as F01 by by apply sflips_set_nodes_insert.
  assert (sflips v s3 (set_tags (update_where wt v) s3)) as F34.
  { apply sflips_set_tags. by intros k r [_ ?]%andb_prop. }
  assert (sflips v s s2) as F02 by by eapply sflips_trans.
  assert (sflips v s s3) as F03 by by eapply sflips_trans.
  assert (sflips v s2 (set_tags (update_where wt v) s3)) as F24
    by by eapply sflips_trans.
  pose proof (pj_nodes _ _ _ J23) as En.
  assert (chg (nodes s) (nodes s1) id) as Hc01.
  { subst s1. store_simpl. by apply (chg_insert_iff v). }
  assert (chg (nodes s) (nodes s2) id) as Hc02.
  { eapply chg_trans_l; [apply F01|apply F12|done]. }
  assert (justified v (eq id) s s2) as J02.
  { eapply (justified_trans v _ _ s s1 s2); [done|done| |apply J12|].
    - by apply justified_set_nodes_insert.
    - intros k r (r' & Hr' & [Hp%bool_decide_eq_true _]%andb_prop) Hr Ho.
      rewrite Hr in Hr'. injection Hr' as <-.
      eapply creach_step; [by eapply creach_root| |done..].
      eapply flips_off_eq; [apply F01|done..]. }
  split_and!.
  - by eapply sflips_trans.
  - apply justified_tags_step; [done| |by intros k r [_ ?]%andb_prop|].
    + eapply (justified_ports_step v _ _ s s2 s3); [done|done|done|apply J23|].
      intros k r (r' & Hr' & [Hp%bool_decide_eq_true _]%andb_prop) Hr.
      rewrite Hr in Hr'. injection Hr' as <-. eauto.
    + intros k r [->%bool_decide_eq_true _]%andb_prop. by rewrite En.
  - split.
    + store_simpl. rewrite En.
      intros x [Hc|Hc]%(chg_split v _ (nodes s1)); [..|apply F01].
      * apply (chg_insert_iff v) in Hc as <-; [|done..].
        split; store_simpl; rewrite ?En.
        -- intros k r Hr Hp. destruct (off_target v r) eqn:Ho; [|done].
           rewrite <- Ho. eapply (S12 k r);
             [|by rewrite Hp, Ho, bool_decide_eq_true_2|done].
           eapply flips_off_eq; [apply F12|done..].
        -- intros k r Hr Hp. destruct (off_target v r) eqn:Ho; [|done].
           rewrite <- Ho. eapply (S23 k r);
             [|by rewrite Hp, Ho, bool_decide_eq_true_2|done].
           eapply flips_off_eq; [apply F23|done..].
        -- intros k r. rewrite lookup_update_where.
           destruct (tags s3 !! k) as [r0|]; [|done]. simpl.
           intros [= <-] Hk. subst wt. simpl.
           rewrite bool_decide_eq_true_2 by done. simpl.
           destruct (off_target v r0) eqn:Ho; [apply off_target_set|done].
      * eapply node_done_mono; [apply F24|]. by apply C12.
    + intros p. store_simpl.
      replace (ports s) with (ports s1) by done.
      intros [Hc|Hc]%(chg_split v _ (ports s2)); [..|apply F12].
      * eapply port_done_mono; [apply F24|]. by apply C12.
      * eapply port_done_mono; [apply F34|]. by apply C23.
  - store_simpl. rewrite En. eapply flips_settled; [apply F12|].
    subst s1. store_simpl. intros r. rewrite lookup_insert_eq.
    intros [= <-]. apply off_target_set.
Qed.

Lemma justified_mono v (roots roots' : string → Prop) s s' :
  (∀ k, roots k → roots' k) →
  justified v roots s s' → justified v roots' s s'.
Proof.
  intros Hsub [Jn Jp Jv Je Jt]. split; try done.
  intros k Hc. eapply creach_mono; eauto.
Qed.

Lemma update_node_row_post run runp v id s s' :
  run_ok v run → prun_ok v runp → row_pre v id s →
  update_node_row run runp id v s = Some s' → row_post v id s s'.
Proof.
  intros Hrun Hrunp Hpre Hs'. destruct (nodes s !! id) as [old|] eqn:Hold.
  - destruct (Hpre old Hold) as [Hoff|Hv].
    + by eapply update_node_row_flip.
    + rewrite update_node_row_same in Hs' by congruence. injection Hs' as <-.
      split_and!; auto using sflips_refl, justified_refl, complete_refl.
      intros r Hr. apply off_target_deleted_at. congruence.
  - rewrite update_node_row_same in Hs' by congruence. injection Hs' as <-.
    split_and!; auto using sflips_refl, justified_refl, complete_refl.
    intros r Hr. congruence.
Qed.

Lemma for_each_row_post step v (roots : string → Prop) l s s' :
  (∀ id s s', row_pre v id s → step id s = Some s' → row_post v id s s') →
  (∀ id, id ∈ l → roots id) →
  (∀ id, id ∈ l → row_pre v id s) →
  for_each_row step l s = Some s' →
  sflips v s s' ∧ justified v roots s s' ∧ complete v s s' ∧
  ∀ id, id ∈ l → settled v (nodes s') id.
Proof.
  intros Hstep. revert s.
  induction l as [|id l IH]; intros s Hroots Hpre; simpl.
  - intros [= <-].
    split_and!; auto using sflips_refl, justified_refl, complete_refl.
    intros id Hin. by apply elem_of_nil in Hin.
  - destruct (step id s) as [s1|] eqn:Hs1; [|done]. simpl.
    intros Hs'.
    apply Hstep in Hs1 as (F1 & J1 & C1 & S1); [|apply Hpre; left].
    apply IH in Hs' as (F2 & J2 & C2 & S2).
    + split_and!.
      * by eapply sflips_trans.
      * eapply (justified_trans v _ _ s s1 s'); [done|done| |apply J2|].
        -- eapply justified_mono; [|done]. intros k <-. apply Hroots. left.
        -- intros k r Hk Hr Hoff. eapply creach_root; [done| |done].
           eapply flips_off_eq; [apply F1|done..].
      * by eapply complete_trans.
      * intros id' [->|Hin]%elem_of_cons; [|by apply S2].
        eapply flips_settled; [apply F2|done].
    + intros id' Hin. apply Hroots. by right.
    + intros id' Hin r' Hr'.
      destruct (flips_lookup_inv v _ _ _ _ (sf_nodes _ _ _ F1) Hr')
        as (r & Hr & [->| ->]).
      * eapply Hpre; [by right|done].
      * right. apply deleted_at_set.
Qed.

Lemma row_post_refl v id s : settled v (nodes s) id → row_post v id s s.
Proof.
  intros Hs.
  split_and!; auto using sflips_refl, justified_refl, complete_refl.
Qed.

(** A statement on [nodes] whose rows do what a row does. *)
Lemma nodes_stmt_post step v wh s s' :
  (∀ id s s', row_pre v id s → step id s = Some s' → row_post v id s s') →
  (∀ k r, wh k r = true → off_target v r = true) →
  for_each_row step (select_ids wh (nodes s)) s = Some s' →
  stmt_post v wh s s'.
Proof.
  intros Hstep Hwh Hs'.
  eapply (for_each_row_post _ v
    (λ k, ∃ r, nodes s !! k = Some r ∧ wh k r = true)) in Hs'
    as (F & J & C & S); [|done| |].
  - split_and!; [done..|]. intros k r Hr Hk. apply S.
    apply elem_of_select_ids. eauto.
  - intros id Hin. by apply elem_of_select_ids in Hin.
  - intros id (r' & Hr' & Hw)%elem_of_select_ids r Hr. left.
    eapply Hwh. rewrite Hr in Hr'. injection Hr' as ->. done.
Qed.

(** With a level left, a row runs its triggers one level down. *)
Lemma update_node_at_S d id v s :
  update_node_at (S d) id v s =
  update_node_row (update_nodes_where d) (update_ports_where d) id v s.
Proof.
  simpl. unfold update_node_row. by destruct (nodes s !! id).
Qed.

(** One row of a statement on [nodes], at any nesting depth. *)
Lemma update_node_at_post d v id s s' :
  row_pre v id s → update_node_at d id v s = Some s' → row_post v id s s'.
Proof.
  revert id s s'. induction d as [|d IH]; intros id s s' Hpre.
  - simpl. destruct (nodes s !! id) as [old|] eqn:Hold; [done|].
    intros [= <-]. apply row_post_refl. intros r. congruence.
  - rewrite update_node_at_S. apply update_node_row_post; [| |done].
    + intros wh s0 s0' Hwh. by apply nodes_stmt_post.
    + apply update_ports_where_post.
Qed.

(** The statement a trigger issues on [nodes], at any nesting depth. *)
Lemma update_nodes_where_ok d v : run_ok v (update_nodes_where d).
Proof.
  intros wh s s' Hwh. apply nodes_stmt_post; [|done].
  intros id s0 s0'. apply update_node_at_post.
Qed.

(** *** Enough nesting depth gives a result *)

Lemma child_closed_flips v (W : string → Prop) s s' :
  flips v (nodes s) (nodes s') → child_closed W s → child_closed W s'.
Proof.
  intros Hf Hcl k r' x Hr' Hp.
  destruct (flips_lookup_inv v _ _ _ _ Hf Hr') as (r & Hr & [->| ->]);
    eapply Hcl; eauto.
Qed.

Lemma off_within_flips v (D : gset string) s s' :
  flips v (nodes s) (nodes s') →
  (size (off_keys v (nodes s') ∩ D) ≤ size (off_keys v (nodes s) ∩ D))%nat.
Proof.
  intros Hf. apply subseteq_size.
  intros k [Hk HD]%elem_of_intersection. apply elem_of_intersection.
  split; [|done]. by apply (off_keys_flips v _ _ Hf).
Qed.

(** The rows of a statement get through when each of them does: [W] holds
    the nodes the cascade can walk into, [D] bounds them, and the rows of
    [D] that are still off target are fewer than the levels left. *)
Lemma for_each_row_total step v (W : string → Prop) (D : gset string)
    l s (d : nat) :
  (∀ id s s', row_pre v id s → step id s = Some s' → row_post v id s s') →
  (∀ id s, W id → child_closed W s → row_pre v id s →
           (size (off_keys v (nodes s) ∩ D) < d)%nat → is_Some (step id s)) →
  child_closed W s → (∀ id, id ∈ l → W id) →
  (∀ id, id ∈ l → row_pre v id s) →
  (size (off_keys v (nodes s) ∩ D) < d)%nat →
  is_Some (for_each_row step l s).
Proof.
  intros Hpost Htot. revert s.
  induction l as [|id l IH]; intros s Hcl HW Hpre Hsz; simpl; [done|].
  destruct (Htot id s) as [s1 Hs1]; [apply HW; left|done|apply Hpre; left|
                                      done|].
  rewrite Hs1. simpl.
  pose proof Hs1 as (F1 & _)%Hpost; [|apply Hpre; left].
  apply IH.
  - eapply child_closed_flips; [apply F1|done].
  - intros id' Hin. apply HW. by right.
  - intros id' Hin r' Hr'.
    destruct (flips_lookup_inv v _ _ _ _ (sf_nodes _ _ _ F1) Hr')
      as (r & Hr & [->| ->]).
    + eapply Hpre; [by right|done].
    + right. apply deleted_at_set.
  - pose proof (off_within_flips v D _ _ (sf_nodes _ _ _ F1)). lia.
Qed.

(** A row that is off target takes a level for itself and one more for
    its ports; every node the cascade walks into after it is one more row
    of [D] off target. *)
Lemma update_node_at_total d v (W : string → Prop) (D : gset string) id s :
  (∀ k, W k → k ∈ D) →
  W id → child_closed W s → row_pre v id s →
  (size (off_keys v (nodes s) ∩ D) < d)%nat →
  is_Some (update_node_at d id v s).
Proof.
  intros HD. revert id s.
  induction d as [|d IH]; intros id s HW Hcl Hpre Hsz; [lia|].
  rewrite update_node_at_S.
  destruct (nodes s !! id) as [old|] eqn:Hold.
  2: { rewrite update_node_row_same; [done|]. congruence. }
  destruct (Hpre old Hold) as [Hoff|Hv].
  2: { rewrite update_node_row_same; [done|]. congruence. }
  rewrite update_node_row_eq, Hold, Hoff. cbv zeta.
  set (s1 := set_nodes (insert id (set_deleted_at v old)) s).
  assert (flips v (nodes s) (nodes s1)) as F01.
  { subst s1. store_simpl. by apply flips_insert. }
  assert (size (off_keys v (nodes s1) ∩ D) < d)%nat as Hsz1.
  { assert (off_keys v (nodes s1) ∩ D ⊂ off_keys v (nodes s) ∩ D) as Hsub.
    { pose proof (off_keys_insert v _ _ _ Hold Hoff) as [Hsub Hne].
      subst s1. revert Hsub Hne. store_simpl. intros Hsub Hne.
      assert (id ∈ off_keys v (nodes s)) as Hin
        by (apply elem_of_off_keys; eauto).
      assert (id ∉ off_keys v (<[id:=set_deleted_at v old]> (nodes s)))
        as Hnin.
      { rewrite elem_of_off_keys, lookup_insert_eq.
        intros (r & [= <-] & Hr). by rewrite off_target_set in Hr. }
      assert (id ∈ D) as HinD by by apply HD.
      split.
      - intros k [Hk HkD]%elem_of_intersection. apply elem_of_intersection.
        split; [by apply Hsub|done].
      - intros Hsup. apply Hnin.
        assert (id ∈ off_keys v (nodes s) ∩ D) as Hboth
          by by apply elem_of_intersection.
        by apply Hsup, elem_of_intersection in Hboth as [? _]. }
    apply subset_size in Hsub. lia. }
  assert (child_closed W s1) as Hcl1 by by eapply child_closed_flips.
  set (wh := λ (_ : string) (r : node),
               bool_decide (n_parent_id r = Some id) && off_target v r).
  assert (is_Some (update_nodes_where d wh v s1)) as [s2 Hs2].
  { apply (for_each_row_total _ v W D _ _ d); [| |done| | |done].
    - intros id' s0 s0'. apply update_node_at_post.
    - intros id' s0 HW' Hcl' Hpre' Hsz'. by apply IH.
    - intros id' (r & Hr & [Hp%bool_decide_eq_true _]%andb_prop)
        %elem_of_select_ids. by eapply Hcl1.
    - intros id' (r & Hr & [_ Ho]%andb_prop)%elem_of_select_ids r' Hr'.
      left. congruence. }
  fold wh. rewrite Hs2. simpl.
  destruct (update_ports_where_total d
    (λ _ r, bool_decide (p_node_id r = Some id) && off_target v r) v s2)
    as [s3 ->]; [lia|done].
Qed.

Lemma off_keys_size `{Countable K} `{Deletable R} v (m : gmap K R) :
  (size (off_keys v m) ≤ size m)%nat.
Proof.
  rewrite <- (size_dom m). apply subseteq_size. unfold off_keys.
  apply subseteq_dom, map_filter_subseteq.
Qed.

(** ** SetAlive *)

Lemma off_target_target_value `{Deletable R} target ts (r : R) :
  off_target (target_value target ts) r = negb (eqb (alive r) target).
Proof. rewrite off_target_alive. by destruct target. Qed.

Lemma settled_target `{Countable K} `{Deletable R}
    target ts (m : gmap K R) k r :
  settled (target_value target ts) m k → m !! k = Some r → alive r = target.
Proof.
  intros Hs Hr. rewrite (settled_alive _ _ _ _ Hs Hr). by destruct target.
Qed.

Lemma off_target_false_alive `{Deletable R} target ts (r : R) :
  off_target (target_value target ts) r = false → alive r = target.
Proof.
  rewrite off_target_target_value. by destruct (alive r), target.
Qed.

Lemma off_target_true_alive `{Deletable R} target ts (r : R) :
  off_target (target_value target ts) r = true ↔ alive r ≠ target.
Proof.
  rewrite off_target_target_value. by destruct (alive r), target.
Qed.

Lemma SetAlive_missing limit n target ts s :
  nodes s !! n = None → SetAlive limit n target ts s = Some s.
Proof. intros Hn. unfold SetAlive. destruct limit; simpl; by rewrite Hn. Qed.

(** On a node already at target the triggers are entered, which takes one
    nesting level, and their WHEN clauses stop them. *)
Lemma SetAlive_settled limit n target ts s old :
  (0 < limit)%nat → nodes s !! n = Some old → alive old = target →
  SetAlive limit n target ts s =
  Some (set_nodes (insert n (set_deleted_at (target_value target ts) old)) s).
Proof.
  intros Hl Hn Ha. unfold SetAlive. destruct limit as [|d]; [lia|].
  rewrite update_node_at_S, update_node_row_eq, Hn.
  destruct (off_target _ old) eqn:Hoff; [|done].
  by apply off_target_true_alive in Hoff.
Qed.

Lemma SetAlive_positive limit n target ts s :
  is_Some (nodes s !! n) → is_Some (SetAlive limit n target ts s) →
  (0 < limit)%nat.
Proof.
  intros [old Hn] [s' Hs']. destruct limit; [|lia].
  unfold SetAlive in Hs'. simpl in Hs'. by rewrite Hn in Hs'.
Qed.

Lemma SetAlive_settled_inv limit n target ts s s' old :
  nodes s !! n = Some old → alive old = target →
  SetAlive limit n target ts s = Some s' →
  s' = set_nodes (insert n (set_deleted_at (target_value target ts) old)) s.
Proof.
  intros Hn Ha Hs'.
  assert (0 < limit)%nat as Hl by (eapply SetAlive_positive; eauto).
  rewrite (SetAlive_settled _ _ _ _ _ old) in Hs' by done. congruence.
Qed.

Lemma SetAlive_flip limit n target ts s s' old :
  nodes s !! n = Some old → alive old ≠ target →
  SetAlive limit n target ts s = Some s' →
  row_post (target_value target ts) n s s'.
Proof.
  intros Hn Ha Hs'. eapply update_node_at_post; [|done].
  intros r. rewrite Hn. intros [= <-]. left. by apply off_target_true_alive.
Qed.

(** A SetAlive returns when the nodes it can walk into, all within [D],
    are fewer than the nesting limit. *)
Lemma SetAlive_total_within limit n target ts s (D : gset string) :
  (∀ k r, nodes s !! k = Some r → in_subtree s n k → k ∈ D) →
  (size D < limit)%nat → is_Some (SetAlive limit n target ts s).
Proof.
  intros HD Hsz. destruct (nodes s !! n) as [old|] eqn:Hn.
  2: { by rewrite SetAlive_missing. }
  destruct (decide (alive old = target)) as [Ha|Ha].
  { rewrite (SetAlive_settled _ _ _ _ _ old); [done|lia|done..]. }
  apply (update_node_at_total _ _
    (λ k, is_Some (nodes s !! k) ∧ in_subtree s n k) D).
  - intros k [[r Hr] Hk]. eauto.
  - split; [by eexists|apply rtc_refl].
  - intros k r x Hr Hp [_ Hx]. split; [by eexists|].
    eapply rtc_l; [|done]. by exists r.
  - intros r. rewrite Hn. intros [= <-]. left.
    by apply off_target_true_alive.
  - assert (size (off_keys (target_value target ts) (nodes s) ∩ D) ≤ size D)%nat
      as Hle; [|lia].
    apply subseteq_size. by intros k [_ ?]%elem_of_intersection.
Qed.

(** A nesting limit above the number of nodes is always enough: the
    deepest node of a chain takes as many levels as the chain has nodes,
    and its ports take one more. *)
Lemma SetAlive_total limit n target ts s :
  (size (nodes s) < limit)%nat → is_Some (SetAlive limit n target ts s).
Proof.
  intros Hsz. apply (SetAlive_total_within _ _ _ _ _ (dom (nodes s))).
  - intros k r Hr _. apply elem_of_dom. by eexists.
  - by rewrite size_dom.
Qed.

(** In [family] the chain A, B, C has three nodes and C has ports: the
    soft delete of A enters the triggers of A, of B, of C and of the ports
    of C, four levels in all.  Three are not enough. *)
Example family_delete_needs_four_levels :
  SetAlive 3 "A" false 7 family = None ∧
  is_Some (SetAlive 4 "A" false 7 family) ∧
  SetAlive 0 "X" true 7 family = None ∧
  SetAlive 0 "nowhere" true 7 family = Some family.
Proof.
  split_and!; [by vm_compute| |by vm_compute..]. vm_compute. by eexists.
Qed.

Lemma flips_off_settled_chg `{Countable K} `{Deletable R}
    v (m m' : gmap K R) k r :
  flips v m m' → m !! k = Some r → off_target v r = true →
  settled v m' k → chg m m' k.
Proof.
  intros Hf Hr Hoff Hs. apply (flips_chg_iff v); [done|].
  exists r. split_and!; [done..|].
  destruct (Hf k) as [Heq|(r' & Hr' & _ & ->)]; [|congruence].
  rewrite Hr in Heq. apply Hs in Heq. congruence.
Qed.

(** The nodes a cascade changes are exactly the nodes it walks into. *)
Lemma row_post_walked v n s s' k :
  row_post v n s s' → creach v s (eq n) k ↔ chg (nodes s) (nodes s') k.
Proof.
  intros (F & J & [Cn Cp] & S). split; [|apply J].
  induction 1 as [k r <- Hr Hoff|x k r _ IH Hr Hp Hoff].
  - eapply flips_off_settled_chg; [apply F|done..].
  - eapply flips_off_settled_chg; [apply F|done..|].
    intros r' Hr'. destruct (off_target v r') eqn:Hoff'; [|done].
    assert (nodes s !! k = Some r') as Hr0
      by (eapply flips_off_eq; [apply F|done..]).
    rewrite Hr in Hr0. injection Hr0 as <-.
    rewrite <- Hoff'. by eapply (nd_nodes _ _ _ (Cn x IH)).
Qed.

(** *** What the cascade leaves untouched *)

Lemma flips_same_rows `{Countable K} `{Deletable R} v (m m' : gmap K R) :
  flips v m m' → same_rows m m'.
Proof.
  intros Hf k. destruct (Hf k) as [->|(r & -> & _ & ->)]; [done|]. simpl.
  by rewrite set_deleted_at_set.
Qed.

Lemma same_rows_refl `{Countable K} `{Deletable R} (m : gmap K R) :
  same_rows m m.
Proof. done. Qed.

Lemma same_rows_trans `{Countable K} `{Deletable R} (m1 m2 m3 : gmap K R) :
  same_rows m1 m2 → same_rows m2 m3 → same_rows m1 m3.
Proof. intros H12 H23 k. by rewrite H23. Qed.

Lemma same_rows_insert `{Countable K} `{Deletable R} v (m : gmap K R) k r :
  m !! k = Some r → same_rows m (<[k := set_deleted_at v r]> m).
Proof.
  intros Hr k'. destruct (decide (k = k')) as [<-|Hne].
  - rewrite lookup_insert_eq, Hr. simpl. by rewrite set_deleted_at_set.
  - by rewrite lookup_insert_ne.
Qed.

Lemma same_rows_lookup `{Countable K} `{Deletable R} (m m' : gmap K R) k r' :
  same_rows m m' → m' !! k = Some r' →
  ∃ r, m !! k = Some r ∧ set_deleted_at None r = set_deleted_at None r'.
Proof.
  intros Hs Hr'. specialize (Hs k). rewrite Hr' in Hs.
  destruct (m !! k) as [r|]; [|done]. exists r. split; [done|].
  simpl in Hs. congruence.
Qed.

Lemma same_rows_sym `{Countable K} `{Deletable R} (m m' : gmap K R) :
  same_rows m m' → same_rows m' m.
Proof. intros Hs k. by rewrite Hs. Qed.

Lemma n_parent_id_erase r r' :
  set_deleted_at None r = set_deleted_at None r' →
  n_parent_id r = n_parent_id r'.
Proof. destruct r, r'. by intros [= ]. Qed.

Lemma p_node_id_erase (r r' : port) :
  set_deleted_at None r = set_deleted_at None r' →
  p_node_id r = p_node_id r'.
Proof. destruct r, r'. by intros [= ]. Qed.

Lemma v_port_id_erase (r r' : port_value) :
  set_deleted_at None r = set_deleted_at None r' →
  v_port_id r = v_port_id r'.
Proof. destruct r, r'. by intros [= ]. Qed.

Lemma e_ports_erase (r r' : edge) :
  set_deleted_at None r = set_deleted_at None r' →
  e_from_port_id r = e_from_port_id r' ∧ e_to_port_id r = e_to_port_id r'.
Proof. destruct r, r'. by intros [= ]. Qed.

Lemma parent_of_same_rows s s' k x :
  same_rows (nodes s) (nodes s') → parent_of s' k x → parent_of s k x.
Proof.
  intros Hs (r' & Hr' & Hp).
  destruct (same_rows_lookup _ _ _ _ Hs Hr') as (r & Hr & He).
  exists r. split; [done|]. by rewrite (n_parent_id_erase _ _ He).
Qed.

Lemma in_subtree_same_rows s s' n k :
  same_rows (nodes s) (nodes s') → in_subtree s' n k → in_subtree s n k.
Proof.
  intros Hs. unfold in_subtree. induction 1 as [|k x n Hp _ IH]; [done|].
  eapply rtc_l; [|done]. by eapply parent_of_same_rows.
Qed.

Lemma creach_in_subtree v s n k : creach v s (eq n) k → in_subtree s n k.
Proof.
  unfold in_subtree. induction 1 as [k r <- _ _|x k r _ IH Hr Hp _]; [done|].
  eapply rtc_l; [|done]. by exists r.
Qed.

(** A soft delete or restore leaves every column but [deleted_at] alone. *)
Lemma SetAlive_same_rows limit n target ts s s' :
  SetAlive limit n target ts s = Some s' →
  same_rows (nodes s) (nodes s') ∧ same_rows (ports s) (ports s') ∧
  same_rows (port_values s) (port_values s') ∧
  same_rows (edges s) (edges s') ∧ same_rows (tags s) (tags s').
Proof.
  intros Hs'. destruct (nodes s !! n) as [old|] eqn:Hn.
  - destruct (decide (alive old = target)) as [Ha|Ha].
    + apply (SetAlive_settled_inv _ _ _ _ _ _ old) in Hs' as ->; [|done..].
      store_simpl. split_and!; try done.
      by apply same_rows_insert.
    + eapply SetAlive_flip in Hs' as ([Fn Fp Fv Fe Ft] & _); [|done..].
      split_and!; by eapply flips_same_rows.
  - rewrite SetAlive_missing in Hs' by done. by injection Hs' as <-.
Qed.

(** *** What the cascade reaches *)

(** A node the cascade walks into ends up settled with its children, ports
    and tags, and so does every port of it that was off target, with its
    values and incident edges. *)
Lemma row_post_reaches v n s s' k :
  row_post v n s s' → creach v s (eq n) k →
  chg (nodes s) (nodes s') k ∧ settled v (nodes s') k ∧ node_done v s' k ∧
  ∀ p pr, ports s !! p = Some pr → p_node_id pr = Some k →
    off_target v pr = true →
    chg (ports s) (ports s') p ∧ port_done v s' p.
Proof.
  intros Hpost Hk. pose proof Hpost as (F & J & [Cn Cp] & S).
  apply (row_post_walked _ _ _ _ _ Hpost) in Hk.
  destruct (flips_chg v _ _ k (sf_nodes _ _ _ F) Hk) as (r & Hr & Hoff & Hr').
  split_and!; [done| |by apply Cn|].
  - intros r0. rewrite Hr'. intros [= <-]. apply off_target_set.
  - intros p pr Hp Hown Hpoff.
    assert (chg (ports s) (ports s') p) as Hcp; [|split; [done|by apply Cp]].
    eapply flips_off_settled_chg; [apply F|done..|].
    intros pr' Hpr'. destruct (off_target v pr') eqn:Hoff'; [|done].
    assert (ports s !! p = Some pr') as Hp0
      by (eapply flips_off_eq; [apply F|done..]).
    rewrite Hp in Hp0. injection Hp0 as <-.
    rewrite <- Hoff'. by eapply (nd_ports _ _ _ (Cn k Hk)).
Qed.

(** The rows a cascade flips, exactly. *)
Lemma row_post_exact v n s s' :
  row_post v n s s' → changes_exactly v n s s'.
Proof.
  intros Hpost. unfold changes_exactly.
  pose proof Hpost as ([Fn Fp Fv Fe Ft] & J & [Cn Cp] & S).
  assert (∀ k, chg (nodes s) (nodes s') k ↔ creach v s (eq n) k) as Hn.
  { intros k. symmetry. by apply row_post_walked. }
  split_and!; [done| | | |].
  - intros p. split.
    + intros Hc. destruct (j_ports _ _ _ _ J p Hc) as (r & x & Hr & Hx & Hcx).
      destruct (flips_chg _ _ _ _ Fp Hc) as (r0 & Hr0 & Hoff & _).
      rewrite Hr in Hr0. injection Hr0 as <-.
      exists r, x. split_and!; [done..|]. by apply Hn.
    + intros (r & x & Hr & Hoff & Hx & Hcx).
      by destruct (row_post_reaches _ _ _ _ _ Hpost Hcx)
        as (_ & _ & _ & Hp), (Hp p r Hr Hx Hoff).
  - intros x. split.
    + intros Hc.
      destruct (j_port_values _ _ _ _ J x Hc) as (r & p & Hr & Hp & Hcp).
      destruct (flips_chg _ _ _ _ Fv Hc) as (r0 & Hr0 & Hoff & _).
      rewrite Hr in Hr0. injection Hr0 as <-. by exists r, p.
    + intros (r & p & Hr & Hoff & Hp & Hcp).
      eapply flips_off_settled_chg; [exact Fv|done..|].
      intros r' Hr'. eapply (pd_port_values _ _ _ (Cp p Hcp)); [done|].
      destruct (flips_lookup_inv _ _ _ _ _ Fv Hr') as (r0 & Hr0 & [->| ->]);
        rewrite Hr in Hr0; injection Hr0 as <-; [done|].
      by destruct r.
  - intros e. split.
    + intros Hc.
      destruct (j_edges _ _ _ _ J e Hc) as (r & p & Hr & Hp & Hcp).
      destruct (flips_chg _ _ _ _ Fe Hc) as (r0 & Hr0 & Hoff & _).
      rewrite Hr in Hr0. injection Hr0 as <-. by exists r, p.
    + intros (r & p & Hr & Hoff & Hp & Hcp).
      eapply flips_off_settled_chg; [exact Fe|done..|].
      intros r' Hr'. eapply (pd_edges _ _ _ (Cp p Hcp)); [done|].
      destruct (flips_lookup_inv _ _ _ _ _ Fe Hr') as (r0 & Hr0 & [->| ->]);
        rewrite Hr in Hr0; injection Hr0 as <-; [done|].
      by destruct r.
  - intros t. split.
    + intros Hc. pose proof (j_tags _ _ _ _ J t Hc) as Hcn.
      destruct (flips_chg _ _ _ _ Ft Hc) as (r & Hr & Hoff & _).
      exists r. split_and!; [done..|]. by apply Hn.
    + intros (r & Hr & Hoff & Hcn%Hn).
      eapply flips_off_settled_chg; [exact Ft|done..|].
      intros r' Hr'. by eapply (nd_tags _ _ _ (Cn _ Hcn)).
Qed.

(** A node the cascade walks into is reached from [n] through off-target
    nodes only: every node between the two is walked into as well. *)
Lemma creach_through v s n m k :
  creach v s (eq n) k → in_subtree s m k →
  creach v s (eq n) m ∨ in_subtree s m n.
Proof.
  intros Hk Hm. unfold in_subtree in *. revert Hk.
  induction Hm as [k|k x m (r & Hr & Hp) Hxm IH]; intros Hk; [by left|].
  inversion Hk as [k' r' <- Hr' Hoff|x' k' r' Hx' Hr' Hp' Hoff]; subst.
  - right. eapply rtc_l; [|done]. by exists r.
  - apply IH. rewrite Hr in Hr'. injection Hr' as <-. congruence.
Qed.

Lemma flips_not_chg `{Countable K} `{Deletable R} v (m m' : gmap K R) k :
  flips v m m' → ¬ chg m m' k → m' !! k = m !! k.
Proof.
  intros Hf Hno. destruct (Hf k) as [Heq|Hex]; [done|].
  destruct Hno. apply (flips_chg_iff v); done.
Qed.

(** A cascade does not walk into a node that is at target already, and so
    leaves alone what lies below it, unless the node lies above the root
    of the cascade. *)
Lemma row_post_skips v n s s' m rm :
  row_post v n s s' → nodes s !! m = Some rm → off_target v rm = false →
  ¬ in_subtree s m n → untouched_below s s' m.
Proof.
  intros Hpost Hm Hoff Hup.
  destruct (row_post_exact _ _ _ _ Hpost) as (En & Ep & Ev & _ & Et).
  destruct Hpost as ([Fn Fp Fv Fe Ft] & _).
  assert (∀ k, in_subtree s m k → ¬ creach v s (eq n) k) as Hno.
  { intros k Hk Hc.
    destruct (creach_through _ _ _ _ _ Hc Hk) as [Hcm|Hnm]; [|done].
    destruct (creach_off _ _ _ _ Hcm) as (r & Hr & Ho). congruence. }
  assert (∀ p, port_in_subtree s m p → ¬ chg (ports s) (ports s') p) as Hnp.
  { intros p (r & x & Hr & Hx & Hin) (r' & x' & Hr' & _ & Hx' & Hc)%Ep.
    apply (Hno x Hin). congruence. }
  split_and!.
  - intros k Hk. apply (flips_not_chg v); [done|]. rewrite En. by apply Hno.
  - intros p Hp. apply (flips_not_chg v); [done|]. by apply Hnp.
  - intros x r p Hr Hp Hin. apply (flips_not_chg v); [done|].
    intros (r' & p' & Hr' & _ & Hp' & Hc)%Ev. apply (Hnp p Hin). congruence.
  - intros t Ht. apply (flips_not_chg v); [done|].
    intros (r & _ & _ & Hc)%Et. by apply (Hno _ Ht).
Qed.


(** What [cascaded] asks for holds of every node the cascade walks into. *)
Lemma SetAlive_cascaded limit n target ts s s' old k :
  nodes s !! n = Some old → alive old ≠ target →
  SetAlive limit n target ts s = Some s' →
  creach (target_value target ts) s (eq n) k → cascaded target s s' k.
Proof.
  intros Hn Ha Hs' Hk.
  pose proof (SetAlive_flip _ _ _ _ _ _ _ Hn Ha Hs') as Hpost.
  destruct (row_post_reaches _ _ _ _ _ Hpost Hk)
    as (Hc & Hset & [Dn Dp Dt] & Hp).
  destruct Hpost as (F & _).
  destruct (flips_chg _ _ _ k (sf_nodes _ _ _ F) Hc) as (r & _ & _ & Hr').
  unfold cascaded. split_and!.
  - exists (set_deleted_at (target_value target ts) r). split; [done|].
    by eapply settled_target.
  - intros c cr Hc' Hpar. eapply off_target_false_alive, Dn; eauto.
  - intros p pr Hp' Hown. eapply off_target_false_alive, Dp; eauto.
  - intros t tr Ht Hnode. eapply off_target_false_alive, Dt; eauto.
  - intros p pr Hp0 Hown Hoff%(off_target_true_alive target ts).
    destruct (Hp p pr Hp0 Hown Hoff) as (_ & [Dv De]). split.
    + intros x r0 Hx Hpid. eapply off_target_false_alive, Dv; eauto.
    + intros e r0 He Hinc. eapply off_target_false_alive, De; eauto.
Qed.



(** With B dead and C restored below it, the soft delete of A stops at B:
    C, its ports, their values and its tags keep the state they had. *)
Example family_delete_skips :
  (SetAlive 5 "A" false 3 family_b_dead ≫= λ s',
     Some (alive <$> nodes s' !! "B", alive <$> nodes s' !! "C",
           alive <$> ports s' !! "pC", alive <$> port_values s' !! "v1",
           alive <$> tags s' !! ("C", "zone", "a")))
  = Some (Some false, Some true, Some true, Some true, Some true).
Proof. by vm_compute. Qed.

(** In [family] the soft delete of A walks into A, B and C, and leaves the
    unrelated X alone. *)
Example family_delete_walks :
  creach (Some 7) family (eq "A") "C" ∧
  (SetAlive 4 "A" false 7 family ≫= λ s',
     Some (alive <$> nodes s' !! "A", alive <$> nodes s' !! "B",
           alive <$> nodes s' !! "C", alive <$> nodes s' !! "X"))
  = Some (Some false, Some false, Some false, Some true).
Proof.
  split; [|by vm_compute].
  eapply creach_step; [eapply creach_step; [eapply creach_root|..]|..];
    try done; by vm_compute.
Qed.

(** *** Edges follow either endpoint *)

Lemma alive_chg `{Countable K} `{Deletable R} (m m' : gmap K R) k r r' :
  m !! k = Some r → m' !! k = Some r' → alive r' ≠ alive r → chg m m' k.
Proof. intros Hr Hr' Ha Heq. rewrite Hr, Hr' in Heq. congruence. Qed.

Lemma SetPortAlive_flip p target ts s old :
  ports s !! p = Some old → alive old ≠ target →
  let s' := SetPortAlive p target ts s in
  sflips (target_value target ts) s s' ∧ pjustified (eq p) s s' ∧
  chg (ports s) (ports s') p ∧ port_done (target_value target ts) s' p.
Proof.
  intros Hp Ha%(off_target_true_alive target ts). cbv zeta.
  destruct (update_port_row_flip p _ s old Hp Ha) as (F & J & C & S).
  assert (chg (ports s) (ports (SetPortAlive p target ts s)) p) as Hc.
  { eapply flips_off_settled_chg; [apply F|done..]. }
  split_and!; [done..|]. by apply C.
Qed.



(** The edge e1 runs from a port of C to a port of X; e2 runs from a port
    of X to a port of C.  A soft delete of C takes both, and X and its port
    stay alive. *)
Example edge_dies_with_one_endpoint :
  (SetAlive 4 "C" false 7 family ≫= λ s',
     Some (alive <$> edges s' !! "e1", alive <$> edges s' !! "e2",
           alive <$> ports s' !! "pX", alive <$> nodes s' !! "X"))
  = Some (Some false, Some false, Some true, Some true).
Proof. by vm_compute. Qed.

(** *** No-op on a settled node *)

Lemma view_row_set `{Deletable R} v (r : R) :
  is_null v = alive r → view_row (set_deleted_at v r) = view_row r.
Proof.
  intros Hv. unfold view_row, alive.
  by rewrite deleted_at_set, set_deleted_at_set, Hv.
Qed.

Lemma target_value_null target ts : is_null (target_value target ts) = target.
Proof. by destruct target. Qed.

Lemma SetAlive_settled_view limit n target ts s old :
  (0 < limit)%nat → nodes s !! n = Some old → alive old = target →
  ∃ s', SetAlive limit n target ts s = Some s' ∧ view s' = view s ∧
        s' = set_nodes
               (insert n (set_deleted_at (target_value target ts) old)) s ∧
        (target = true → s' = s).
Proof.
  intros Hl Hn Ha. eexists. split; [by apply SetAlive_settled|]. split_and!.
  - unfold view. store_simpl. rewrite fmap_insert, insert_id; [done|].
    rewrite lookup_fmap, Hn. simpl. f_equal. symmetry. apply view_row_set.
    by rewrite target_value_null.
  - done.
  - intros ->. simpl. unfold alive in Ha.
    destruct (deleted_at old) eqn:Hd; [done|]. rewrite <- Hd.
    rewrite set_deleted_at_id. unfold set_nodes.
    rewrite insert_id by done. apply store_eta.
Qed.




(** *** Soft delete of one port *)



(** The port pC of C is soft-deleted: its value v1 and its edge e1 go, and
    the sibling port qC with its value v2 and its edge e2 stay alive. *)
Example port_delete_spares_sibling :
  let s' := SetPortAlive "pC" false 5 family in
  (alive <$> ports s' !! "pC", alive <$> port_values s' !! "v1",
   alive <$> edges s' !! "e1") = (Some false, Some false, Some false) ∧
  (alive <$> ports s' !! "qC", alive <$> port_values s' !! "v2",
   alive <$> edges s' !! "e2") = (Some true, Some true, Some true).
Proof. by vm_compute. Qed.

(** *** The forest of nodes *)

Lemma run_writes_app ws1 ws2 s :
  run_writes (ws1 ++ ws2) s = run_writes ws1 s ≫= run_writes ws2.
Proof.
  revert s. induction ws1 as [|w ws1 IH]; intros s; simpl; [done|].
  destruct (run_write w s) as [s1|]; simpl; [apply IH|done].
Qed.

Lemma reachable_step w s s' :
  reachable s → run_write w s = Some s' → reachable s'.
Proof.
  intros [ws Hws] Hw. exists (ws ++ [w]).
  rewrite run_writes_app, Hws. simpl. by rewrite Hw.
Qed.

Lemma run_writes_inv (P : store → Prop) :
  (∀ w s s', P s → run_write w s = Some s' → P s') →
  ∀ ws s s', P s → run_writes ws s = Some s' → P s'.
Proof.
  intros Hstep ws. induction ws as [|w ws IH]; intros s s' Hs; simpl.
  - by intros [= <-].
  - destruct (run_write w s) as [s1|] eqn:Hw; [|done]. simpl. eauto.
Qed.

Lemma reachable_inv (P : store → Prop) :
  P empty_store →
  (∀ w s s', P s → run_write w s = Some s' → P s') →
  ∀ s, reachable s → P s.
Proof. intros Hempty Hstep s [ws Hws]. by eapply run_writes_inv. Qed.

Lemma family_reachable : reachable family.
Proof. exists family_writes. by vm_compute. Qed.

Lemma tc_parent_of_incl s s' k y :
  (∀ k x, parent_of s' k x → parent_of s k x) →
  tc (parent_of s') k y → tc (parent_of s) k y.
Proof.
  intros Hincl. induction 1 as [k y Hp|k x y Hp _ IH].
  - apply tc_once. by apply Hincl.
  - eapply tc_l; [by apply Hincl|done].
Qed.

Lemma acyclic_incl s s' :
  (∀ k x, parent_of s' k x → parent_of s k x) → acyclic s → acyclic s'.
Proof. intros Hincl Hs k Hk. eapply Hs, tc_parent_of_incl; eauto. Qed.

Lemma forest_nodes_eq s s' :
  nodes s' = nodes s →
  acyclic s ∧ parents_exist s → acyclic s' ∧ parents_exist s'.
Proof.
  intros Heq [Ha Hp]. split.
  - eapply acyclic_incl; [|done]. intros k x. unfold parent_of. by rewrite Heq.
  - intros k x. unfold parent_of. rewrite Heq. apply Hp.
Qed.

Lemma forest_same_rows s s' :
  same_rows (nodes s) (nodes s') →
  acyclic s ∧ parents_exist s → acyclic s' ∧ parents_exist s'.
Proof.
  intros Hs [Ha Hp]. split.
  - eapply acyclic_incl; [|done]. intros k x. by apply parent_of_same_rows.
  - intros k x Hk%(parent_of_same_rows s); [|done].
    destruct (Hp k x Hk) as [r Hr]. specialize (Hs x). rewrite Hr in Hs.
    destruct (nodes s' !! x); [done|by inversion Hs].
Qed.

Lemma tc_parent_exists s x y :
  parents_exist s → tc (parent_of s) x y → is_Some (nodes s !! y).
Proof. intros Hp. induction 1; eauto. Qed.

Lemma fk_ok_Some {R} (m : gmap string R) k :
  fk_ok (Some k) m = true → is_Some (m !! k).
Proof. simpl. by intros ?%bool_decide_eq_true. Qed.

(** A node inserted under a parent that is already there is a new leaf. *)
Lemma forest_insert_node id ty parent name descr s s' :
  fk_ok parent (nodes s) = true →
  insert_node id ty parent name descr s = Some s' →
  acyclic s ∧ parents_exist s → acyclic s' ∧ parents_exist s'.
Proof.
  intros Hfk Hins [Ha Hp]. unfold insert_node in Hins.
  destruct (nodes s !! id) eqn:Hid; [done|]. cbv zeta in Hins.
  destruct (fk_ok parent (<[id:=_]> _)); [|done]. injection Hins as <-.
  assert (∀ k x, parent_of
            (set_nodes (λ _, <[id:=Node None ty parent name descr]> (nodes s)) s)
            k x →
          (k = id ∧ parent = Some x) ∨ (k ≠ id ∧ parent_of s k x)) as Hinv.
  { intros k x (r & Hr & Hx). store_simpl.
    destruct (decide (id = k)) as [<-|Hne].
    - rewrite lookup_insert_eq in Hr. injection Hr as <-. by left.
    - rewrite lookup_insert_ne in Hr by done. right. split; [done|].
      by exists r. }
  assert (∀ x, is_Some (nodes s !! x) → x ≠ id) as Hfresh.
  { intros x [r Hr] ->. congruence. }
  assert (∀ k y, tc (parent_of
            (set_nodes (λ _, <[id:=Node None ty parent name descr]> (nodes s)) s))
            k y → k ≠ id → tc (parent_of s) k y) as Hold.
  { induction 1 as [k y Hk|k x y Hk _ IH]; intros Hne.
    - apply tc_once. by destruct (Hinv _ _ Hk) as [[]|[]].
    - destruct (Hinv _ _ Hk) as [[]|[_ Hk']]; [done|].
      eapply tc_l; [done|]. apply IH. eapply Hfresh, Hp, Hk'. }
  split.
  - intros k Hk. destruct (decide (k = id)) as [->|Hne].
    + inversion Hk as [? ? Hstep|? x ? Hstep Hrest]; subst.
      * destruct (Hinv _ _ Hstep) as [[_ ->]|[]]; [|done].
        apply fk_ok_Some in Hfk. by apply (Hfresh id).
      * destruct (Hinv _ _ Hstep) as [[_ ->]|[]]; [|done].
        apply fk_ok_Some in Hfk.
        apply (Hfresh id); [|done].
        apply (tc_parent_exists s x id Hp), Hold; [done|by apply Hfresh].
    + by eapply Ha, Hold.
  - intros k x Hk. store_simpl.
    assert (is_Some (nodes s !! x)) as Hx.
    { destruct (Hinv _ _ Hk) as [[_ ->]|[_ Hk']]; [by apply fk_ok_Some|].
      by eapply Hp. }
    rewrite lookup_insert_ne; [done|]. intros ->. by eapply Hfresh.
Qed.

Lemma SetPortAlive_nodes p target ts s :
  nodes (SetPortAlive p target ts s) = nodes s.
Proof.
  unfold SetPortAlive. rewrite update_port_row_eq.
  destruct (ports s !! p) as [old|]; [|done]. cbv zeta.
  by destruct (off_target _ old).
Qed.

Lemma run_write_forest w s s' :
  run_write w s = Some s' →
  acyclic s ∧ parents_exist s → acyclic s' ∧ parents_exist s'.
Proof.
  destruct w; simpl.
  - destruct (fk_ok parent_id (nodes s)) eqn:Hfk; [|done].
    intros Hins. by eapply forest_insert_node.
  - unfold insert_port. destruct (ports s !! id); [done|].
    destruct (fk_ok _ _); [|done]. intros [= <-]. by apply forest_nodes_eq.
  - unfold insert_port_value. destruct (port_values s !! id); [done|].
    destruct (fk_ok _ _); [|done]. intros [= <-]. by apply forest_nodes_eq.
  - unfold insert_edge. destruct (edges s !! id); [done|].
    destruct (_ && _); [|done]. intros [= <-]. by apply forest_nodes_eq.
  - unfold insert_tag. destruct (tags s !! _); [by intros [= <-]|].
    destruct (fk_ok _ _); [|done]. intros [= <-]. by apply forest_nodes_eq.
  - intros (Hn & _)%SetAlive_same_rows. by apply forest_same_rows.
  - intros [= <-]. apply forest_nodes_eq, SetPortAlive_nodes.
Qed.

Lemma reachable_forest s : reachable s → acyclic s ∧ parents_exist s.
Proof.
  revert s. apply (reachable_inv (λ s, acyclic s ∧ parents_exist s)).
  - split.
    + intros k Hk. inversion Hk as [? ? (r & Hr & _)|? ? ? (r & Hr & _)];
        simpl in Hr; by rewrite lookup_empty in Hr.
    + intros k x (r & Hr & _). simpl in Hr. by rewrite lookup_empty in Hr.
  - intros w s0 s' Hs0 Hw. by eapply run_write_forest.
Qed.

(** C8: the claim as stated fails.  Inserting a node that names itself as
    its parent is accepted and is a cycle of length one; re-parenting A
    under its grandchild C is accepted and closes the cycle A, C, B. *)
Lemma C8_counterexample :
  (insert_node "A" "network" (Some "A") "n" None empty_store
     = Some self_parented ∧
   tc (parent_of self_parented) "A" "A") ∧
  (set_parent "A" (Some "C") family = Some family_cycle ∧
   tc (parent_of family_cycle) "A" "A").
Proof.
  split; (split; [by vm_compute|]).
  - apply tc_once. eexists. split; [by vm_compute|done].
  - eapply tc_l; [|eapply tc_l; [|apply tc_once]];
      (eexists; split; [by vm_compute|done]).
Qed.

(** C8 (amended): no write-time check stands in the way of a cycle -- an
    insert under any parent that exists, the new row itself included, is
    accepted when the id is free, and so is a re-parenting under any node
    that exists.  The nodes form a forest, with every parent_id naming a
    node, in every store state reached by the writes the repository
    performs: inserting a node under no parent or under a node inserted
    before, inserting ports, values, edges and tags, and soft delete and
    restore. *)
Theorem C8_forest_of_reachable_stores s :
  reachable s →
  acyclic s ∧ parents_exist s ∧
  (∀ id ty parent name descr,
     nodes s !! id = None →
     parent = Some id ∨ fk_ok parent (nodes s) = true →
     is_Some (insert_node id ty parent name descr s)) ∧
  (∀ n p, is_Some (nodes s !! p) → is_Some (set_parent n (Some p) s)).
Proof.
  intros Hs. destruct (reachable_forest s Hs) as [Ha Hp].
  split_and!; [done..| |].
  - intros id ty parent name descr Hid Hpar. unfold insert_node.
    rewrite Hid. cbv zeta.
    assert (fk_ok parent (<[id:=Node None ty parent name descr]> (nodes s))
            = true) as ->; [|done].
    destruct Hpar as [->|Hfk]; simpl.
    + apply bool_decide_eq_true. by rewrite lookup_insert_eq.
    + destruct parent as [p|]; [|done]. apply fk_ok_Some in Hfk.
      apply bool_decide_eq_true.
      rewrite lookup_insert_ne; [done|]. intros ->.
      rewrite Hid in Hfk. by destruct Hfk.
  - intros n p Hex. unfold set_parent.
    destruct (nodes s !! n); [|done]. simpl.
    by rewrite bool_decide_eq_true_2.
Qed.

Lemma C8_forest_of_reachable_stores_witness :
  acyclic family ∧ parents_exist family ∧
  (∀ id ty parent name descr,
     nodes family !! id = None →
     parent = Some id ∨ fk_ok parent (nodes family) = true →
     is_Some (insert_node id ty parent name descr family)) ∧
  (∀ n p, is_Some (nodes family !! p) →
          is_Some (set_parent n (Some p) family)).
Proof.
  apply (C8_forest_of_reachable_stores family).
  exists family_writes. by vm_compute.
Defined.

(** *** Restoring below a dead parent *)

(** C10: where the nodes form a forest, a SetAlive(N, true) on a node
    whose parent is soft-deleted returns, leaves N alive and leaves the
    parent row as it was, dead: the cascade only goes down.  The nodes
    still form a forest, and when the store was reached by the
    repository's writes so is the result: an alive child under a dead
    parent is a reachable state. *)
Theorem C10_restore_under_dead_parent limit n p ts s rn rp :
  acyclic s →
  nodes s !! n = Some rn → n_parent_id rn = Some p →
  nodes s !! p = Some rp → alive rp = false →
  (size (nodes s) ≤ limit)%nat →
  ∃ s', SetAlive limit n true ts s = Some s' ∧
        (∃ rn', nodes s' !! n = Some rn' ∧ alive rn' = true) ∧
        nodes s' !! p = Some rp ∧
        parent_of s' n p ∧
        acyclic s' ∧
        (reachable s → reachable s').
Proof.
  intros Hacyc Hn Hpar Hp Hdead Hsz.
  assert (parent_of s n p) as Hnp by by exists rn.
  assert (is_Some (SetAlive limit n true ts s)) as [s' Hs'].
  { apply (SetAlive_total_within _ _ _ _ _ (dom (nodes s) ∖ {[p]})).
    - intros k r Hr Hk. apply elem_of_difference.
      split; [apply elem_of_dom; by eexists|].
      intros ->%elem_of_singleton. destruct (Hacyc n).
      eapply tc_rtc_r; [by apply tc_once|done].
    - assert ({[p]} ⊆ dom (nodes s)) as Hsub.
      { intros k ->%elem_of_singleton. apply elem_of_dom. by eexists. }
      pose proof (subseteq_size _ _ Hsub) as Hle.
      rewrite size_difference by done.
      rewrite size_singleton in *. rewrite size_dom in *. lia. }
  assert (p ≠ n) as Hne.
  { intros ->. by apply (Hacyc n), tc_once. }
  assert (acyclic s') as Hacyc'.
  { eapply acyclic_incl; [|done]. intros k x.
    apply parent_of_same_rows. by apply SetAlive_same_rows in Hs' as (? & _). }
  assert (reachable s → reachable s') as Hreach.
  { intros Hs. by apply (reachable_step (NodeSetAlive limit n true ts) s). }
  exists s'. split; [done|].
  destruct (decide (alive rn = true)) as [Ha|Ha].
  - apply (SetAlive_settled_inv _ _ _ _ _ _ rn) in Hs' as ->; [|done..].
    store_simpl. split_and!; [| | |done..].
    + rewrite lookup_insert_eq. eexists. split; [done|].
      unfold alive. by rewrite deleted_at_set.
    + by rewrite lookup_insert_ne.
    + eexists. store_simpl. rewrite lookup_insert_eq. split; [done|].
      by destruct rn.
  - pose proof (SetAlive_flip _ _ _ _ _ _ _ Hn Ha Hs') as Hpost.
    pose proof Hpost as (F & J & _ & S).
    assert (nodes s' !! p = Some rp) as Hp'.
    { destruct (sf_nodes _ _ _ F p) as [Heq|Hflip]; [congruence|].
      apply (flips_chg_iff _ _ _ p (sf_nodes _ _ _ F)) in Hflip.
      apply (row_post_walked _ _ _ _ _ Hpost), creach_in_subtree in Hflip.
      destruct (Hacyc n). eapply tc_rtc_r; [by apply tc_once|done]. }
    destruct (sf_nodes _ _ _ F n) as [Heq|(r & Hr & _ & Hr')].
    + rewrite Hn in Heq. split_and!; [|done| |done..].
      * exists rn. split; [done|]. by eapply (settled_target true ts).
      * by exists rn.
    + split_and!; [|done| |done..].
      * eexists. split; [done|]. by eapply (settled_target true ts).
      * eexists. split; [done|]. rewrite Hn in Hr. injection Hr as <-.
        by destruct rn.
Qed.

Lemma family_b_deleted_reachable : reachable family_b_deleted.
Proof. exists (family_writes ++ [NodeSetAlive 4 "B" false 1]). by vm_compute. Qed.

Lemma C10_restore_under_dead_parent_witness :
  ∃ s', SetAlive 4 "C" true 2 family_b_deleted = Some s' ∧
        (∃ rn', nodes s' !! "C" = Some rn' ∧ alive rn' = true) ∧
        nodes s' !! "B" = Some (Node (Some 1) "device" (Some "A") "n" None) ∧
        parent_of s' "C" "B" ∧
        acyclic s' ∧
        (reachable family_b_deleted → reachable s').
Proof.
  apply (C10_restore_under_dead_parent 4 "C" "B" 2 family_b_deleted
           (Node (Some 1) "point" (Some "B") "n" None)
           (Node (Some 1) "device" (Some "A") "n" None)).
  - apply reachable_forest, family_b_deleted_reachable.
  - by vm_compute.
  - reflexivity.
  - by vm_compute.
  - reflexivity.
  - vm_compute. lia.
Defined.

(** *** Soft delete followed by restore *)

Lemma store_ext s s' :
  nodes s' = nodes s → ports s' = ports s →
  port_values s' = port_values s → edges s' = edges s → tags s' = tags s →
  s' = s.
Proof. destruct s, s'. simpl. by intros -> -> -> -> ->. Qed.

(** A table that a delete and a restore went over is back where it was
    when the restore undid every change of the delete and changed nothing
    that was dead before. *)
Lemma flip_back `{Countable K} `{Deletable R} ts (m m1 m2 : gmap K R) :
  flips (Some ts) m m1 → flips None m1 m2 →
  (∀ k, chg m m1 k → settled None m2 k) →
  (∀ k r, chg m1 m2 k → m !! k = Some r → alive r = true) →
  m2 = m.
Proof.
  intros F1 F2 HA HB. apply map_eq. intros k.
  destruct (F1 k) as [Heq|(r & Hr & Hoff & Hr1)].
  - destruct (F2 k) as [Heq2|(r1 & Hr1 & Hoff1 & Hr2)]; [congruence|].
    assert (chg m1 m2 k) as Hc.
    { apply (flips_chg_iff None); [done|]. eauto. }
    rewrite Heq in Hr1. specialize (HB k r1 Hc Hr1).
    unfold off_target, alive in *. by rewrite HB in Hoff1.
  - assert (chg m m1 k) as Hc.
    { apply (flips_chg_iff (Some ts)); [done|]. eauto. }
    specialize (HA k Hc).
    destruct (F2 k) as [Heq2|(r1 & Hr1' & _ & Hr2)].
    + rewrite Hr1 in Heq2. specialize (HA _ Heq2).
      unfold off_target in HA. by rewrite deleted_at_set in HA.
    + rewrite Hr1 in Hr1'. injection Hr1' as <-.
      rewrite Hr2, Hr, set_deleted_at_set. f_equal.
      unfold off_target in Hoff. destruct (deleted_at r) eqn:Hd; [done|].
      rewrite <- Hd. apply set_deleted_at_id.
Qed.

Section delete_then_restore.
Context (ts : Z) (n : string) (s s1 s2 : store).
Hypothesis Hdel : row_post (Some ts) n s s1.
Hypothesis Hres : row_post None n s1 s2.

Let F1 : sflips (Some ts) s s1 := proj1 Hdel.
Let F2 : sflips None s1 s2 := proj1 Hres.

(** What the delete walked into, the restore walks into again. *)
Lemma creach_back k :
  creach (Some ts) s (eq n) k → creach None s1 (eq n) k.
Proof.
  intros Hk. pose proof Hk as Hk'. revert Hk'.
  induction Hk as [k r <- Hr Hoff|x k r Hx IH Hr Hp Hoff]; intros Hk'.
  - apply (row_post_walked _ _ _ _ _ Hdel) in Hk'.
    destruct (flips_chg _ _ _ _ (sf_nodes _ _ _ F1) Hk')
      as (r' & Hr0 & _ & Hr1).
    eapply creach_root; [done..|].
    unfold off_target. by rewrite deleted_at_set.
  - apply (row_post_walked _ _ _ _ _ Hdel) in Hk'.
    destruct (flips_chg _ _ _ _ (sf_nodes _ _ _ F1) Hk')
      as (r' & Hr0 & _ & Hr1).
    rewrite Hr in Hr0. injection Hr0 as <-.
    eapply creach_step; [by apply IH|done| |].
    + by destruct r.
    + unfold off_target. by rewrite deleted_at_set.
Qed.

Lemma node_changed_back k :
  chg (nodes s) (nodes s1) k → chg (nodes s1) (nodes s2) k.
Proof.
  intros Hc. apply (row_post_walked _ _ _ _ _ Hres), creach_back.
  by apply (row_post_walked _ _ _ _ _ Hdel).
Qed.

Lemma port_changed_back p :
  chg (ports s) (ports s1) p → chg (ports s1) (ports s2) p.
Proof.
  intros Hc. pose proof Hdel as (_ & J1 & _).
  pose proof Hres as (_ & _ & [Cn _] & _).
  destruct (j_ports _ _ _ _ J1 p Hc) as (r & x & Hr & Hx & Hcx).
  apply node_changed_back, Cn in Hcx.
  destruct (flips_chg _ _ _ _ (sf_ports _ _ _ F1) Hc) as (r' & Hr0 & _ & Hr1).
  rewrite Hr in Hr0. injection Hr0 as <-.
  eapply flips_off_settled_chg; [apply F2|done| |].
  - unfold off_target. by rewrite deleted_at_set.
  - intros r2 Hr2. eapply (nd_ports _ _ _ Hcx); [done|].
    destruct (flips_lookup_inv _ _ _ _ _ (sf_ports _ _ _ F2) Hr2)
      as (r1 & Hr1' & [->| ->]); rewrite Hr1 in Hr1'; injection Hr1' as <-;
      by destruct r.
Qed.

(** The restore changes nodes and ports of the subtree of [n] only. *)
Lemma restored_node_in_subtree k :
  chg (nodes s1) (nodes s2) k → in_subtree s n k.
Proof.
  intros Hc%(row_post_walked _ _ _ _ _ Hres)%creach_in_subtree.
  eapply in_subtree_same_rows; [|done].
  eapply flips_same_rows, F1.
Qed.

Lemma restored_port_in_subtree p :
  chg (ports s1) (ports s2) p → port_in_subtree s n p.
Proof.
  intros Hc. pose proof Hres as (_ & J2 & _).
  destruct (j_ports _ _ _ _ J2 p Hc) as (r1 & x & Hr1 & Hx & Hcx).
  apply restored_node_in_subtree in Hcx.
  destruct (same_rows_lookup _ _ _ _
    (flips_same_rows _ _ _ (sf_ports _ _ _ F1)) Hr1) as (r & Hr & He).
  exists r, x. split_and!; [done| |done].
  by rewrite (p_node_id_erase _ _ He).
Qed.

Hypothesis Halive : subtree_alive s n.

Lemma delete_then_restore_eq : s2 = s.
Proof.
  pose proof Hdel as (_ & J1 & _).
  pose proof Hres as (_ & J2 & [Cn2 Cp2] & _).
  apply store_ext.
  - eapply (flip_back ts); [apply F1|apply F2|..].
    + intros k Hc%node_changed_back r2 Hr2.
      destruct (flips_chg _ _ _ _ (sf_nodes _ _ _ F2) Hc)
        as (r1 & _ & _ & Hr2').
      rewrite Hr2 in Hr2'. injection Hr2' as ->. apply off_target_set.
    + intros k r Hc%restored_node_in_subtree Hr.
      by eapply (sa_nodes _ _ Halive).
  - eapply (flip_back ts); [apply F1|apply F2|..].
    + intros p Hc%port_changed_back r2 Hr2.
      destruct (flips_chg _ _ _ _ (sf_ports _ _ _ F2) Hc)
        as (r1 & _ & _ & Hr2').
      rewrite Hr2 in Hr2'. injection Hr2' as ->. apply off_target_set.
    + intros p r Hc%restored_port_in_subtree Hr.
      by eapply (sa_ports _ _ Halive).
  - eapply (flip_back ts); [apply F1|apply F2|..].
    + intros x Hc r2 Hr2.
      destruct (j_port_values _ _ _ _ J1 x Hc) as (r & p & Hr & Hp & Hcp).
      apply port_changed_back, Cp2 in Hcp.
      eapply (pd_port_values _ _ _ Hcp); [done|].
      destruct (same_rows_lookup _ _ _ _
        (same_rows_trans _ _ _
          (flips_same_rows _ _ _ (sf_port_values _ _ _ F1))
          (flips_same_rows _ _ _ (sf_port_values _ _ _ F2))) Hr2)
        as (r0 & Hr0 & He).
      rewrite Hr in Hr0. injection Hr0 as <-.
      by rewrite <- (v_port_id_erase _ _ He).
    + intros x r Hc Hr.
      destruct (j_port_values _ _ _ _ J2 x Hc) as (r1 & p & Hr1 & Hp & Hcp).
      apply restored_port_in_subtree in Hcp.
      destruct (same_rows_lookup _ _ _ _
        (flips_same_rows _ _ _ (sf_port_values _ _ _ F1)) Hr1)
        as (r0 & Hr0 & He).
      rewrite Hr in Hr0. injection Hr0 as <-.
      eapply (sa_port_values _ _ Halive); [done| |done].
      by rewrite (v_port_id_erase _ _ He).
  - eapply (flip_back ts); [apply F1|apply F2|..].
    + intros e Hc r2 Hr2.
      destruct (j_edges _ _ _ _ J1 e Hc) as (r & p & Hr & Hp & Hcp).
      apply port_changed_back, Cp2 in Hcp.
      eapply (pd_edges _ _ _ Hcp); [done|].
      destruct (same_rows_lookup _ _ _ _
        (same_rows_trans _ _ _
          (flips_same_rows _ _ _ (sf_edges _ _ _ F1))
          (flips_same_rows _ _ _ (sf_edges _ _ _ F2))) Hr2)
        as (r0 & Hr0 & He).
      rewrite Hr in Hr0. injection Hr0 as <-.
      destruct (e_ports_erase _ _ He) as [<- <-]. done.
    + intros e r Hc Hr.
      destruct (j_edges _ _ _ _ J2 e Hc) as (r1 & p & Hr1 & Hp & Hcp).
      apply restored_port_in_subtree in Hcp.
      destruct (same_rows_lookup _ _ _ _
        (flips_same_rows _ _ _ (sf_edges _ _ _ F1)) Hr1)
        as (r0 & Hr0 & He).
      rewrite Hr in Hr0. injection Hr0 as <-.
      eapply (sa_edges _ _ Halive); [done| |done].
      destruct (e_ports_erase _ _ He) as [-> ->]. done.
  - eapply (flip_back ts); [apply F1|apply F2|..].
    + intros t Hc r2 Hr2.
      apply (j_tags _ _ _ _ J1), node_changed_back, Cn2 in Hc.
      by eapply (nd_tags _ _ _ Hc).
    + intros t r Hc Hr.
      apply (j_tags _ _ _ _ J2), restored_node_in_subtree in Hc.
      by eapply (sa_tags _ _ Halive).
Qed.
End delete_then_restore.

Lemma same_rows_size `{Countable K} `{Deletable R} (m m' : gmap K R) :
  same_rows m m' → size m' = size m.
Proof.
  intros Hs. rewrite <- !size_dom. f_equal. apply set_eq. intros k.
  rewrite !elem_of_dom. specialize (Hs k).
  destruct (m !! k), (m' !! k); try done; split; intros [? ?]; done.
Qed.

Lemma all_alive_subtree s n : all_alive s → subtree_alive s n.
Proof.
  intros (Hn & Hp & Hv & He & Ht). split.
  - intros k r _ Hr. by apply (Hn k).
  - intros p r _ Hr. by apply (Hp p).
  - intros t r _ Hr. by apply (Ht t).
  - intros x r p Hr _ _. by apply (Hv x).
  - intros e r p Hr _ _. by apply (He e).
Qed.




(** In [chain_mixed] the restore of n0's dead child n1 stops at the alive
    n2: n3, n4 and n5, dead below it, stay dead. *)
Example chain_restore_skips :
  (SetAlive 7 "n1" true 5 chain_mixed ≫= λ s',
     Some (alive <$> nodes s' !! "n1", alive <$> nodes s' !! "n2",
           alive <$> nodes s' !! "n3", alive <$> nodes s' !! "n5"))
  = Some (Some true, Some true, Some false, Some false).
Proof. by vm_compute. Qed.

(** ** The hierarchy query *)

Lemma elem_of_anchor root s x :
  x ∈ anchor root s ↔
  ∃ r, nodes s !! root = Some r ∧
       x = HRow root (n_name r) (n_type r) (n_description r) 0.
Proof.
  unfold anchor. destruct (nodes s !! root) as [r|].
  - rewrite list_elem_of_singleton. split; [by eauto|].
    by intros (r' & [= <-] & ->).
  - rewrite elem_of_nil. split; [done|]. by intros (r & ? & _).
Qed.

Lemma elem_of_recursive_term bound s work x :
  x ∈ recursive_term bound s work ↔
  ∃ nh k r, nh ∈ work ∧ bound (h_level nh) = true ∧
            nodes s !! k = Some r ∧ n_parent_id r = Some (h_id nh) ∧
            x = HRow k (n_name r) (n_type r) (n_description r)
                     (h_level nh + 1).
Proof.
  unfold recursive_term. rewrite list_elem_of_bind. split.
  - intros (nh & Hx & Hnh). destruct (bound (h_level nh)) eqn:Hb;
      [|by apply elem_of_nil in Hx].
    apply list_elem_of_fmap in Hx
      as ([k r] & -> & [Hp Hin]%list_elem_of_filter).
    apply elem_of_map_to_list in Hin. exists nh, k, r. by split_and!.
  - intros (nh & k & r & Hnh & Hb & Hr & Hp & ->). exists nh.
    split; [|done]. rewrite Hb. apply list_elem_of_fmap. exists (k, r).
    split; [done|]. apply list_elem_of_filter. split; [done|].
    by apply elem_of_map_to_list.
Qed.

(** *** Levels *)

Lemma rec_cte_levels fuel step work rows (P : hrow → Prop) :
  (∀ w x, (∀ y, y ∈ w → P y) → x ∈ step w → P x) →
  (∀ x, x ∈ work → P x) →
  rec_cte fuel step work = Some rows → ∀ x, x ∈ rows → P x.
Proof.
  intros Hstep. revert work rows.
  induction fuel as [|f IH]; intros work rows Hwork.
  - destruct work; simpl; [|done]. intros [= <-] x Hx.
    by apply elem_of_nil in Hx.
  - destruct work as [|y work]; simpl.
    { intros [= <-] x Hx. by apply elem_of_nil in Hx. }
    destruct (rec_cte f step (step (y :: work))) as [rest|] eqn:Hrest;
      [|done]. simpl. intros [= <-] x.
    change (x ∈ (y :: work) ++ rest → P x).
    intros [Hx|Hx]%elem_of_app; [by apply Hwork|].
    eapply IH; [|done..]. intros x' Hx'. by eapply Hstep.
Qed.

(** With the bound [nh.level < D] no row is labelled beyond [D]. *)
Lemma nodes_hierarchy_pg_levels fuel root D s rows :
  0 ≤ D → nodes_hierarchy_pg fuel root D s = Some rows →
  ∀ x, x ∈ rows → h_level x ≤ D.
Proof.
  intros HD. apply rec_cte_levels.
  - intros w x Hw (nh & k & r & Hnh & Hb%bool_decide_eq_true & _ & _ & ->)
      %elem_of_recursive_term. simpl. lia.
  - intros x (r & _ & ->)%elem_of_anchor. simpl. lia.
Qed.

(** The rounds end: after round [D] (or [D + 1]) the recursive term selects
    nothing. *)
Lemma rec_cte_total fuel (bound : Z → bool) (top l : Z) s work :
  (∀ x, top ≤ x → bound x = false) →
  (∀ x, x ∈ work → l ≤ h_level x) →
  (Z.to_nat (top - l) < fuel)%nat →
  is_Some (rec_cte fuel (recursive_term bound s) work).
Proof.
  intros Htop. revert l work.
  induction fuel as [|f IH]; intros l work Hwork Hf; [lia|].
  destruct work as [|y work]; simpl; [done|].
  apply fmap_is_Some.
  destruct (decide (top ≤ l)) as [Hle|Hlt].
  - assert (recursive_term bound s (y :: work) = []) as ->.
    { apply elem_of_nil_inv.
      intros x (nh & k & r & Hnh & Hb & _)%elem_of_recursive_term.
      rewrite Htop in Hb; [done|]. specialize (Hwork nh Hnh). lia. }
    by destruct f.
  - apply (IH (l + 1)); [|lia].
    intros x (nh & k & r & Hnh & _ & _ & _ & ->)%elem_of_recursive_term.
    simpl. specialize (Hwork nh Hnh). lia.
Qed.

Lemma nodes_hierarchy_pg_total fuel root D s :
  (Z.to_nat D < fuel)%nat → is_Some (nodes_hierarchy_pg fuel root D s).
Proof.
  intros Hf. apply (rec_cte_total _ _ D 0).
  - intros x Hx. apply bool_decide_eq_false. lia.
  - intros x (r & _ & ->)%elem_of_anchor. done.
  - by rewrite Z.sub_0_r.
Qed.

Lemma nodes_hierarchy_sqlite_total fuel root D s :
  (Z.to_nat (D + 1) < fuel)%nat →
  is_Some (nodes_hierarchy_sqlite fuel root D s).
Proof.
  intros Hf. apply (rec_cte_total _ _ (D + 1) 0).
  - intros x Hx. apply bool_decide_eq_false. lia.
  - intros x (r & _ & ->)%elem_of_anchor. done.
  - by rewrite Z.sub_0_r.
Qed.

(** C5: the claim holds for the query with [nh.level < D] and fails for
    the SQLite README's query with [level <= D]: on the chain
    n0 <- n1 <- ... <- n5 with D = 3 the latter returns n4 labelled 4,
    one level further than the former. *)
Theorem C5_sqlite_query_exceeds_depth :
  (λ x, (h_id x, h_level x)) <$>
    default [] (nodes_hierarchy_sqlite 10 "n0" 3 chain)
  = [("n0", 0); ("n1", 1); ("n2", 2); ("n3", 3); ("n4", 4)] ∧
  (λ x, (h_id x, h_level x)) <$>
    default [] (nodes_hierarchy_pg 10 "n0" 3 chain)
  = [("n0", 0); ("n1", 1); ("n2", 2); ("n3", 3)].
Proof. split; by vm_compute. Qed.

(** *** The query never reads [deleted_at] *)

Lemma node_columns_erase (r r' : node) :
  set_deleted_at None r = set_deleted_at None r' →
  n_name r = n_name r' ∧ n_type r = n_type r' ∧
  n_description r = n_description r' ∧ n_parent_id r = n_parent_id r'.
Proof. destruct r, r'. by intros [= ]. Qed.

Lemma anchor_same_rows root s s' :
  same_rows (nodes s) (nodes s') → anchor root s' = anchor root s.
Proof.
  intros Hs. unfold anchor. specialize (Hs root).
  destruct (nodes s !! root) as [r|], (nodes s' !! root) as [r'|];
    try done. simpl in Hs. apply (inj Some) in Hs.
  by destruct (node_columns_erase _ _ Hs) as (-> & -> & -> & _).
Qed.

Lemma recursive_term_same_rows bound s s' w w' x :
  same_rows (nodes s) (nodes s') → (∀ y, y ∈ w' → y ∈ w) →
  x ∈ recursive_term bound s' w' → x ∈ recursive_term bound s w.
Proof.
  intros Hs Hw (nh & k & r' & Hnh & Hb & Hr' & Hp & ->)%elem_of_recursive_term.
  destruct (same_rows_lookup _ _ _ _ Hs Hr') as (r & Hr & He).
  destruct (node_columns_erase _ _ He) as (Hn & Ht & Hd & Hpar).
  apply elem_of_recursive_term. exists nh, k, r.
  split_and!; [by apply Hw|done..|congruence|by rewrite Hn, Ht, Hd].
Qed.

Lemma rec_cte_same_rows fuel bound s s' w w' rows :
  same_rows (nodes s) (nodes s') → (∀ y, y ∈ w' ↔ y ∈ w) →
  rec_cte fuel (recursive_term bound s) w = Some rows →
  ∃ rows', rec_cte fuel (recursive_term bound s') w' = Some rows' ∧
           ∀ y, y ∈ rows' ↔ y ∈ rows.
Proof.
  intros Hs. revert w w' rows.
  induction fuel as [|f IH]; intros w w' rows Hw.
  - destruct w as [|y w]; simpl; [|done]. intros [= <-].
    destruct w' as [|y' w']; [by exists []|].
    assert (y' ∈ y' :: w') as Hy by left. apply Hw in Hy.
    by apply elem_of_nil in Hy.
  - destruct w as [|y w]; simpl.
    + intros [= <-]. destruct w' as [|y' w']; [by exists []|].
      assert (y' ∈ y' :: w') as Hy by left. apply Hw in Hy.
      by apply elem_of_nil in Hy.
    + destruct (rec_cte f _ (recursive_term bound s (y :: w)))
        as [rest|] eqn:Hrest; [|done]. simpl. intros [= <-].
      destruct w' as [|y' w'].
      { assert (y ∈ y :: w) as Hy by left. apply Hw in Hy.
        by apply elem_of_nil in Hy. }
      assert (∀ x, x ∈ recursive_term bound s' (y' :: w') ↔
                   x ∈ recursive_term bound s (y :: w)) as Hstep.
      { intros x. split; apply recursive_term_same_rows;
          try done; try (by apply same_rows_sym); intros z; apply Hw. }
      destruct (IH _ _ _ Hstep Hrest) as (rest' & Hrest' & Heq).
      simpl. rewrite Hrest'. simpl. eexists. split; [done|].
      intros x. change (x ∈ (y' :: w') ++ rest' ↔ x ∈ (y :: w) ++ rest).
      rewrite !elem_of_app, Hw, Heq. done.
Qed.

Lemma nodes_hierarchy_same_rows bound fuel root D s s' rows :
  same_rows (nodes s) (nodes s') →
  nodes_hierarchy bound fuel root D s = Some rows →
  ∃ rows', nodes_hierarchy bound fuel root D s' = Some rows' ∧
           ∀ y, y ∈ rows' ↔ y ∈ rows.
Proof.
  intros Hs Hrows. unfold nodes_hierarchy in *.
  eapply rec_cte_same_rows; [done| |done].
  by rewrite (anchor_same_rows _ _ _ Hs).
Qed.


Lemma nodes_hierarchy_root bound fuel root D s rows r :
  nodes_hierarchy bound fuel root D s = Some rows →
  nodes s !! root = Some r →
  HRow root (n_name r) (n_type r) (n_description r) 0 ∈ rows.
Proof.
  unfold nodes_hierarchy, anchor. intros Hrows Hr. rewrite Hr in Hrows.
  destruct fuel as [|f]; simpl in Hrows; [done|].
  destruct (rec_cte f _ _) as [rest|]; [|done]. simpl in Hrows.
  injection Hrows as <-. left.
Qed.

Lemma nodes_hierarchy_ignores_alive bound fuel root D s s' :
  same_rows (nodes s) (nodes s') →
  is_Some (nodes_hierarchy bound fuel root D s) →
  ∃ rows rows',
    nodes_hierarchy bound fuel root D s = Some rows ∧
    nodes_hierarchy bound fuel root D s' = Some rows' ∧
    (∀ x, x ∈ rows' ↔ x ∈ rows) ∧
    ∀ r, nodes s' !! root = Some r →
         HRow root (n_name r) (n_type r) (n_description r) 0 ∈ rows'.
Proof.
  intros Hs [rows Hrows].
  destruct (nodes_hierarchy_same_rows _ _ _ _ _ _ _ Hs Hrows)
    as (rows' & Hrows' & Heq).
  exists rows, rows'. split_and!; [done..|].
  intros r Hr. by eapply nodes_hierarchy_root.
Qed.



(** ** Tag search *)

Lemma elem_of_map_keys `{Countable K} {R} (m : gmap K R) k :
  k ∈ (map_to_list m).*1 ↔ is_Some (m !! k).
Proof.
  rewrite list_elem_of_fmap. split.
  - intros ([k' r] & -> & Hin%elem_of_map_to_list). by exists r.
  - intros [r Hr]. exists (k, r). split; [done|].
    by apply elem_of_map_to_list.
Qed.

Lemma matches_any_two k1 v1 k2 v2 (t : tag_key) :
  matches_any [(k1, v1); (k2, v2)] t = true ↔
  (tk_key t = k1 ∧ tk_value t = v1) ∨ (tk_key t = k2 ∧ tk_value t = v2).
Proof.
  unfold matches_any. simpl. rewrite orb_false_r, orb_true_iff.
  by rewrite !andb_true_iff, !bool_decide_eq_true.
Qed.

(** A duplicate-free list drawn from two distinct values has length two
    exactly when both occur. *)
Lemma length_remove_dups_two `{EqDecision A} (a b : A) (l : list A) :
  a ≠ b → (∀ x, x ∈ l → x = a ∨ x = b) →
  length (remove_dups l) = 2%nat ↔ a ∈ l ∧ b ∈ l.
Proof.
  intros Hab Hl.
  pose proof (NoDup_remove_dups l) as Hnd.
  assert (∀ x, x ∈ remove_dups l ↔ x ∈ l) as Hin
    by (intros x; apply elem_of_remove_dups).
  split.
  - intros Hlen. split.
    + destruct (decide (a ∈ l)) as [|Hna]; [done|].
      assert (remove_dups l ⊆+ [b]) as Hsub%submseteq_length.
      { apply NoDup_submseteq; [done|]. intros x Hx%Hin.
        destruct (Hl x Hx) as [->| ->]; [done|left]. }
      simpl in Hsub. lia.
    + destruct (decide (b ∈ l)) as [|Hnb]; [done|].
      assert (remove_dups l ⊆+ [a]) as Hsub%submseteq_length.
      { apply NoDup_submseteq; [done|]. intros x Hx%Hin.
        destruct (Hl x Hx) as [->| ->]; [left|done]. }
      simpl in Hsub. lia.
  - intros [Ha Hb].
    assert (remove_dups l ⊆+ [a; b]) as Hle%submseteq_length.
    { apply NoDup_submseteq; [done|]. intros x Hx%Hin.
      destruct (Hl x Hx) as [->| ->]; [left|right; left]. }
    assert ([a; b] ⊆+ remove_dups l) as Hge%submseteq_length.
    { apply NoDup_submseteq.
      - apply NoDup_cons. split; [|apply NoDup_singleton].
        by intros ->%list_elem_of_singleton.
      - intros x [->|[->|[]%elem_of_nil]%elem_of_cons]%elem_of_cons;
          by apply Hin. }
    simpl in *. lia.
Qed.

Lemma find_by_two_tags k1 v1 k2 v2 s n :
  k1 ≠ k2 →
  n ∈ find_by_tags [(k1, v1); (k2, v2)] s ↔
  is_Some (tags s !! (n, k1, v1)) ∧ is_Some (tags s !! (n, k2, v2)).
Proof.
  intros Hne. unfold find_by_tags.
  set (matched := filter _ (map_to_list (tags s)).*1).
  assert (∀ t, t ∈ matched ↔
            is_Some (tags s !! t) ∧
            ((tk_key t = k1 ∧ tk_value t = v1) ∨
             (tk_key t = k2 ∧ tk_value t = v2))) as Hm.
  { intros t. unfold matched.
    rewrite list_elem_of_filter, matches_any_two, elem_of_map_keys. tauto. }
  set (L := tk_key <$> filter (λ t, tk_node_id t = n) matched).
  assert (∀ k, k ∈ L ↔ ∃ t, t ∈ matched ∧ tk_node_id t = n ∧ tk_key t = k)
    as HL.
  { intros k. unfold L. rewrite list_elem_of_fmap. split.
    - intros (t & -> & [Hn Ht]%list_elem_of_filter). eauto.
    - intros (t & Ht & Hn & <-). exists t. split; [done|].
      by apply list_elem_of_filter. }
  assert (∀ k v k' v', k ≠ k' →
            (k = k1 ∧ v = v1 ∧ k' = k2 ∧ v' = v2) ∨
            (k = k2 ∧ v = v2 ∧ k' = k1 ∧ v' = v1) →
            k ∈ L ↔ is_Some (tags s !! (n, k, v))) as Hkey.
  { intros k v k' v' Hkk Hcase. rewrite HL. split.
    - intros ([[n' kk] vv] & [Hex Hmatch]%Hm & Hn & Hk).
      unfold tk_node_id, tk_key, tk_value in *. simpl in *. subst n' kk.
      assert (vv = v) as ->; [|done].
      destruct Hcase as [(-> & -> & -> & ->)|(-> & -> & -> & ->)];
        destruct Hmatch as [[? ?]|[? ?]]; congruence.
    - intros Hex. exists (n, k, v). split_and!; [|done..].
      apply Hm. split; [done|]. unfold tk_key, tk_value. simpl.
      destruct Hcase as [(-> & -> & _)|(-> & -> & _)]; auto. }
  rewrite list_elem_of_filter. simpl. fold L.
  rewrite (length_remove_dups_two k1 k2 L Hne).
  - rewrite (Hkey k1 v1 k2 v2), (Hkey k2 v2 k1 v1) by (try done; auto).
    split; [by intros [? _]|]. intros [H1 H2]. split; [done|].
    apply elem_of_remove_dups, list_elem_of_fmap. exists (n, k1, v1).
    split; [done|]. apply Hm. split; [done|]. by left.
  - intros k (t & [_ Hmatch]%Hm & _ & <-)%HL.
    destruct Hmatch as [[? _]|[? _]]; auto.
Qed.

(** C3: the claim as stated fails.  After the soft delete of A every tag
    of C is soft-deleted, and the search for (category, medium) and
    (zone, a) still returns C, as does the single-tag query of the SQLite
    README for (category, medium). *)
Lemma C3_counterexample :
  find_by_tags [("category", "medium"); ("zone", "a")] family_a_dead
    = ["C"] ∧
  (nodes_tagged "category" "medium" family_a_dead).*1 = ["C"] ∧
  (alive <$> tags family_a_dead !! ("C", "category", "medium"),
   alive <$> tags family_a_dead !! ("C", "zone", "a"))
    = (Some false, Some false).
Proof. split_and!; by vm_compute. Qed.

(** C3 (amended): for two required predicates on different keys the search
    returns, each once, exactly the node ids that have a tag row (k1, v1)
    and a tag row (k2, v2), soft-deleted rows included; the rows matching
    a predicate are grouped by node and a node is kept when its count of
    distinct matched keys equals the number of predicates.  On a store
    without soft-deleted tags these are exactly the nodes that carry both
    tags alive. *)
Theorem C3_find_by_two_tags k1 v1 k2 v2 s n :
  k1 ≠ k2 →
  (n ∈ find_by_tags [(k1, v1); (k2, v2)] s ↔
   is_Some (tags s !! (n, k1, v1)) ∧ is_Some (tags s !! (n, k2, v2))) ∧
  NoDup (find_by_tags [(k1, v1); (k2, v2)] s) ∧
  (map_Forall (λ _ r, alive r = true) (tags s) →
   n ∈ find_by_tags [(k1, v1); (k2, v2)] s ↔
   (∃ r, tags s !! (n, k1, v1) = Some r ∧ alive r = true) ∧
   (∃ r, tags s !! (n, k2, v2) = Some r ∧ alive r = true)).
Proof.
  intros Hne. split_and!.
  - by apply find_by_two_tags.
  - unfold find_by_tags. apply NoDup_filter, NoDup_remove_dups.
  - intros Hall. rewrite (find_by_two_tags k1 v1 k2 v2 s n Hne).
    split.
    + intros [[r1 H1] [r2 H2]]. split; eexists; split; try done;
        by eapply (Hall _ _).
    + intros [(r1 & H1 & _) (r2 & H2 & _)]. by split; eexists.
Qed.

Lemma C3_find_by_two_tags_witness :
  ("C" ∈ find_by_tags [("category", "medium"); ("zone", "a")] family ↔
   is_Some (tags family !! ("C", "category", "medium")) ∧
   is_Some (tags family !! ("C", "zone", "a"))) ∧
  NoDup (find_by_tags [("category", "medium"); ("zone", "a")] family) ∧
  (map_Forall (λ _ r, alive r = true) (tags family) →
   "C" ∈ find_by_tags [("category", "medium"); ("zone", "a")] family ↔
   (∃ r, tags family !! ("C", "category", "medium") = Some r ∧
         alive r = true) ∧
   (∃ r, tags family !! ("C", "zone", "a") = Some r ∧ alive r = true)).
Proof.
  apply (C3_find_by_two_tags "category" "medium" "zone" "a" family "C").
  discriminate.
Defined.

(** With two predicates on one key the count of distinct keys stays at
    one: C carries (zone, a) and (zone, b) and is not found. *)
Example find_by_tags_same_key :
  find_by_tags [("zone", "a"); ("zone", "b")] family = [] ∧
  is_Some (tags family !! ("C", "zone", "a")) ∧
  is_Some (tags family !! ("C", "zone", "b")).
Proof. split_and!; [by vm_compute|by eexists..]. Qed.

(** * Further properties of the cascade *)

(** ** What a SetAlive never touches *)

Lemma chg_insert_only `{Countable K} {R} (m : gmap K R) id r k :
  chg m (<[id := r]> m) k → id = k.
Proof.
  intros Hc. destruct (decide (id = k)) as [|Hne]; [done|].
  unfold chg in Hc. by rewrite lookup_insert_ne in Hc.
Qed.

Lemma port_in_subtree_same_rows s s' n p r' x :
  same_rows (ports s) (ports s') →
  ports s' !! p = Some r' → p_node_id r' = Some x → in_subtree s n x →
  port_in_subtree s n p.
Proof.
  intros Hs Hr' Hx Hin.
  destruct (same_rows_lookup _ _ _ _ Hs Hr') as (r & Hr & He).
  exists r, x. split_and!; [done| |done]. by rewrite (p_node_id_erase _ _ He).
Qed.

(** The rows a flipping cascade changes belong to the subtree of its
    root. *)
Lemma row_post_frame v n s s' :
  row_post v n s s' →
  (∀ k, chg (nodes s) (nodes s') k → in_subtree s n k) ∧
  (∀ p, chg (ports s) (ports s') p → port_in_subtree s n p) ∧
  (∀ x, chg (port_values s) (port_values s') x →
     ∃ r p, port_values s !! x = Some r ∧ v_port_id r = Some p ∧
            port_in_subtree s n p) ∧
  (∀ e, chg (edges s) (edges s') e →
     ∃ r p, edges s !! e = Some r ∧
            (e_from_port_id r = Some p ∨ e_to_port_id r = Some p) ∧
            port_in_subtree s n p) ∧
  (∀ t, chg (tags s) (tags s') t → in_subtree s n (tk_node_id t)).
Proof.
  intros (F & J & _ & _).
  assert (∀ k, chg (nodes s) (nodes s') k → in_subtree s n k) as Hn.
  { intros k Hc. by eapply creach_in_subtree, (j_nodes _ _ _ _ J). }
  assert (∀ p, chg (ports s) (ports s') p → port_in_subtree s n p) as Hp.
  { intros p (r & x & Hr & Hx & Hcx)%(j_ports _ _ _ _ J).
    exists r, x. split_and!; [done..|]. by apply Hn. }
  split_and!; [done..| | |].
  - intros x (r & p & Hr & Hpid & Hcp)%(j_port_values _ _ _ _ J).
    exists r, p. split_and!; [done..|]. by apply Hp.
  - intros e (r & p & Hr & Hinc & Hcp)%(j_edges _ _ _ _ J).
    exists r, p. split_and!; [done..|]. by apply Hp.
  - intros t Hc%(j_tags _ _ _ _ J). by apply Hn.
Qed.



(** ** The timestamp a cascade writes *)

(** X2: with a nesting limit above the number of nodes and a timestamp
    within the 64-bit integers, which the engine stores as given, a
    SetAlive on a node off target returns, and every row that differs
    afterwards was off target before and now holds exactly the deleted_at
    of the call: the one timestamp [ts] for every row a soft delete takes
    (rows deleted earlier keep the timestamp they had), NULL for every row
    a restore takes. *)
Theorem SetAlive_writes_one_timestamp limit n target ts s old :
  nodes s !! n = Some old → alive old ≠ target →
  (size (nodes s) < limit)%nat → int64 ts →
  ∃ s', SetAlive limit n target ts s = Some s' ∧
    nodes s' !! n = Some (set_deleted_at (target_value target ts) old) ∧
    sflips (target_value target ts) s s'.
Proof.
  intros Hn Ha Hsz _.
  destruct (SetAlive_total limit n target ts s Hsz) as [s' Hs'].
  exists s'. split; [done|].
  pose proof (SetAlive_flip _ _ _ _ _ _ _ Hn Ha Hs') as Hpost.
  pose proof Hpost as (F & _). split; [|done].
  assert (chg (nodes s) (nodes s') n) as Hc.
  { apply (row_post_walked _ _ _ _ _ Hpost). eapply creach_root; [done..|].
    by apply off_target_true_alive. }
  destruct (flips_chg _ _ _ _ (sf_nodes _ _ _ F) Hc) as (r & Hr & _ & Hr').
  congruence.
Qed.

Lemma SetAlive_writes_one_timestamp_witness :
  ∃ s', SetAlive 5 "A" false 9 family_b_deleted = Some s' ∧
    nodes s' !! "A"
      = Some (set_deleted_at (target_value false 9)
                (a_node "network" None)) ∧
    sflips (target_value false 9) family_b_deleted s'.
Proof.
  apply (SetAlive_writes_one_timestamp 5 "A" false 9 family_b_deleted).
  - by vm_compute.
  - discriminate.
  - vm_compute. lia.
  - unfold int64. lia.
Defined.

(** B was deleted at time 1; the delete of A at time 9 stamps A and its
    port, and B and C keep the 1. *)
Example earlier_timestamps_stay :
  (SetAlive 4 "A" false 9 family_b_deleted ≫= λ s',
     Some (deleted_at <$> nodes s' !! "A", deleted_at <$> ports s' !! "pA",
           deleted_at <$> nodes s' !! "B", deleted_at <$> nodes s' !! "C"))
  = Some (Some (Some 9), Some (Some 9), Some (Some 1), Some (Some 1)).
Proof. by vm_compute. Qed.

(** ** Soft delete and restore of one port *)

(** X3: when a port, all its values and all edges that have it at either
    end are alive, its soft delete followed by its restore gives back the
    very store. *)
Theorem SetPortAlive_delete_then_restore p ts ts' s old :
  ports s !! p = Some old → alive old = true →
  (∀ x r, port_values s !! x = Some r → v_port_id r = Some p →
     alive r = true) →
  (∀ e r, edges s !! e = Some r →
     e_from_port_id r = Some p ∨ e_to_port_id r = Some p → alive r = true) →
  SetPortAlive p true ts' (SetPortAlive p false ts s) = s.
Proof.
  intros Hp Ha Hvals Hedges.
  destruct (SetPortAlive_flip p false ts s old Hp) as (F1 & J1 & Hc1 & D1);
    [by rewrite Ha|].
  set (s1 := SetPortAlive p false ts s) in *.
  destruct (flips_chg _ _ _ _ (sf_ports _ _ _ F1) Hc1) as (r & Hr & _ & Hp1).
  rewrite Hp in Hr. injection Hr as <-.
  destruct (SetPortAlive_flip p true ts' s1 _ Hp1) as (F2 & J2 & Hc2 & D2).
  { unfold alive. by rewrite deleted_at_set. }
  set (s2 := SetPortAlive p true ts' s1) in *.
  simpl in F1, F2.
  apply store_ext.
  - by rewrite (pj_nodes _ _ _ J2), (pj_nodes _ _ _ J1).
  - eapply (flip_back ts); [apply F1|apply F2|..].
    + intros k <-%(pj_ports _ _ _ J1) r2 Hr2.
      destruct (flips_chg _ _ _ _ (sf_ports _ _ _ F2) Hc2)
        as (r1 & _ & _ & Hr2').
      rewrite Hr2 in Hr2'. injection Hr2' as ->. apply off_target_set.
    + intros k r <-%(pj_ports _ _ _ J2) Hr. congruence.
  - eapply (flip_back ts); [apply F1|apply F2|..].
    + intros x Hc r2 Hr2.
      destruct (pj_port_values _ _ _ J1 x Hc) as (r & q & Hr & Hq & Hcq).
      apply (pj_ports _ _ _ J1) in Hcq as <-.
      eapply (pd_port_values _ _ _ D2); [done|].
      destruct (same_rows_lookup _ _ _ _
        (same_rows_trans _ _ _
          (flips_same_rows _ _ _ (sf_port_values _ _ _ F1))
          (flips_same_rows _ _ _ (sf_port_values _ _ _ F2))) Hr2)
        as (r0 & Hr0 & He).
      rewrite Hr in Hr0. injection Hr0 as <-.
      by rewrite <- (v_port_id_erase _ _ He).
    + intros x r Hc Hr.
      destruct (pj_port_values _ _ _ J2 x Hc) as (r1 & q & Hr1 & Hq & Hcq).
      apply (pj_ports _ _ _ J2) in Hcq as <-.
      destruct (same_rows_lookup _ _ _ _
        (flips_same_rows _ _ _ (sf_port_values _ _ _ F1)) Hr1)
        as (r0 & Hr0 & He).
      rewrite Hr in Hr0. injection Hr0 as <-.
      eapply Hvals; [done|]. by rewrite (v_port_id_erase _ _ He).
  - eapply (flip_back ts); [apply F1|apply F2|..].
    + intros e Hc r2 Hr2.
      destruct (pj_edges _ _ _ J1 e Hc) as (r & q & Hr & Hq & Hcq).
      apply (pj_ports _ _ _ J1) in Hcq as <-.
      eapply (pd_edges _ _ _ D2); [done|].
      destruct (same_rows_lookup _ _ _ _
        (same_rows_trans _ _ _
          (flips_same_rows _ _ _ (sf_edges _ _ _ F1))
          (flips_same_rows _ _ _ (sf_edges _ _ _ F2))) Hr2)
        as (r0 & Hr0 & He).
      rewrite Hr in Hr0. injection Hr0 as <-.
      destruct (e_ports_erase _ _ He) as [<- <-]. done.
    + intros e r Hc Hr.
      destruct (pj_edges _ _ _ J2 e Hc) as (r1 & q & Hr1 & Hq & Hcq).
      apply (pj_ports _ _ _ J2) in Hcq as <-.
      destruct (same_rows_lookup _ _ _ _
        (flips_same_rows _ _ _ (sf_edges _ _ _ F1)) Hr1)
        as (r0 & Hr0 & He).
      rewrite Hr in Hr0. injection Hr0 as <-.
      eapply Hedges; [done|].
      destruct (e_ports_erase _ _ He) as [-> ->]. done.
  - by rewrite (pj_tags _ _ _ J2), (pj_tags _ _ _ J1).
Qed.

Lemma SetPortAlive_delete_then_restore_witness :
  SetPortAlive "pC" true 6 (SetPortAlive "pC" false 5 family) = family.
Proof.
  apply (SetPortAlive_delete_then_restore "pC" 5 6 family
           (Port None (Some "C") "output" "p" None)).
  - reflexivity.
  - reflexivity.
  - intros x r Hr _. revert x r Hr. apply (bool_decide_unpack _).
    by vm_compute.
  - intros e r Hr _. revert e r Hr. apply (bool_decide_unpack _).
    by vm_compute.
Defined.

(** ** Tag search with any number of predicates *)

Lemma length_remove_dups_le `{EqDecision A} (l : list A) :
  (length (remove_dups l) ≤ length l)%nat.
Proof.
  induction l as [|x l IH]; simpl; [done|].
  destruct (decide_rel _ _ _); simpl; lia.
Qed.

Lemma length_remove_dups_NoDup `{EqDecision A} (l : list A) :
  length (remove_dups l) = length l → NoDup l.
Proof.
  induction l as [|x l IH]; simpl; [constructor|].
  pose proof (length_remove_dups_le l).
  destruct (decide_rel _ _ _); simpl; [lia|].
  intros [= Hlen]. constructor; auto.
Qed.

Lemma length_remove_dups_mono `{EqDecision A} (l r : list A) :
  (∀ x, x ∈ l → x ∈ r) →
  (length (remove_dups l) ≤ length (remove_dups r))%nat.
Proof.
  intros Hsub. apply submseteq_length, NoDup_submseteq.
  - apply NoDup_remove_dups.
  - intros x. rewrite !elem_of_remove_dups. apply Hsub.
Qed.

(** A list drawn from a duplicate-free list [r] has as many distinct
    elements as [r] exactly when every element of [r] occurs in it. *)
Lemma length_remove_dups_all `{EqDecision A} (l r : list A) :
  NoDup r → (∀ x, x ∈ l → x ∈ r) →
  length (remove_dups l) = length r ↔ ∀ x, x ∈ r → x ∈ l.
Proof.
  intros Hr Hsub.
  assert (remove_dups l ⊆+ r) as Hle.
  { apply NoDup_submseteq; [apply NoDup_remove_dups|].
    intros x. rewrite elem_of_remove_dups. apply Hsub. }
  split.
  - intros Hlen x Hx. rewrite <- elem_of_remove_dups.
    assert (remove_dups l ≡ₚ r) as ->; [|done].
    apply submseteq_length_Permutation; [done|lia].
  - intros Hall. apply Nat.le_antisymm; [by apply submseteq_length|].
    apply submseteq_length, NoDup_submseteq; [done|].
    intros x. rewrite elem_of_remove_dups. apply Hall.
Qed.

Lemma matches_any_elem required (t : tag_key) :
  matches_any required t = true ↔ (tk_key t, tk_value t) ∈ required.
Proof.
  unfold matches_any. induction required as [|[k v] required IH]; simpl.
  - split; [done|]. by intros ?%elem_of_nil.
  - rewrite orb_true_iff, andb_true_iff, !bool_decide_eq_true, IH,
      elem_of_cons. split.
    + intros [[-> ->]|?]; auto.
    + intros [[= -> ->]|?]; auto.
Qed.

(** The matched tag rows of node [n], projected by [f]. *)
Lemma elem_of_matched {B} (f : tag_key → B) required s n (y : B) :
  y ∈ f <$> filter (λ k, tk_node_id k = n)
              (filter (λ k, matches_any required k = true)
                      (map_to_list (tags s)).*1) ↔
  ∃ k v, (k, v) ∈ required ∧ is_Some (tags s !! (n, k, v)) ∧
         y = f (n, k, v).
Proof.
  rewrite list_elem_of_fmap. split.
  - intros ([[n' k] v] & -> & [Hn [Hm Hin]%list_elem_of_filter]
      %list_elem_of_filter).
    apply matches_any_elem in Hm. apply elem_of_map_keys in Hin.
    unfold tk_node_id, tk_key, tk_value in *. simpl in *. subst n'.
    by exists k, v.
  - intros (k & v & Hreq & Hex & ->). exists (n, k, v). split; [done|].
    rewrite !list_elem_of_filter, matches_any_elem, elem_of_map_keys.
    done.
Qed.

Lemma elem_of_matched_nodes required s n :
  n ∈ remove_dups (tk_node_id <$>
        filter (λ k, matches_any required k = true)
               (map_to_list (tags s)).*1) ↔
  ∃ k v, (k, v) ∈ required ∧ is_Some (tags s !! (n, k, v)).
Proof.
  rewrite elem_of_remove_dups, list_elem_of_fmap. split.
  - intros ([[n' k] v] & -> & [Hm Hin]%list_elem_of_filter).
    apply matches_any_elem in Hm. apply elem_of_map_keys in Hin.
    by exists k, v.
  - intros (k & v & Hreq & Hex). exists (n, k, v). split; [done|].
    by rewrite list_elem_of_filter, matches_any_elem, elem_of_map_keys.
Qed.

Lemma NoDup_fst_inj {A B} (l : list (A * B)) a b b' :
  NoDup l.*1 → (a, b) ∈ l → (a, b') ∈ l → b = b'.
Proof.
  induction l as [|[c d] l IH]; [by intros _ ?%elem_of_nil|].
  rewrite fmap_cons, NoDup_cons, !elem_of_cons. simpl.
  intros [Hc Hnd] [H1|H1] [H2|H2]; simplify_eq; auto.
  - destruct Hc. apply list_elem_of_fmap. by exists (c, b').
  - destruct Hc. apply list_elem_of_fmap. by exists (c, b).
Qed.

(** The [HAVING] conditions: when the predicates are pairwise different,
    the distinct matched pairs of [n] are as many as the predicates exactly
    when [n] has a row for each; for distinct matched keys the predicates
    must have pairwise different keys. *)
Lemma pair_count_all required s n :
  NoDup required →
  length (remove_dups
    ((λ k, (tk_key k, tk_value k))
       <$> filter (λ k, tk_node_id k = n)
             (filter (λ k, matches_any required k = true)
                     (map_to_list (tags s)).*1)))
    = length required ↔
  ∀ k v, (k, v) ∈ required → is_Some (tags s !! (n, k, v)).
Proof.
  intros Hnd. rewrite (length_remove_dups_all _ required Hnd).
  - split.
    + intros Hall k' v'
        (k'' & v'' & _ & Hex & [= -> ->])%Hall%elem_of_matched. done.
    + intros Hall [k v] Hreq. apply elem_of_matched. exists k, v. auto.
  - intros x (k & v & Hreq & _ & ->)%elem_of_matched. done.
Qed.

Lemma key_count_all required s n :
  NoDup required.*1 →
  length (remove_dups
    (tk_key <$> filter (λ k, tk_node_id k = n)
                  (filter (λ k, matches_any required k = true)
                          (map_to_list (tags s)).*1)))
    = length required ↔
  ∀ k v, (k, v) ∈ required → is_Some (tags s !! (n, k, v)).
Proof.
  intros Hnd. rewrite <- (length_fmap fst required).
  rewrite (length_remove_dups_all _ (required.*1) Hnd).
  - split.
    + intros Hall k' v' Hreq'.
      assert (k' ∈ required.*1) as Hk'
        by (apply list_elem_of_fmap; by exists (k', v')).
      apply Hall, elem_of_matched in Hk' as (k'' & v'' & Hreq'' & Hex & Hk).
      unfold tk_key in Hk. simpl in Hk. subst k''.
      by rewrite (NoDup_fst_inj _ _ _ _ Hnd Hreq' Hreq'').
    + intros Hall k ([k' v] & -> & Hreq)%list_elem_of_fmap.
      apply elem_of_matched. exists k', v. auto.
  - intros x (k & v & Hreq & _ & ->)%elem_of_matched.
    apply list_elem_of_fmap. by exists (k, v).
Qed.

Lemma all_matched_nodes required s n :
  (∀ k v, (k, v) ∈ required → is_Some (tags s !! (n, k, v))) →
  required ≠ [] ↔
  ∃ k v, (k, v) ∈ required ∧ is_Some (tags s !! (n, k, v)).
Proof.
  intros Hall. split.
  - destruct required as [|[k v] required]; [done|]. intros _.
    exists k, v. split; [left|apply Hall; left].
  - intros (k & v & Hreq & _) ->. by apply elem_of_nil in Hreq.
Qed.

Lemma filtered_nodes_elem required s n :
  NoDup required →
  n ∈ filtered_nodes required s ↔
  required ≠ [] ∧ ∀ k v, (k, v) ∈ required → is_Some (tags s !! (n, k, v)).
Proof.
  intros Hnd. unfold filtered_nodes. cbv zeta.
  rewrite list_elem_of_filter, elem_of_matched_nodes, pair_count_all by done.
  split; intros [H1 H2]; (split; [|done]) || (split; [done|]);
    by apply (all_matched_nodes _ s n).
Qed.

Lemma find_by_tags_elem required s n :
  NoDup required.*1 →
  n ∈ find_by_tags required s ↔
  required ≠ [] ∧ ∀ k v, (k, v) ∈ required → is_Some (tags s !! (n, k, v)).
Proof.
  intros Hnd. unfold find_by_tags. cbv zeta.
  rewrite list_elem_of_filter, elem_of_matched_nodes, key_count_all by done.
  split; intros [H1 H2]; (split; [|done]) || (split; [done|]);
    by apply (all_matched_nodes _ s n).
Qed.

Lemma find_by_tags_NoDup required s : NoDup (find_by_tags required s).
Proof. apply NoDup_filter, NoDup_remove_dups. Qed.

Lemma filtered_nodes_NoDup required s : NoDup (filtered_nodes required s).
Proof. apply NoDup_filter, NoDup_remove_dups. Qed.

Lemma filter_none {A} (P : A → Prop) `{∀ x, Decision (P x)} (l : list A) :
  (∀ x, x ∈ l → ¬ P x) → filter P l = [].
Proof.
  intros Hl. apply elem_of_nil_inv. intros x [HP Hx]%list_elem_of_filter.
  by apply (Hl x).
Qed.

(** X4: for predicates on pairwise different keys the search returns, each
    once, exactly the nodes that have a tag row for every predicate,
    whatever the deleted_at of those rows; with no predicate at all it
    returns nothing. *)
Theorem find_by_tags_distinct_keys required s :
  NoDup required.*1 →
  NoDup (find_by_tags required s) ∧
  ∀ n, n ∈ find_by_tags required s ↔
       required ≠ [] ∧
       ∀ k v, (k, v) ∈ required → is_Some (tags s !! (n, k, v)).
Proof.
  intros Hnd. split; [apply find_by_tags_NoDup|].
  intros n. by apply find_by_tags_elem.
Qed.

Lemma find_by_tags_distinct_keys_witness :
  NoDup [("category", "medium"); ("zone", "a")].*1 ∧
  ("C" ∈ find_by_tags [("category", "medium"); ("zone", "a")] family_a_dead ↔
   [("category", "medium"); ("zone", "a")] ≠ [] ∧
   ∀ k v, (k, v) ∈ [("category", "medium"); ("zone", "a")] →
          is_Some (tags family_a_dead !! ("C", k, v))).
Proof.
  assert (NoDup [("category", "medium"); ("zone", "a")].*1) as Hnd.
  { simpl. apply (bool_decide_unpack _). by vm_compute. }
  split; [done|].
  apply (find_by_tags_distinct_keys _ family_a_dead Hnd).
Defined.

(** X5: as soon as two predicates share a key (or one predicate is given
    twice) the search returns no node at all, on every store: a node has at
    most as many distinct matched keys as the predicates have distinct
    keys, which is fewer than the number the HAVING clause asks for. *)
Theorem find_by_tags_shared_key required s :
  ¬ NoDup required.*1 → find_by_tags required s = [].
Proof.
  intros Hdup. unfold find_by_tags. cbv zeta. apply filter_none.
  intros n _ Hlen. apply Hdup, length_remove_dups_NoDup.
  apply Nat.le_antisymm; [apply length_remove_dups_le|].
  rewrite length_fmap, <- Hlen. apply length_remove_dups_mono.
  intros k (k' & v & Hreq & _ & ->)%elem_of_matched.
  apply list_elem_of_fmap. by exists (k', v).
Qed.

Lemma find_by_tags_shared_key_witness :
  ¬ NoDup [("zone", "a"); ("zone", "b")].*1 ∧
  find_by_tags [("zone", "a"); ("zone", "b")] family = [].
Proof.
  assert (¬ NoDup [("zone", "a"); ("zone", "b")].*1) as Hdup.
  { simpl. apply (bool_decide_unpack _). by vm_compute. }
  split; [done|]. apply (find_by_tags_shared_key _ family Hdup).
Defined.

(** X6: the grouping of the key-only variant counts distinct
    (tag_key, tag_value) pairs, so for pairwise different predicates, keys
    shared or not, it returns each once exactly the nodes that have a tag
    row for every predicate; on predicates with pairwise different keys it
    returns the very list of the search that counts distinct keys. *)
Theorem filtered_nodes_counts_pairs required s :
  NoDup required →
  NoDup (filtered_nodes required s) ∧
  (∀ n, n ∈ filtered_nodes required s ↔
        required ≠ [] ∧
        ∀ k v, (k, v) ∈ required → is_Some (tags s !! (n, k, v))) ∧
  (NoDup required.*1 → filtered_nodes required s = find_by_tags required s).
Proof.
  intros Hnd. split; [apply filtered_nodes_NoDup|].
  split; [intros n; by apply filtered_nodes_elem|].
  intros Hkeys. unfold filtered_nodes, find_by_tags. cbv zeta.
  apply list_filter_iff. intros n.
  rewrite key_count_all, pair_count_all; done.
Qed.

Lemma filtered_nodes_counts_pairs_witness :
  NoDup [("zone", "a"); ("zone", "b")] ∧
  ("C" ∈ filtered_nodes [("zone", "a"); ("zone", "b")] family ↔
   [("zone", "a"); ("zone", "b")] ≠ [] ∧
   ∀ k v, (k, v) ∈ [("zone", "a"); ("zone", "b")] →
          is_Some (tags family !! ("C", k, v))).
Proof.
  assert (NoDup [("zone", "a"); ("zone", "b")]) as Hnd.
  { apply (bool_decide_unpack _). by vm_compute. }
  split; [done|].
  apply (filtered_nodes_counts_pairs _ family Hnd).
Defined.

(** X7: the key-only variant returns, each once, the pairs of a node row
    and one of its tag rows such that the tag row has the given key and the
    node has a tag row for every (key, value) predicate: one result row per
    value the node has under that key. *)
Theorem find_by_tags_and_key_rows required key s :
  NoDup required →
  NoDup (find_by_tags_and_key required key s) ∧
  ∀ n r t tr,
    ((n, r), (t, tr)) ∈ find_by_tags_and_key required key s ↔
    nodes s !! n = Some r ∧ tags s !! t = Some tr ∧
    tk_node_id t = n ∧ tk_key t = key ∧
    required ≠ [] ∧
    ∀ k v, (k, v) ∈ required → is_Some (tags s !! (n, k, v)).
Proof.
  intros Hnd. unfold find_by_tags_and_key. split.
  - apply NoDup_bind; [| |apply NoDup_map_to_list].
    + intros nd1 nd2 [nd tg] _ _.
      intros (fn & (tg1 & [= -> _]%list_elem_of_singleton & _)
              %list_elem_of_bind & _)%list_elem_of_bind.
      by intros (fn' & (tg2 & [= -> _]%list_elem_of_singleton & _)
              %list_elem_of_bind & _)%list_elem_of_bind.
    + intros nd _. apply NoDup_bind.
      * intros fn1 fn2 y [<- _]%list_elem_of_filter
          [<- _]%list_elem_of_filter. done.
      * intros fn _. apply NoDup_bind.
        { by intros tg1 tg2 y _ _ [= ->]%list_elem_of_singleton
            [= ->]%list_elem_of_singleton. }
        { intros. apply NoDup_singleton. }
        apply NoDup_filter, NoDup_map_to_list.
      * apply NoDup_filter, filtered_nodes_NoDup.
  - intros n r t tr. rewrite list_elem_of_bind. split.
    + intros ([n' r'] & (fn & (tg & [= <- <- <-]%list_elem_of_singleton
        & [[Hn Hk] Htg%elem_of_map_to_list]%list_elem_of_filter)
        %list_elem_of_bind & [Hfn Hin]%list_elem_of_filter)
        %list_elem_of_bind & Hnd'%elem_of_map_to_list).
      simpl in *. subst fn.
      apply filtered_nodes_elem in Hin as [Hne Hall]; [|done].
      by split_and!.
    + intros (Hr & Ht & Hn & Hk & Hne & Hall). exists (n, r).
      split; [|by apply elem_of_map_to_list].
      apply list_elem_of_bind. exists n. split.
      * apply list_elem_of_bind. exists (t, tr).
        split; [by apply list_elem_of_singleton|].
        apply list_elem_of_filter. split; [done|].
        by apply elem_of_map_to_list.
      * apply list_elem_of_filter. split; [done|].
        by apply filtered_nodes_elem.
Qed.

Lemma find_by_tags_and_key_rows_witness :
  NoDup [("category", "medium")] ∧
  ((("C", a_node "point" (Some "B")), (("C", "zone", "a"), Tag None))
     ∈ find_by_tags_and_key [("category", "medium")] "zone" family ↔
   nodes family !! "C" = Some (a_node "point" (Some "B")) ∧
   tags family !! ("C", "zone", "a") = Some (Tag None) ∧
   tk_node_id ("C", "zone", "a") = "C" ∧ tk_key ("C", "zone", "a") = "zone" ∧
   [("category", "medium")] ≠ [] ∧
   ∀ k v, (k, v) ∈ [("category", "medium")] →
          is_Some (tags family !! ("C", k, v))).
Proof.
  assert (NoDup [("category", "medium")]) as Hnd by apply NoDup_singleton.
  split; [done|].
  apply (find_by_tags_and_key_rows _ "zone" family Hnd).
Defined.

(** X8: the single tag search returns, each once, exactly the node rows
    whose id has a tag row (k, v), soft-deleted or not; its ids are those
    of the grouped search with the one predicate (k, v) that name a row of
    nodes. *)
Theorem nodes_tagged_rows k v s :
  NoDup (nodes_tagged k v s) ∧
  (∀ n r, (n, r) ∈ nodes_tagged k v s ↔
          nodes s !! n = Some r ∧ is_Some (tags s !! (n, k, v))) ∧
  (∀ n, n ∈ (nodes_tagged k v s).*1 ↔
        is_Some (nodes s !! n) ∧ n ∈ find_by_tags [(k, v)] s).
Proof.
  assert (∀ n r, (n, r) ∈ nodes_tagged k v s ↔
            nodes s !! n = Some r ∧ is_Some (tags s !! (n, k, v))) as Hrows.
  { intros n r. unfold nodes_tagged.
    rewrite list_elem_of_filter, elem_of_map_to_list, list_elem_of_fmap.
    simpl. split.
    - intros [([[n' k'] v'] & -> & [[Hk Hv] Hin%elem_of_map_keys]
        %list_elem_of_filter) Hr].
      unfold tk_node_id, tk_key, tk_value in *. simpl in *. by subst.
    - intros [Hr Hex]. split; [|done]. exists (n, k, v). split; [done|].
      apply list_elem_of_filter. split; [done|]. by apply elem_of_map_keys. }
  split; [apply NoDup_filter, NoDup_map_to_list|]. split; [done|].
  intros n. rewrite find_by_tags_elem by apply NoDup_singleton.
  rewrite list_elem_of_fmap. split.
  - intros ([n' r] & -> & [Hr Hex]%Hrows). split; [by exists r|].
    split; [done|]. by intros k' v' [= -> ->]%list_elem_of_singleton.
  - intros [[r Hr] [_ Hall]]. exists (n, r). split; [done|].
    apply Hrows. split; [done|]. apply Hall, list_elem_of_singleton. done.
Qed.

(** ** The rows of the hierarchy query *)

Lemma at_depth_exists s root l k :
  at_depth s root l k → is_Some (nodes s !! k).
Proof. intros [?|l' x k' _ (r & Hr & _)]; [done|by exists r]. Qed.

Lemma at_depth_in_subtree s root l k :
  at_depth s root l k → in_subtree s root k.
Proof.
  induction 1 as [|l x k _ IH Hp]; [apply rtc_refl|].
  by eapply rtc_l.
Qed.

Lemma in_subtree_at_depth s root k :
  is_Some (nodes s !! root) → in_subtree s root k →
  ∃ l, at_depth s root l k.
Proof.
  intros Hroot Hsub. unfold in_subtree in Hsub.
  induction Hsub as [k|k x root Hp _ IH].
  - exists 0%nat. by constructor.
  - destruct (IH Hroot) as [l Hl]. exists (S l). by econstructor.
Qed.

Lemma rec_cte_elem fuel step work rows :
  step [] = [] →
  rec_cte fuel step work = Some rows →
  ∀ x, x ∈ rows ↔ ∃ i, x ∈ Nat.iter i step work.
Proof.
  intros Hnil.
  assert (∀ i, Nat.iter i step [] = []) as Hiter.
  { induction i as [|i IH]; simpl; [done|]. by rewrite IH. }
  revert work rows. induction fuel as [|f IH]; intros work rows.
  - destruct work; simpl; [|done]. intros [= <-] x. split.
    + by intros ?%elem_of_nil.
    + intros [i Hx]. rewrite Hiter in Hx. by apply elem_of_nil in Hx.
  - destruct work as [|y work]; simpl.
    { intros [= <-] x. split; [by intros ?%elem_of_nil|].
      intros [i Hx]. rewrite Hiter in Hx. by apply elem_of_nil in Hx. }
    destruct (rec_cte f step (step (y :: work))) as [rest|] eqn:Hrest;
      [|done]. simpl. intros [= <-] x.
    change (x ∈ (y :: work) ++ rest ↔ ∃ i, x ∈ Nat.iter i step (y :: work)).
    rewrite elem_of_app, (IH _ _ Hrest). split.
    + intros [Hx|[i Hx]]; [by exists 0%nat|].
      exists (S i). by rewrite Nat.iter_succ_r.
    + intros [[|i] Hx]; [by left|]. right. exists i.
      by rewrite <- Nat.iter_succ_r.
Qed.

Lemma recursive_term_nil bound s : recursive_term bound s [] = [].
Proof. done. Qed.

(** Round [i] of the recursion holds the nodes [i] links below the root,
    provided the bound let every earlier round through. *)
Lemma iter_recursive_term bound s root i x :
  x ∈ Nat.iter i (recursive_term bound s) (anchor root s) ↔
  ∃ k r, at_depth s root i k ∧ nodes s !! k = Some r ∧
         (∀ j, (j < i)%nat → bound (Z.of_nat j) = true) ∧
         x = hrow_of k r (Z.of_nat i).
Proof.
  revert x. induction i as [|i IH]; intros x.
  - simpl. rewrite elem_of_anchor. split.
    + intros (r & Hr & ->). exists root, r. split_and!; [|done| |done].
      * by constructor.
      * intros; lia.
    + intros (k & r & Hd & Hr & _ & ->). inversion Hd; subst. by exists r.
  - simpl. rewrite elem_of_recursive_term. split.
    + intros (nh & k & r & (k0 & r0 & Hd & Hr0 & Hb & ->)%IH & Hbi & Hr & Hp
              & ->).
      simpl in *. exists k, r. split_and!; [|done| |].
      * econstructor; [done|]. by exists r.
      * intros j Hj. destruct (decide (j = i)) as [->|]; [done|].
        apply Hb. lia.
      * unfold hrow_of. f_equal. lia.
    + intros (k & r & Hd & Hr & Hb & ->).
      inversion Hd as [|l x0 k' Hd0 (r' & Hr' & Hp)]; subst.
      destruct (at_depth_exists _ _ _ _ Hd0) as [r0 Hr0].
      exists (hrow_of x0 r0 (Z.of_nat i)), k, r. simpl.
      rewrite Hr in Hr'. injection Hr' as <-.
      split_and!; [|by apply Hb; lia|done|done|unfold hrow_of; f_equal; lia].
      apply IH. exists x0, r0. split_and!; [done..| |done].
      intros j Hj. apply Hb. lia.
Qed.

Lemma nodes_hierarchy_elem bound fuel root D s rows x :
  nodes_hierarchy bound fuel root D s = Some rows →
  x ∈ rows ↔
  ∃ (l : nat) k r, at_depth s root l k ∧ nodes s !! k = Some r ∧
         (∀ j, (j < l)%nat → bound (Z.of_nat j) D = true) ∧
         x = hrow_of k r (Z.of_nat l).
Proof.
  intros Hrows. unfold nodes_hierarchy in Hrows.
  rewrite (rec_cte_elem _ _ _ _ (recursive_term_nil _ s) Hrows). split.
  - intros [i (k & r & ?)%iter_recursive_term]. by exists i, k, r.
  - intros (i & k & r & ?). exists i. apply iter_recursive_term.
    by exists k, r.
Qed.

(** *** No row twice *)

Lemma hrow_of_NoDup s l (P : string * node → Prop)
    `{!∀ kr, Decision (P kr)} :
  NoDup ((λ kr, hrow_of kr.1 kr.2 l) <$> filter P (map_to_list (nodes s))).
Proof.
  apply NoDup_fmap_2_strong; [|apply NoDup_filter, NoDup_map_to_list].
  intros [k r] [k' r'] [_ Hr%elem_of_map_to_list]%list_elem_of_filter
    [_ Hr'%elem_of_map_to_list]%list_elem_of_filter [= -> _]. simpl in *.
  congruence.
Qed.

Lemma recursive_term_NoDup bound s w l :
  NoDup w → level_rows s l w → NoDup (recursive_term bound s w).
Proof.
  intros Hnd Hw. unfold recursive_term. apply NoDup_bind; [| |done].
  - intros nh1 nh2 y H1 H2 Hy1 Hy2.
    destruct (bound (h_level nh1)); [|by apply elem_of_nil in Hy1].
    destruct (bound (h_level nh2)); [|by apply elem_of_nil in Hy2].
    apply list_elem_of_fmap in Hy1
      as ([k1 r1] & -> & [Hp1 Hr1%elem_of_map_to_list]%list_elem_of_filter).
    apply list_elem_of_fmap in Hy2
      as ([k2 r2] & [= <- _] & [Hp2 Hr2%elem_of_map_to_list]
            %list_elem_of_filter).
    simpl in *. rewrite Hr1 in Hr2. injection Hr2 as <-.
    rewrite Hp1 in Hp2. injection Hp2 as Hid.
    destruct (Hw _ H1) as (r & Hr & E1), (Hw _ H2) as (r' & Hr' & E2).
    rewrite E1, E2. rewrite <- Hid in Hr'. rewrite Hr in Hr'.
    injection Hr' as <-. by rewrite Hid.
  - intros nh _. destruct (bound (h_level nh)); [|constructor].
    apply (hrow_of_NoDup s (h_level nh + 1)).
Qed.

Lemma recursive_term_level_rows bound s w l :
  level_rows s l w → level_rows s (l + 1) (recursive_term bound s w).
Proof.
  intros Hw x (nh & k & r & Hnh & _ & Hr & _ & ->)%elem_of_recursive_term.
  destruct (Hw _ Hnh) as (r0 & _ & ->). simpl. by exists r.
Qed.

Lemma rec_cte_NoDup fuel bound s w l rows :
  NoDup w → level_rows s l w →
  rec_cte fuel (recursive_term bound s) w = Some rows →
  NoDup rows ∧ ∀ x, x ∈ rows → l ≤ h_level x.
Proof.
  revert w l rows. induction fuel as [|f IH]; intros w l rows Hnd Hw.
  - destruct w; simpl; [|done]. intros [= <-].
    split; [constructor|]. by intros x ?%elem_of_nil.
  - destruct w as [|y w]; simpl.
    { intros [= <-]. split; [constructor|]. by intros x ?%elem_of_nil. }
    destruct (rec_cte f _ _) as [rest|] eqn:Hrest; [|done]. simpl.
    intros [= <-].
    destruct (IH _ (l + 1) _
      (recursive_term_NoDup bound s _ l Hnd Hw)
      (recursive_term_level_rows bound s _ l Hw) Hrest) as [Hnd' Hlev].
    change (NoDup ((y :: w) ++ rest) ∧
            ∀ x, x ∈ (y :: w) ++ rest → l ≤ h_level x). split.
    + apply NoDup_app. split_and!; [done| |done].
      intros x Hx Hx'. destruct (Hw _ Hx) as (r & _ & E).
      apply Hlev in Hx'. rewrite E in Hx'. simpl in Hx'. lia.
    + intros x [Hx|Hx%Hlev]%elem_of_app; [|lia].
      destruct (Hw _ Hx) as (r & _ & ->). simpl. lia.
Qed.

Lemma anchor_level_rows root s : level_rows s 0 (anchor root s).
Proof. intros x (r & Hr & ->)%elem_of_anchor. by exists r. Qed.

Lemma anchor_NoDup root s : NoDup (anchor root s).
Proof.
  unfold anchor. destruct (nodes s !! root); [apply NoDup_singleton|].
  constructor.
Qed.

Lemma nodes_hierarchy_NoDup bound fuel root D s rows :
  nodes_hierarchy bound fuel root D s = Some rows → NoDup rows.
Proof.
  intros Hrows.
  by destruct (rec_cte_NoDup _ _ _ _ 0 _ (anchor_NoDup root s)
                 (anchor_level_rows root s) Hrows).
Qed.

(** X9: with enough rounds the query with [nh.level < D] returns, each
    once, exactly the rows (k, level l) such that k lies l parent links
    below the root and l <= D, plus the root at level 0 whatever D is (a
    negative D is no error and yields the root alone). *)
Theorem nodes_hierarchy_pg_rows fuel root D s :
  (Z.to_nat D < fuel)%nat →
  ∃ rows, nodes_hierarchy_pg fuel root D s = Some rows ∧ NoDup rows ∧
    ∀ x, x ∈ rows ↔
      ∃ (l : nat) k r, at_depth s root l k ∧ nodes s !! k = Some r ∧
        (l = 0%nat ∨ Z.of_nat l ≤ D) ∧ x = hrow_of k r (Z.of_nat l).
Proof.
  intros Hf. destruct (nodes_hierarchy_pg_total fuel root D s Hf)
    as [rows Hrows].
  exists rows. split; [done|]. split; [by eapply nodes_hierarchy_NoDup|].
  intros x. unfold nodes_hierarchy_pg in Hrows.
  rewrite (nodes_hierarchy_elem _ _ _ _ _ _ x Hrows).
  apply exist_proper; intros l. apply exist_proper; intros k.
  apply exist_proper; intros r.
  do 2 (apply and_iff_compat_l). apply and_iff_compat_r.
  setoid_rewrite bool_decide_eq_true. split.
  - intros Hb. destruct l as [|l]; [by left|]. right.
    specialize (Hb l). lia.
  - intros [->|Hl] j Hj; lia.
Qed.

Lemma nodes_hierarchy_pg_rows_witness :
  (Z.to_nat 3 < 5)%nat ∧
  ∃ rows, nodes_hierarchy_pg 5 "n0" 3 chain = Some rows ∧ NoDup rows ∧
    ∀ x, x ∈ rows ↔
      ∃ (l : nat) k r, at_depth chain "n0" l k ∧ nodes chain !! k = Some r ∧
        (l = 0%nat ∨ Z.of_nat l ≤ 3) ∧ x = hrow_of k r (Z.of_nat l).
Proof.
  assert (Z.to_nat 3 < 5)%nat as Hf by (vm_compute; lia).
  split; [done|]. apply (nodes_hierarchy_pg_rows 5 "n0" 3 chain Hf).
Defined.

(** X10: the SQLite README's query with [level <= D] returns, each once,
    exactly the rows (k, level l) such that k lies l parent links below the
    root and l <= D + 1, plus the root at level 0: one level more than the
    query with [nh.level < D]. *)
Theorem nodes_hierarchy_sqlite_rows fuel root D s :
  (Z.to_nat (D + 1) < fuel)%nat →
  ∃ rows, nodes_hierarchy_sqlite fuel root D s = Some rows ∧ NoDup rows ∧
    ∀ x, x ∈ rows ↔
      ∃ (l : nat) k r, at_depth s root l k ∧ nodes s !! k = Some r ∧
        (l = 0%nat ∨ Z.of_nat l ≤ D + 1) ∧ x = hrow_of k r (Z.of_nat l).
Proof.
  intros Hf. destruct (nodes_hierarchy_sqlite_total fuel root D s Hf)
    as [rows Hrows].
  exists rows. split; [done|]. split; [by eapply nodes_hierarchy_NoDup|].
  intros x. unfold nodes_hierarchy_sqlite in Hrows.
  rewrite (nodes_hierarchy_elem _ _ _ _ _ _ x Hrows).
  apply exist_proper; intros l. apply exist_proper; intros k.
  apply exist_proper; intros r.
  do 2 (apply and_iff_compat_l). apply and_iff_compat_r.
  setoid_rewrite bool_decide_eq_true. split.
  - intros Hb. destruct l as [|l]; [by left|]. right.
    specialize (Hb l). lia.
  - intros [->|Hl] j Hj; lia.
Qed.

Lemma nodes_hierarchy_sqlite_rows_witness :
  (Z.to_nat (3 + 1) < 6)%nat ∧
  ∃ rows, nodes_hierarchy_sqlite 6 "n0" 3 chain = Some rows ∧ NoDup rows ∧
    ∀ x, x ∈ rows ↔
      ∃ (l : nat) k r, at_depth chain "n0" l k ∧ nodes chain !! k = Some r ∧
        (l = 0%nat ∨ Z.of_nat l ≤ 3 + 1) ∧ x = hrow_of k r (Z.of_nat l).
Proof.
  assert (Z.to_nat (3 + 1) < 6)%nat as Hf by (vm_compute; lia).
  split; [done|]. apply (nodes_hierarchy_sqlite_rows 6 "n0" 3 chain Hf).
Defined.

(** *** The query written level by level *)

Lemma elem_of_level_cte lv prev s x :
  x ∈ level_cte lv prev s ↔
  ∃ k r nh, nodes s !! k = Some r ∧ nh ∈ prev ∧
            n_parent_id r = Some (h_id nh) ∧ x = hrow_of k r lv.
Proof.
  unfold level_cte. rewrite list_elem_of_fmap. split.
  - intros ([k r] & -> & [Hin Hr%elem_of_map_to_list]%list_elem_of_filter).
    simpl in *. unfold is_in in Hin.
    destruct (n_parent_id r) as [p|] eqn:Hp; [|done].
    apply bool_decide_eq_true, list_elem_of_fmap in Hin as (nh & -> & Hnh).
    by exists k, r, nh.
  - intros (k & r & nh & Hr & Hnh & Hp & ->). exists (k, r).
    split; [done|]. apply list_elem_of_filter.
    split; [|by apply elem_of_map_to_list]. simpl. rewrite Hp. simpl.
    apply bool_decide_eq_true, list_elem_of_fmap. by exists nh.
Qed.

Lemma level_cte_depth s root l lv lv' prev :
  (∀ y, y ∈ prev ↔
        ∃ k r, at_depth s root l k ∧ nodes s !! k = Some r ∧
               y = hrow_of k r lv) →
  ∀ x, x ∈ level_cte lv' prev s ↔
       ∃ k r, at_depth s root (S l) k ∧ nodes s !! k = Some r ∧
              x = hrow_of k r lv'.
Proof.
  intros Hprev x. rewrite elem_of_level_cte. split.
  - intros (k & r & nh & Hr & (k0 & r0 & Hd & _ & ->)%Hprev & Hp & ->).
    exists k, r. split_and!; [|done..]. econstructor; [done|]. by exists r.
  - intros (k & r & Hd & Hr & ->).
    inversion Hd as [|l' x0 k' Hd0 (r' & Hr' & Hp)]; subst.
    rewrite Hr in Hr'. injection Hr' as <-.
    destruct (at_depth_exists _ _ _ _ Hd0) as [r0 Hr0].
    exists k, r, (hrow_of x0 r0 lv). split_and!; [done| |done..].
    apply Hprev. by exists x0, r0.
Qed.

Lemma level_cte_NoDup lv prev s : NoDup (level_cte lv prev s).
Proof. apply (hrow_of_NoDup s lv). Qed.

(** X11: the query written level by level (base, level_1, level_2,
    level_3) returns the same rows, as a multiset, as the recursive query
    with [nh.level < 3]. *)
Theorem nodes_hierarchy_levels_pg fuel root s :
  (3 < fuel)%nat →
  ∃ rows, nodes_hierarchy_pg fuel root 3 s = Some rows ∧
          nodes_hierarchy_levels root s ≡ₚ rows.
Proof.
  intros Hf.
  destruct (nodes_hierarchy_pg_total fuel root 3 s) as [rows Hrows];
    [by rewrite Z2Nat.inj_pos|].
  exists rows. split; [done|].
  assert (∀ y, y ∈ anchor root s ↔
            ∃ k r, at_depth s root 0 k ∧ nodes s !! k = Some r ∧
                   y = hrow_of k r 0) as H0.
  { intros y. rewrite elem_of_anchor. split.
    - intros (r & Hr & ->). exists root, r. split_and!; [|done..].
      by constructor.
    - intros (k & r & Hd & Hr & ->). inversion Hd; subst. by exists r. }
  pose proof (level_cte_depth s root 0 0 1 _ H0) as H1.
  pose proof (level_cte_depth s root 1 1 2 _ H1) as H2.
  pose proof (level_cte_depth s root 2 2 3 _ H2) as H3.
  unfold nodes_hierarchy_levels. cbv zeta.
  apply NoDup_Permutation.
  - rewrite !NoDup_app.
    split_and!; try apply level_cte_NoDup; try apply anchor_NoDup.
    + intros x (k & r & _ & _ & ->)%H0.
      rewrite !elem_of_app, H1, H2, H3.
      by intros [(? & ? & _ & _ & [=])|[(? & ? & _ & _ & [=])|
                 (? & ? & _ & _ & [=])]].
    + intros x (k & r & _ & _ & ->)%H1.
      rewrite !elem_of_app, H2, H3.
      by intros [(? & ? & _ & _ & [=])|(? & ? & _ & _ & [=])].
    + intros x (k & r & _ & _ & ->)%H2. rewrite H3.
      by intros (? & ? & _ & _ & [=]).
  - by eapply nodes_hierarchy_NoDup.
  - intros x. unfold nodes_hierarchy_pg in Hrows.
    rewrite (nodes_hierarchy_elem _ _ _ _ _ _ x Hrows).
    rewrite !elem_of_app, H0, H1, H2, H3. split.
    + intros [(k & r & ?)|[(k & r & ?)|[(k & r & ?)|(k & r & ?)]]];
        [exists 0%nat|exists 1%nat|exists 2%nat|exists 3%nat];
        exists k, r; (split_and!; [tauto|tauto| |tauto]);
        intros j Hj; apply bool_decide_eq_true; lia.
    + intros (l & k & r & Hd & Hr & Hb & ->).
      assert (l ≤ 3)%nat as Hl.
      { destruct (decide (l ≤ 3)%nat) as [|Hgt]; [done|].
        specialize (Hb 3%nat). rewrite bool_decide_eq_true in Hb. lia. }
      destruct l as [|[|[|[|l]]]]; [| | | |lia].
      * left. by exists k, r.
      * right; left. by exists k, r.
      * right; right; left. by exists k, r.
      * right; right; right. by exists k, r.
Qed.

Lemma nodes_hierarchy_levels_pg_witness :
  (3 < 4)%nat ∧
  ∃ rows, nodes_hierarchy_pg 4 "n0" 3 chain = Some rows ∧
          nodes_hierarchy_levels "n0" chain ≡ₚ rows.
Proof.
  assert (3 < 4)%nat as Hf by lia.
  split; [done|]. apply (nodes_hierarchy_levels_pg 4 "n0" chain Hf).
Defined.

(** * Hard delete *)

Section removed.
Context `{Countable K} {R : Type}.
Implicit Types m : gmap K R.

Lemma removed_split m1 m2 m3 k :
  removed m1 m3 k → removed m1 m2 k ∨ removed m2 m3 k.
Proof.
  intros [H1 H3]. destruct (m2 !! k) as [r|] eqn:H2.
  - right. split; [by exists r|done].
  - by left.
Qed.

Lemma removed_l m1 m2 m3 k : m3 ⊆ m2 → removed m1 m2 k → removed m1 m3 k.
Proof.
  intros Hsub [H1 H2]. split; [done|]. by eapply lookup_weaken_None.
Qed.

Lemma removed_r m1 m2 m3 k : m2 ⊆ m1 → removed m2 m3 k → removed m1 m3 k.
Proof.
  intros Hsub [H2 H3]. split; [|done]. by eapply lookup_weaken_is_Some.
Qed.

Lemma kept_or_removed m m' k r :
  m' ⊆ m → m !! k = Some r → m' !! k = Some r ∨ removed m m' k.
Proof.
  intros Hsub Hr. destruct (m' !! k) as [r'|] eqn:Hr'.
  - left. by rewrite (lookup_weaken _ _ _ _ Hr' Hsub) in Hr.
  - right. split; [by exists r|done].
Qed.

Lemma removed_delete m k : is_Some (m !! k) → removed m (delete k m) k.
Proof. intros Hk. split; [done|]. apply lookup_delete_eq. Qed.

Lemma removed_delete_inv m k k' : removed m (delete k m) k' → k' = k.
Proof.
  intros [[r Hr] Hd]. destruct (decide (k' = k)) as [|Hne]; [done|].
  rewrite lookup_delete_ne in Hd by done. congruence.
Qed.

Lemma removed_same m k : ¬ removed m m k.
Proof. intros [[r Hr] Hn]. congruence. Qed.

End removed.

Lemma port_gone_shrinks s s' p :
  port_values s' ⊆ port_values s → edges s' ⊆ edges s →
  port_gone s p → port_gone s' p.
Proof.
  intros Hv He [Gv Ge]. split.
  - intros v r Hr. eapply Gv. by eapply lookup_weaken.
  - intros e r Hr. eapply Ge. by eapply lookup_weaken.
Qed.

Lemma node_gone_shrinks s s' x :
  shrinks s s' → node_gone s x → node_gone s' x.
Proof.
  intros [Hn Hp _ _ Ht] (Gn & Gp & Gt). split_and!.
  - intros c r Hr. eapply Gn. by eapply lookup_weaken.
  - intros p r Hr. eapply Gp. by eapply lookup_weaken.
  - intros t Hr. eapply Gt. by eapply lookup_weaken_is_Some.
Qed.

Lemma shrinks_refl s : shrinks s s.
Proof. by split. Qed.

Lemma shrinks_trans s1 s2 s3 : shrinks s1 s2 → shrinks s2 s3 → shrinks s1 s3.
Proof. intros [] []. split; by etrans. Qed.

(** ** Deleting ports *)

Lemma ports_post_shrinks roots s s' : ports_post roots s s' → shrinks s s'.
Proof.
  intros [Hn Ht Hp Hv He _ _ _ _]. split; try done.
  - by rewrite Hn.
  - by rewrite Ht.
Qed.

Lemma ports_post_refl roots s : ports_post roots s s.
Proof.
  split; try done.
  - by intros p ?%removed_same.
  - intros v r Hr Hn. congruence.
  - intros e r Hr Hn. congruence.
  - by intros p ?%removed_same.
Qed.

Lemma ports_post_mono (roots roots' : string → Prop) s s' :
  (∀ p, roots p → roots' p) → ports_post roots s s' → ports_post roots' s s'.
Proof. intros Hr []. split; auto. Qed.

Lemma ports_post_trans roots s1 s2 s3 :
  ports_post roots s1 s2 → ports_post roots s2 s3 → ports_post roots s1 s3.
Proof.
  intros [Hn Ht Hp Hv He Hr Hjv Hje Hd] [Hn' Ht' Hp' Hv' He' Hr' Hjv' Hje' Hd'].
  split.
  - by rewrite Hn'.
  - by rewrite Ht'.
  - by etrans.
  - by etrans.
  - by etrans.
  - intros p [H12|H23]%(removed_split _ (ports s2)); [auto|].
    apply Hr'. done.
  - intros v r Hr1 Hr3.
    destruct (kept_or_removed _ _ _ _ Hv Hr1) as [Hr2|[_ Hr2]].
    + destruct (Hjv' _ _ Hr2 Hr3) as (p & Hvp & Hrem). exists p.
      split; [done|]. by eapply removed_r.
    + destruct (Hjv _ _ Hr1 Hr2) as (p & Hvp & Hrem). exists p.
      split; [done|]. by eapply removed_l.
  - intros e r Hr1 Hr3.
    destruct (kept_or_removed _ _ _ _ He Hr1) as [Hr2|[_ Hr2]].
    + destruct (Hje' _ _ Hr2 Hr3) as (p & Hvp & Hrem). exists p.
      split; [done|]. by eapply removed_r.
    + destruct (Hje _ _ Hr1 Hr2) as (p & Hvp & Hrem). exists p.
      split; [done|]. by eapply removed_l.
  - intros p [H12|H23]%(removed_split _ (ports s2)); [|auto].
    eapply port_gone_shrinks; [done..|auto].
Qed.

Lemma delete_port_row_post p s :
  ports_post (eq p) s (delete_port_row p s) ∧
  ports (delete_port_row p s) !! p = None.
Proof.
  unfold delete_port_row. destruct (ports s !! p) as [old|] eqn:Hold.
  2: { split; [apply ports_post_refl|done]. }
  cbv zeta. split; [|store_simpl; apply lookup_delete_eq].
  split; store_simpl; try done.
  - apply delete_subseteq.
  - apply map_filter_subseteq.
  - etrans; apply map_filter_subseteq.
  - by intros p' ->%removed_delete_inv.
  - intros v r Hr Hn. exists p. split; [|by apply removed_delete].
    apply map_lookup_filter_None in Hn as [Hn|Hn]; [congruence|].
    specialize (Hn r Hr). simpl in Hn.
    by destruct (decide (v_port_id r = Some p)).
  - intros e r Hr Hn. exists p. split; [|by apply removed_delete].
    apply map_lookup_filter_None in Hn as [Hn|Hn].
    + apply map_lookup_filter_None in Hn as [Hn|Hn]; [congruence|].
      specialize (Hn r Hr). simpl in Hn. left.
      by destruct (decide (e_from_port_id r = Some p)).
    + destruct (decide (e_to_port_id r = Some p)) as [|Hne]; [by right|].
      destruct (decide (e_from_port_id r = Some p)) as [|Hne']; [by left|].
      exfalso. eapply (Hn r); [|done].
      by apply map_lookup_filter_Some.
  - intros p' ->%removed_delete_inv. split; store_simpl.
    + by intros v r [_ ?]%map_lookup_filter_Some.
    + intros e r [[_ ?]%map_lookup_filter_Some ?]%map_lookup_filter_Some.
      done.
Qed.

Lemma delete_ports_fold ids s :
  let s' := foldl (λ s p, delete_port_row p s) s ids in
  ports_post (λ p, p ∈ ids) s s' ∧ ∀ p, p ∈ ids → ports s' !! p = None.
Proof.
  revert s. induction ids as [|p0 ids IH]; intros s; simpl.
  { split; [apply ports_post_refl|]. by intros p ?%elem_of_nil. }
  destruct (delete_port_row_post p0 s) as [P0 N0].
  destruct (IH (delete_port_row p0 s)) as [P1 N1]. simpl in P1, N1. split.
  - eapply ports_post_trans.
    + eapply ports_post_mono; [|exact P0]. intros p <-. left.
    + eapply ports_post_mono; [|exact P1]. intros p Hp. by right.
  - intros p [->|Hp]%elem_of_cons; [|auto].
    eapply lookup_weaken_None; [exact N0|]. by destruct P1.
Qed.

Lemma delete_port_at_Some depth p s s' :
  delete_port_at depth p s = Some s' → s' = delete_port_row p s.
Proof.
  unfold delete_port_at, delete_port_row.
  destruct (ports s !! p), depth; congruence.
Qed.

Lemma delete_port_at_total depth p s :
  (0 < depth)%nat → is_Some (delete_port_at depth p s).
Proof.
  intros Hd. unfold delete_port_at.
  destruct (ports s !! p), depth; try done. lia.
Qed.

(** A delete on [ports] that returns has deleted its rows one by one. *)
Lemma delete_ports_where_fold depth wh s s' :
  delete_ports_where depth wh s = Some s' →
  s' = foldl (λ s p, delete_port_row p s) s (select_ids wh (ports s)).
Proof.
  unfold delete_ports_where. generalize (select_ids wh (ports s)).
  intros l. revert s. induction l as [|p l IH]; intros s; simpl.
  - by intros [= <-].
  - destruct (delete_port_at depth p s) as [s1|] eqn:Hs1; [|done]. simpl.
    apply delete_port_at_Some in Hs1 as ->. apply IH.
Qed.

(** One nesting level is all a delete on [ports] needs. *)
Lemma delete_ports_where_total depth wh s :
  (0 < depth)%nat → is_Some (delete_ports_where depth wh s).
Proof.
  intros Hd. unfold delete_ports_where. generalize (select_ids wh (ports s)).
  intros l. revert s. induction l as [|p l IH]; intros s; simpl; [done|].
  destruct (delete_port_at_total depth p s Hd) as [s1 ->]. apply IH.
Qed.

Lemma delete_ports_where_post depth wh s s' :
  delete_ports_where depth wh s = Some s' →
  ports_post (λ p, ∃ r, ports s !! p = Some r ∧ wh p r = true) s s' ∧
  ∀ p r, ports s !! p = Some r → wh p r = true → ports s' !! p = None.
Proof.
  intros ->%delete_ports_where_fold.
  destruct (delete_ports_fold (select_ids wh (ports s)) s) as [P N].
  simpl in P, N. split.
  - eapply ports_post_mono; [|exact P].
    by intros p ?%elem_of_select_ids.
  - intros p r Hr Hw. apply N, elem_of_select_ids. by exists r.
Qed.

(** ** Deleting nodes *)

Lemma parent_of_shrinks s s' k x :
  nodes s' ⊆ nodes s → parent_of s' k x → parent_of s k x.
Proof.
  intros Hsub (r & Hr & Hp). exists r. split; [|done].
  by eapply lookup_weaken.
Qed.

Lemma in_subtree_shrinks s s' n k :
  nodes s' ⊆ nodes s → in_subtree s' n k → in_subtree s n k.
Proof.
  intros Hsub. unfold in_subtree. induction 1 as [|k x n Hp _ IH]; [done|].
  eapply rtc_l; [|done]. by eapply parent_of_shrinks.
Qed.

Lemma delete_post_refl roots s : delete_post roots s s.
Proof.
  split; [apply shrinks_refl|]. split; [split|split].
  - by intros k ?%removed_same.
  - intros p r Hr Hn. congruence.
  - intros p r Hr Hn. congruence.
  - intros p r Hr Hn. congruence.
  - by intros k ?%removed_same.
  - by intros k ?%removed_same.
  - by intros k ?%removed_same.
Qed.

Lemma delete_post_trans (R1 R2 R : string → Prop) s1 s2 s3 :
  (∀ k x, R1 x → in_subtree s1 x k → ∃ y, R y ∧ in_subtree s1 y k) →
  (∀ k x, R2 x → in_subtree s2 x k → ∃ y, R y ∧ in_subtree s1 y k) →
  delete_post R1 s1 s2 → delete_post R2 s2 s3 → delete_post R s1 s3.
Proof.
  intros HR1 HR2 (S12 & J12 & C12n & C12p) (S23 & J23 & C23n & C23p).
  pose proof S12 as [Sn Sp Sv Se St]. pose proof S23 as [Sn' Sp' Sv' Se' St'].
  destruct J12 as [Jn Jp Jv Je Jt], J23 as [Jn' Jp' Jv' Je' Jt'].
  split; [by eapply shrinks_trans|]. split; [split|split].
  - intros k [H12|H23]%(removed_split _ (nodes s2)).
    + destruct (Jn _ H12) as (x & Hx & Hsub). by eapply HR1.
    + destruct (Jn' _ H23) as (x & Hx & Hsub). by eapply HR2.
  - intros p r Hr1 Hr3.
    destruct (kept_or_removed _ _ _ _ Sp Hr1) as [Hr2|[_ Hr2]].
    + destruct (Jp' _ _ Hr2 Hr3) as (x & Hpx & Hrem). exists x.
      split; [done|]. by eapply removed_r.
    + destruct (Jp _ _ Hr1 Hr2) as (x & Hpx & Hrem). exists x.
      split; [done|]. by eapply removed_l.
  - intros v r Hr1 Hr3.
    destruct (kept_or_removed _ _ _ _ Sv Hr1) as [Hr2|[_ Hr2]].
    + destruct (Jv' _ _ Hr2 Hr3) as (x & Hpx & Hrem). exists x.
      split; [done|]. by eapply removed_r.
    + destruct (Jv _ _ Hr1 Hr2) as (x & Hpx & Hrem). exists x.
      split; [done|]. by eapply removed_l.
  - intros e r Hr1 Hr3.
    destruct (kept_or_removed _ _ _ _ Se Hr1) as [Hr2|[_ Hr2]].
    + destruct (Je' _ _ Hr2 Hr3) as (x & Hpx & Hrem). exists x.
      split; [done|]. by eapply removed_r.
    + destruct (Je _ _ Hr1 Hr2) as (x & Hpx & Hrem). exists x.
      split; [done|]. by eapply removed_l.
  - intros t [H12|H23]%(removed_split _ (tags s2)).
    + eapply removed_l; [done|]. by apply Jt.
    + eapply removed_r; [done|]. by apply Jt'.
  - intros x [H12|H23]%(removed_split _ (nodes s2)); [|auto].
    eapply node_gone_shrinks; [done|auto].
  - intros p [H12|H23]%(removed_split _ (ports s2)); [|auto].
    eapply port_gone_shrinks; [done..|auto].
Qed.

Lemma delete_node_row_post (run : delete_stmt) (runp : delete_ports_stmt)
    id s s' :
  (∀ wh s s', run wh s = Some s' → delete_stmt_post wh s s') →
  (∀ wh s s', runp wh s = Some s' →
     ports_post (λ p, ∃ r, ports s !! p = Some r ∧ wh p r = true) s s' ∧
     ∀ p r, ports s !! p = Some r → wh p r = true → ports s' !! p = None) →
  delete_node_row run runp id s = Some s' →
  delete_post (eq id) s s' ∧ nodes s' !! id = None.
Proof.
  intros Hrun Hrunp. unfold delete_node_row.
  destruct (nodes s !! id) as [old|] eqn:Hold.
  2: { intros [= <-]. split; [apply delete_post_refl|done]. }
  cbv zeta.
  set (s1 := set_nodes (delete id) s).
  destruct (run _ s1) as [s2|] eqn:Hs2; [|done]. simpl.
  apply Hrun in Hs2 as [(S12 & J12 & C12n & C12p) Hsel].
  set (whp := λ (_ : string) (r : port), bool_decide (p_node_id r = Some id)).
  destruct (runp whp s2) as [s3|] eqn:Hs3; [|done]. simpl.
  apply Hrunp in Hs3 as [P23 Hselp].
  intros [= <-].
  pose proof S12 as [Sn Sp Sv Se St].
  destruct J12 as [Jn Jp Jv Je Jt].
  pose proof P23 as [Pn Pt Pp Pv Pe Pr Pjv Pje Pd].
  subst s1. store_simpl.
  assert (nodes s2 !! id = None) as Hid.
  { eapply lookup_weaken_None; [|exact Sn]. apply lookup_delete_eq. }
  assert (removed (nodes s) (nodes s3) id) as Hrem.
  { split; [by exists old|]. by rewrite Pn. }
  assert (∀ x, removed (delete id (nodes s)) (nodes s2) x →
               removed (nodes s) (nodes s3) x) as Hrem'.
  { intros x [[r Hr] Hn]. split; [|by rewrite Pn].
    apply lookup_delete_Some in Hr as [_ Hr]. by exists r. }
  split; [|by rewrite Pn].
  split; [|split; [split|split]]; store_simpl.
  - split; store_simpl.
    + rewrite Pn. etrans; [done|]. apply delete_subseteq.
    + by etrans.
    + by etrans.
    + by etrans.
    + etrans; [apply map_filter_subseteq|]. by rewrite Pt.
  - intros k [[r Hr] Hn]. rewrite Pn in Hn.
    destruct (decide (k = id)) as [->|Hne].
    { exists id. split; [done|]. apply rtc_refl. }
    destruct (Jn k) as (x & (rx & Hrx & Hwx) & Hsub).
    { split; [|done]. exists r. store_simpl.
      by rewrite lookup_delete_ne. }
    exists id. split; [done|]. store_simpl.
    apply lookup_delete_Some in Hrx as [_ Hrx].
    apply bool_decide_eq_true in Hwx.
    eapply rtc_r.
    + eapply in_subtree_shrinks; [|exact Hsub]. store_simpl.
      apply delete_subseteq.
    + by exists rx.
  - intros p r Hr Hn.
    destruct (kept_or_removed _ _ _ _ Sp Hr) as [Hr2|[_ Hr2]].
    + destruct (Pr p) as (r' & Hr' & Hw); [split; [by exists r|done]|].
      rewrite Hr2 in Hr'. injection Hr' as <-.
      apply bool_decide_eq_true in Hw. by exists id.
    + destruct (Jp _ _ Hr Hr2) as (x & Hpx & Hx). exists x. auto.
  - intros v r Hr Hn.
    destruct (kept_or_removed _ _ _ _ Sv Hr) as [Hr2|[_ Hr2]].
    + destruct (Pjv _ _ Hr2 Hn) as (p & Hvp & Hp). exists p.
      split; [done|]. by eapply removed_r.
    + destruct (Jv _ _ Hr Hr2) as (p & Hvp & Hp). exists p.
      split; [done|]. by eapply removed_l.
  - intros e r Hr Hn.
    destruct (kept_or_removed _ _ _ _ Se Hr) as [Hr2|[_ Hr2]].
    + destruct (Pje _ _ Hr2 Hn) as (p & Hvp & Hp). exists p.
      split; [done|]. by eapply removed_r.
    + destruct (Je _ _ Hr Hr2) as (p & Hvp & Hp). exists p.
      split; [done|]. by eapply removed_l.
  - intros t [[r Hr] Hn]. rewrite Pt in Hn.
    destruct (kept_or_removed _ _ _ _ St Hr) as [Hr2|Hr2].
    + apply map_lookup_filter_None in Hn as [Hn|Hn]; [congruence|].
      specialize (Hn r Hr2). simpl in Hn.
      destruct (decide (tk_node_id t = id)) as [->|]; done.
    + by apply Hrem', Jt.
  - intros x Hx.
    assert (shrinks s2 (set_tags
      (filter (λ kr : tag_key * tag, tk_node_id kr.1 ≠ id)) s3)) as S24.
    { split; store_simpl; try done.
      - by rewrite Pn.
      - rewrite Pt. apply map_filter_subseteq. }
    destruct (decide (x = id)) as [->|Hne].
    + split_and!; store_simpl.
      * intros c r Hr Hp. rewrite Pn in Hr.
        rewrite (Hsel c r) in Hr; [done| |by apply bool_decide_eq_true].
        by eapply lookup_weaken.
      * intros p r Hr Hp.
        rewrite (Hselp p r) in Hr; [done| |by apply bool_decide_eq_true].
        by eapply lookup_weaken.
      * by intros t [r [_ ?]%map_lookup_filter_Some].
    + eapply node_gone_shrinks; [exact S24|]. apply C12n.
      destruct Hx as [[r Hr] Hn]. store_simpl. rewrite Pn in Hn.
      split; [|done]. exists r. by rewrite lookup_delete_ne.
  - intros p [H12|H23]%(removed_split _ (ports s2)).
    + eapply (port_gone_shrinks s2); [done..|]. by apply C12p.
    + by apply Pd.
Qed.

Lemma for_each_row_delete_post (step : string → store → option store)
    ids s s' :
  (∀ id s s', step id s = Some s' →
              delete_post (eq id) s s' ∧ nodes s' !! id = None) →
  for_each_row step ids s = Some s' →
  delete_post (λ k, k ∈ ids) s s' ∧ ∀ id, id ∈ ids → nodes s' !! id = None.
Proof.
  intros Hstep. revert s. induction ids as [|id ids IH]; intros s; simpl.
  { intros [= <-]. split; [apply delete_post_refl|].
    by intros id ?%elem_of_nil. }
  destruct (step id s) as [s1|] eqn:Hs1; [|done]. simpl. intros Hs'.
  destruct (Hstep _ _ _ Hs1) as [P1 N1].
  destruct (IH _ Hs') as [P2 N2]. split.
  - eapply delete_post_trans; [| |exact P1|exact P2].
    + intros k x <- Hsub. exists id. split; [left|done].
    + intros k x Hx Hsub. exists x. split; [by right|].
      eapply in_subtree_shrinks; [|done]. by destruct P1 as [[] _].
  - intros id' [->|Hin]%elem_of_cons; [|auto].
    eapply lookup_weaken_None; [exact N1|]. by destruct P2 as [[] _].
Qed.

Lemma nodes_delete_post step wh s s' :
  (∀ id s s', step id s = Some s' →
              delete_post (eq id) s s' ∧ nodes s' !! id = None) →
  for_each_row step (select_ids wh (nodes s)) s = Some s' →
  delete_stmt_post wh s s'.
Proof.
  intros Hstep Hs'.
  apply for_each_row_delete_post in Hs' as [P N]; [|done].
  split.
  - eapply (delete_post_trans (λ _, False));
      [| |apply delete_post_refl|exact P].
    + by intros k x [].
    + intros k x Hx%elem_of_select_ids Hsub. by exists x.
  - intros k r Hr Hw. apply N, elem_of_select_ids. by exists r.
Qed.

(** With a level left, a row runs its actions one level down. *)
Lemma delete_node_at_S d id s :
  delete_node_at (S d) id s =
  delete_node_row (delete_nodes_where d) (delete_ports_where d) id s.
Proof.
  simpl. unfold delete_node_row. by destruct (nodes s !! id).
Qed.

Lemma delete_node_at_post d id s s' :
  delete_node_at d id s = Some s' →
  delete_post (eq id) s s' ∧ nodes s' !! id = None.
Proof.
  revert id s s'. induction d as [|d IH]; intros id s s'.
  - simpl. destruct (nodes s !! id) as [old|] eqn:Hold; [done|].
    intros [= <-]. split; [apply delete_post_refl|done].
  - rewrite delete_node_at_S. apply delete_node_row_post.
    + intros wh s0 s0'. by apply nodes_delete_post.
    + intros wh s0 s0'. apply delete_ports_where_post.
Qed.

Lemma delete_nodes_where_ok depth wh s s' :
  delete_nodes_where depth wh s = Some s' → delete_stmt_post wh s s'.
Proof.
  apply nodes_delete_post. intros id s0 s0'. apply delete_node_at_post.
Qed.

(** *** The cascade returns *)

Lemma map_size_delete_lt `{Countable K} {R} (m : gmap K R) k :
  is_Some (m !! k) → (size (delete k m) < size m)%nat.
Proof.
  intros [r Hr]. rewrite <- (insert_delete_id m k r Hr) at 2.
  rewrite map_size_insert_None by apply lookup_delete_eq. lia.
Qed.

Lemma for_each_row_delete_total (step : string → store → option store)
    ids s (d : nat) :
  (∀ id s s', step id s = Some s' →
              delete_post (eq id) s s' ∧ nodes s' !! id = None) →
  (∀ id s, (size (nodes s) < d)%nat → is_Some (step id s)) →
  (size (nodes s) < d)%nat →
  is_Some (for_each_row step ids s).
Proof.
  intros Hpost Htot. revert s.
  induction ids as [|id ids IH]; intros s Hsz; simpl; [done|].
  destruct (Htot id s Hsz) as [s1 Hs1].
  rewrite Hs1. simpl. apply IH.
  apply Hpost in Hs1 as [([Sn _ _ _ _] & _) _].
  apply map_subseteq_size in Sn. lia.
Qed.

(** Every node of a chain takes a level, and the ports of the deepest one
    more: a row gets through with more levels left than there are
    nodes. *)
Lemma delete_node_at_total d id s :
  (size (nodes s) < d)%nat → is_Some (delete_node_at d id s).
Proof.
  revert id s. induction d as [|d IH]; intros id s Hsz; [lia|].
  rewrite delete_node_at_S. unfold delete_node_row.
  destruct (nodes s !! id) as [old|] eqn:Hold; [|done]. cbv zeta.
  set (s1 := set_nodes (delete id) s).
  assert (size (nodes s1) < d)%nat as Hsz1.
  { subst s1. store_simpl.
    pose proof (map_size_delete_lt (nodes s) id (mk_is_Some _ _ Hold)). lia. }
  assert (is_Some (delete_nodes_where d
            (λ _ r, bool_decide (n_parent_id r = Some id)) s1)) as [s2 Hs2].
  { apply (for_each_row_delete_total _ _ _ d); [|done..].
    intros id' s0 s0'. apply delete_node_at_post. }
  rewrite Hs2. simpl.
  destruct (delete_ports_where_total d
              (λ _ r, bool_decide (p_node_id r = Some id)) s2) as [s3 ->];
    [lia|done].
Qed.

Lemma delete_nodes_where_total d wh s :
  (size (nodes s) < d)%nat → is_Some (delete_nodes_where d wh s).
Proof.
  intros Hsz. apply (for_each_row_delete_total _ _ _ d); [| |done].
  - intros id s0 s0'. apply delete_node_at_post.
  - intros id s0. apply delete_node_at_total.
Qed.

(** A nesting limit above the number of nodes is always enough. *)
Lemma delete_node_total limit n s :
  (size (nodes s) < limit)%nat → is_Some (delete_node limit n s).
Proof. apply delete_node_at_total. Qed.

Lemma delete_node_post limit n s s' :
  delete_node limit n s = Some s' →
  delete_post (eq n) s s' ∧ nodes s' !! n = None.
Proof. apply delete_node_at_post. Qed.

(** The hard delete of A in [family] nests as deep as the soft delete:
    the actions of A, of B, of C and of the ports of C. *)
Example family_hard_delete_needs_four_levels :
  delete_node 3 "A" family = None ∧ is_Some (delete_node 4 "A" family).
Proof. split; [by vm_compute|]. vm_compute. by eexists. Qed.

(** *** What goes and what stays *)

(** Everything the subtree of a deleted root owns is gone. *)
Lemma delete_post_removes n s s' :
  is_Some (nodes s !! n) → nodes s' !! n = None →
  delete_post (eq n) s s' →
  (∀ k, in_subtree s n k → nodes s' !! k = None) ∧
  (∀ p, port_in_subtree s n p → ports s' !! p = None) ∧
  (∀ t, in_subtree s n (tk_node_id t) → tags s' !! t = None) ∧
  (∀ v r p, port_values s !! v = Some r → v_port_id r = Some p →
     port_in_subtree s n p → port_values s' !! v = None) ∧
  (∀ e r p, edges s !! e = Some r →
     e_from_port_id r = Some p ∨ e_to_port_id r = Some p →
     port_in_subtree s n p → edges s' !! e = None).
Proof.
  intros Hn Hn' ([Sn Sp Sv Se St] & _ & Cn & Cp).
  assert (∀ k, in_subtree s n k → removed (nodes s) (nodes s') k) as Hnodes.
  { unfold in_subtree. induction 1 as [|k x n (r & Hr & Hp) _ IH]; [done|].
    split; [by exists r|].
    destruct (kept_or_removed _ _ _ _ Sn Hr) as [Hr'|[_ ?]]; [|done].
    by destruct (Cn x (IH Hn Hn')) as (G & _ & _), (G k r Hr'). }
  assert (∀ p, port_in_subtree s n p → removed (ports s) (ports s') p)
    as Hports.
  { intros p (r & x & Hr & Hx & Hsub). split; [by exists r|].
    destruct (kept_or_removed _ _ _ _ Sp Hr) as [Hr'|[_ ?]]; [|done].
    by destruct (Cn x (Hnodes _ Hsub)) as (_ & G & _), (G p r Hr'). }
  split_and!.
  - intros k Hk. by apply Hnodes.
  - intros p Hp. by apply Hports.
  - intros t Ht. destruct (tags s' !! t) as [r|] eqn:Hr; [|done].
    by destruct (Cn _ (Hnodes _ Ht)) as (_ & _ & G), (G t (mk_is_Some _ _ Hr)).
  - intros v r p Hr Hp Hsub.
    destruct (kept_or_removed _ _ _ _ Sv Hr) as [Hr'|[_ ?]]; [|done].
    by destruct (Cp p (Hports _ Hsub)) as [G _], (G v r Hr').
  - intros e r p Hr Hp Hsub.
    destruct (kept_or_removed _ _ _ _ Se Hr) as [Hr'|[_ ?]]; [|done].
    destruct (Cp p (Hports _ Hsub)) as [_ G], (G e r Hr') as [G1 G2].
    by destruct Hp.
Qed.

(** Every row that went belonged to the subtree of the deleted root. *)
Lemma delete_post_gone n s s' :
  delete_post (eq n) s s' →
  (∀ k, removed (nodes s) (nodes s') k → in_subtree s n k) ∧
  (∀ p, removed (ports s) (ports s') p → port_in_subtree s n p) ∧
  (∀ t, removed (tags s) (tags s') t → in_subtree s n (tk_node_id t)) ∧
  (∀ v, removed (port_values s) (port_values s') v →
     ∃ r p, port_values s !! v = Some r ∧ v_port_id r = Some p ∧
            port_in_subtree s n p) ∧
  (∀ e, removed (edges s) (edges s') e →
     ∃ r p, edges s !! e = Some r ∧
            (e_from_port_id r = Some p ∨ e_to_port_id r = Some p) ∧
            port_in_subtree s n p).
Proof.
  intros (_ & [Jn Jp Jv Je Jt] & _).
  assert (∀ k, removed (nodes s) (nodes s') k → in_subtree s n k) as Hnodes.
  { by intros k (x & <- & Hsub)%Jn. }
  assert (∀ p, removed (ports s) (ports s') p → port_in_subtree s n p)
    as Hports.
  { intros p [[r Hr] Hn]. destruct (Jp _ _ Hr Hn) as (x & Hx & Hrem).
    exists r, x. split_and!; [done..|]. by apply Hnodes. }
  split_and!; [done..| | |].
  - intros t Ht. by apply Hnodes, Jt.
  - intros v [[r Hr] Hn]. destruct (Jv _ _ Hr Hn) as (p & Hp & Hrem).
    exists r, p. split_and!; [done..|]. by apply Hports.
  - intros e [[r Hr] Hn]. destruct (Je _ _ Hr Hn) as (p & Hp & Hrem).
    exists r, p. split_and!; [done..|]. by apply Hports.
Qed.

Lemma kept_unless_removed `{Countable K} {R} (m m' : gmap K R) k :
  m' ⊆ m → ¬ removed m m' k → m' !! k = m !! k.
Proof.
  intros Hsub Hrem. destruct (m !! k) as [r|] eqn:Hr.
  - by destruct (kept_or_removed _ _ _ _ Hsub Hr).
  - by eapply lookup_weaken_None.
Qed.

(** X12: with a nesting limit above the number of nodes, the hard
    delete of an existing node N returns, and afterwards every node of the
    subtree of N is gone, alive or soft-deleted, together with every port
    and tag of those nodes, every value of those ports and every edge that
    has one of those ports at either end. *)
Theorem delete_node_removes_subtree limit n s :
  (size (nodes s) < limit)%nat → is_Some (nodes s !! n) →
  ∃ s', delete_node limit n s = Some s' ∧
    (∀ k, in_subtree s n k → nodes s' !! k = None) ∧
    (∀ p, port_in_subtree s n p → ports s' !! p = None) ∧
    (∀ t, in_subtree s n (tk_node_id t) → tags s' !! t = None) ∧
    (∀ v r p, port_values s !! v = Some r → v_port_id r = Some p →
       port_in_subtree s n p → port_values s' !! v = None) ∧
    (∀ e r p, edges s !! e = Some r →
       e_from_port_id r = Some p ∨ e_to_port_id r = Some p →
       port_in_subtree s n p → edges s' !! e = None).
Proof.
  intros Hsz Hn. destruct (delete_node_total limit n s Hsz) as [s' Hs'].
  exists s'. split; [done|].
  destruct (delete_node_post _ _ _ _ Hs') as [P N].
  by apply delete_post_removes.
Qed.

Lemma delete_node_removes_subtree_witness :
  ∃ s', delete_node 5 "B" family = Some s' ∧
    (∀ k, in_subtree family "B" k → nodes s' !! k = None) ∧
    (∀ p, port_in_subtree family "B" p → ports s' !! p = None) ∧
    (∀ t, in_subtree family "B" (tk_node_id t) → tags s' !! t = None) ∧
    (∀ v r p, port_values family !! v = Some r → v_port_id r = Some p →
       port_in_subtree family "B" p → port_values s' !! v = None) ∧
    (∀ e r p, edges family !! e = Some r →
       e_from_port_id r = Some p ∨ e_to_port_id r = Some p →
       port_in_subtree family "B" p → edges s' !! e = None).
Proof.
  apply (delete_node_removes_subtree 5 "B" family).
  - vm_compute. lia.
  - by eexists.
Defined.

(** X13: with a nesting limit above the number of nodes a hard delete
    returns; it adds and rewrites no row, and every row outside the
    subtree of N is still there unchanged: nodes outside the subtree,
    ports and tags of other nodes, values of other ports, and edges with
    neither end at a port of the subtree. *)
Theorem delete_node_frame limit n s :
  (size (nodes s) < limit)%nat →
  ∃ s', delete_node limit n s = Some s' ∧ shrinks s s' ∧
    (∀ k, ¬ in_subtree s n k → nodes s' !! k = nodes s !! k) ∧
    (∀ p, ¬ port_in_subtree s n p → ports s' !! p = ports s !! p) ∧
    (∀ t, ¬ in_subtree s n (tk_node_id t) → tags s' !! t = tags s !! t) ∧
    (∀ v, (∀ r p, port_values s !! v = Some r → v_port_id r = Some p →
                  ¬ port_in_subtree s n p) →
          port_values s' !! v = port_values s !! v) ∧
    (∀ e, (∀ r p, edges s !! e = Some r →
                  e_from_port_id r = Some p ∨ e_to_port_id r = Some p →
                  ¬ port_in_subtree s n p) →
          edges s' !! e = edges s !! e).
Proof.
  intros Hsz. destruct (delete_node_total limit n s Hsz) as [s' Hs'].
  exists s'. split; [done|].
  destruct (delete_node_post _ _ _ _ Hs') as [P _].
  destruct (delete_post_gone _ _ _ P) as (Gn & Gp & Gt & Gv & Ge).
  pose proof P as ([Sn Sp Sv Se St] & _). split; [by destruct P|].
  split_and!.
  - intros k Hk. apply kept_unless_removed; [done|]. by intros ?%Gn.
  - intros p Hp. apply kept_unless_removed; [done|]. by intros ?%Gp.
  - intros t Ht. apply kept_unless_removed; [done|]. by intros ?%Gt.
  - intros v Hv. apply kept_unless_removed; [done|].
    intros (r & p & Hr & Hp & Hsub)%Gv. by eapply Hv.
  - intros e He. apply kept_unless_removed; [done|].
    intros (r & p & Hr & Hp & Hsub)%Ge. by eapply He.
Qed.

Lemma delete_node_frame_witness :
  ∃ s', delete_node 5 "B" family = Some s' ∧ shrinks family s' ∧
    (∀ k, ¬ in_subtree family "B" k → nodes s' !! k = nodes family !! k) ∧
    (∀ p, ¬ port_in_subtree family "B" p →
          ports s' !! p = ports family !! p) ∧
    (∀ t, ¬ in_subtree family "B" (tk_node_id t) →
          tags s' !! t = tags family !! t) ∧
    (∀ v, (∀ r p, port_values family !! v = Some r → v_port_id r = Some p →
                  ¬ port_in_subtree family "B" p) →
          port_values s' !! v = port_values family !! v) ∧
    (∀ e, (∀ r p, edges family !! e = Some r →
                  e_from_port_id r = Some p ∨ e_to_port_id r = Some p →
                  ¬ port_in_subtree family "B" p) →
          edges s' !! e = edges family !! e).
Proof.
  apply (delete_node_frame 5 "B" family). vm_compute. lia.
Defined.

Example family_delete_B :
  (delete_node 5 "B" family ≫= λ s',
     Some ((map_to_list (nodes s')).*1, (map_to_list (ports s')).*1,
           (map_to_list (port_values s')).*1, (map_to_list (edges s')).*1,
           (map_to_list (tags s')).*1))
  = Some (["A"; "X"], ["pA"; "pX"], [], [], []).
Proof. by vm_compute. Qed.

(** ** Foreign keys *)

Lemma fk_ok_spec {R} (ref : option string) (m : gmap string R) :
  fk_ok ref m = true ↔ ∀ x, ref = Some x → is_Some (m !! x).
Proof.
  destruct ref as [k|]; simpl.
  - rewrite bool_decide_eq_true. split; [by intros ? x [= <-]|auto].
  - split; [by intros _ x|done].
Qed.

Lemma fk_ok_mono {R R'} (ref : option string)
    (m : gmap string R) (m' : gmap string R') :
  (∀ k, is_Some (m !! k) → is_Some (m' !! k)) →
  fk_ok ref m = true → fk_ok ref m' = true.
Proof. rewrite !fk_ok_spec. intros Hm Hok x Hx. by apply Hm, Hok. Qed.

Lemma same_rows_is_Some `{Countable K} `{Deletable R} (m m' : gmap K R) k :
  same_rows m m' → is_Some (m !! k) → is_Some (m' !! k).
Proof.
  intros Hs [r Hr]. specialize (Hs k). rewrite Hr in Hs.
  destruct (m' !! k); [done|by simpl in Hs].
Qed.

(** Writing [deleted_at] breaks no foreign key. *)
Lemma fk_valid_same_rows s s' :
  same_rows (nodes s) (nodes s') → same_rows (ports s) (ports s') →
  same_rows (port_values s) (port_values s') →
  same_rows (edges s) (edges s') → same_rows (tags s) (tags s') →
  fk_valid s → fk_valid s'.
Proof.
  intros Hn Hp Hv He Ht [Fn Fp Fv Ff Fe Ft]. split.
  - intros k r' Hr'.
    destruct (same_rows_lookup _ _ _ _ Hn Hr') as (r & Hr & Heq).
    rewrite <- (n_parent_id_erase _ _ Heq).
    eapply fk_ok_mono; [|by eapply Fn]. intros x. by apply same_rows_is_Some.
  - intros k r' Hr'.
    destruct (same_rows_lookup _ _ _ _ Hp Hr') as (r & Hr & Heq).
    rewrite <- (p_node_id_erase _ _ Heq).
    eapply fk_ok_mono; [|by eapply Fp]. intros x. by apply same_rows_is_Some.
  - intros k r' Hr'.
    destruct (same_rows_lookup _ _ _ _ Hv Hr') as (r & Hr & Heq).
    rewrite <- (v_port_id_erase _ _ Heq).
    eapply fk_ok_mono; [|by eapply Fv]. intros x. by apply same_rows_is_Some.
  - intros k r' Hr'.
    destruct (same_rows_lookup _ _ _ _ He Hr') as (r & Hr & Heq).
    destruct (e_ports_erase _ _ Heq) as [<- _].
    eapply fk_ok_mono; [|by eapply Ff]. intros x. by apply same_rows_is_Some.
  - intros k r' Hr'.
    destruct (same_rows_lookup _ _ _ _ He Hr') as (r & Hr & Heq).
    destruct (e_ports_erase _ _ Heq) as [_ <-].
    eapply fk_ok_mono; [|by eapply Fe]. intros x. by apply same_rows_is_Some.
  - intros t Hr'. apply (same_rows_is_Some _ _ _ Hn), Ft.
    by apply (same_rows_is_Some _ _ _ (same_rows_sym _ _ Ht)).
Qed.

Lemma SetPortAlive_same_rows p target ts s :
  let s' := SetPortAlive p target ts s in
  same_rows (nodes s) (nodes s') ∧ same_rows (ports s) (ports s') ∧
  same_rows (port_values s) (port_values s') ∧
  same_rows (edges s) (edges s') ∧ same_rows (tags s) (tags s').
Proof.
  cbv zeta. destruct (ports s !! p) as [old|] eqn:Hp.
  - destruct (decide (alive old = target)) as [Ha|Ha].
    + unfold SetPortAlive. rewrite update_port_row_eq, Hp. cbv zeta.
      destruct (off_target _ old) eqn:Hoff.
      { by apply off_target_true_alive in Hoff. }
      store_simpl. split_and!; try done. by apply same_rows_insert.
    + destruct (SetPortAlive_flip p target ts s old Hp Ha)
        as ([Fn Fp Fv Fe Ft] & _).
      split_and!; by eapply flips_same_rows.
  - unfold SetPortAlive. rewrite update_port_row_eq, Hp. done.
Qed.

Lemma fk_valid_empty : fk_valid empty_store.
Proof.
  split; simpl; try (intros k r Hr; by rewrite lookup_empty in Hr).
  intros t [r Hr]. by rewrite lookup_empty in Hr.
Qed.

Lemma is_Some_insert_mono `{Countable K} {R} (m : gmap K R) i x k :
  is_Some (m !! k) → is_Some (<[i := x]> m !! k).
Proof.
  intros Hk. destruct (decide (i = k)) as [->|Hne].
  - rewrite lookup_insert_eq. by eexists.
  - by rewrite lookup_insert_ne.
Qed.

Lemma run_write_fk_valid w s s' :
  run_write w s = Some s' → fk_valid s → fk_valid s'.
Proof.
  intros Hw [Fn Fp Fv Ff Fe Ft]. destruct w; simpl in Hw.
  - destruct (fk_ok parent_id (nodes s)) eqn:Hpar; [|done].
    unfold insert_node in Hw. destruct (nodes s !! id) eqn:Hid; [done|].
    cbv zeta in Hw.
    destruct (fk_ok parent_id (<[id:=_]> _)) eqn:Hpar'; [|done].
    injection Hw as <-. split; store_simpl; try done.
    + intros k r [[<- <-]|[Hne Hr]]%lookup_insert_Some; [done|].
      eapply fk_ok_mono; [|by eapply Fn].
      intros x. apply is_Some_insert_mono.
    + intros p r Hr. eapply fk_ok_mono; [|by eapply Fp].
      intros x. apply is_Some_insert_mono.
    + intros t Ht. by apply is_Some_insert_mono, Ft.
  - unfold insert_port in Hw. destruct (ports s !! id) eqn:Hid; [done|].
    destruct (fk_ok node_id (nodes s)) eqn:Hnode; [|done].
    injection Hw as <-. split; store_simpl; try done.
    + by intros p r [[<- <-]|[Hne Hr]]%lookup_insert_Some; [|eapply Fp].
    + intros v r Hr. eapply fk_ok_mono; [|by eapply Fv].
      intros x. apply is_Some_insert_mono.
    + intros e r Hr. eapply fk_ok_mono; [|by eapply Ff].
      intros x. apply is_Some_insert_mono.
    + intros e r Hr. eapply fk_ok_mono; [|by eapply Fe].
      intros x. apply is_Some_insert_mono.
  - unfold insert_port_value in Hw.
    destruct (port_values s !! id) eqn:Hid; [done|].
    destruct (fk_ok port_id (ports s)) eqn:Hport; [|done].
    injection Hw as <-. split; store_simpl; try done.
    by intros v r [[<- <-]|[Hne Hr]]%lookup_insert_Some; [|eapply Fv].
  - unfold insert_edge in Hw. destruct (edges s !! id) eqn:Hid; [done|].
    destruct (fk_ok from_port_id (ports s)) eqn:Hfrom; [|done].
    destruct (fk_ok to_port_id (ports s)) eqn:Hto; [|done].
    injection Hw as <-. split; store_simpl; try done.
    + by intros e r [[<- <-]|[Hne Hr]]%lookup_insert_Some; [|eapply Ff].
    + by intros e r [[<- <-]|[Hne Hr]]%lookup_insert_Some; [|eapply Fe].
  - unfold insert_tag in Hw.
    destruct (tags s !! (node_id, key, value)) eqn:Hid.
    { by injection Hw as <-. }
    destruct (fk_ok (Some node_id) (nodes s)) eqn:Hnode; [|done].
    injection Hw as <-. split; store_simpl; try done.
    intros t [r [[<- <-]|[Hne Hr]]%lookup_insert_Some].
    + by apply bool_decide_eq_true in Hnode.
    + apply Ft. by exists r.
  - destruct (SetAlive_same_rows _ _ _ _ _ _ Hw) as (? & ? & ? & ? & ?).
    by eapply fk_valid_same_rows.
  - injection Hw as <-.
    destruct (SetPortAlive_same_rows p target ts s) as (? & ? & ? & ? & ?).
    by eapply fk_valid_same_rows.
Qed.

(** X14: in every store reached by the repository's writes every
    foreign key names a row of the referenced table: parent_id and the
    node_id of ports and tags a node, port_id and the two ends of an edge a
    port.  Soft delete and restore only write deleted_at and break none. *)
Theorem reachable_fk_valid s : reachable s → fk_valid s.
Proof.
  revert s. apply (reachable_inv fk_valid); [apply fk_valid_empty|].
  intros w s s' Hs Hw. by eapply run_write_fk_valid.
Qed.

Lemma reachable_fk_valid_witness : fk_valid family.
Proof.
  apply (reachable_fk_valid family). exists family_writes. by vm_compute.
Defined.

Lemma delete_post_fk_valid roots s s' :
  delete_post roots s s' → fk_valid s → fk_valid s'.
Proof.
  intros ([Sn Sp Sv Se St] & _ & Cn & Cp) [Fn Fp Fv Ff Fe Ft].
  assert (∀ x, is_Some (nodes s !! x) →
            (is_Some (nodes s' !! x) ∨ node_gone s' x)) as Hnode.
  { intros x Hx. destruct (nodes s' !! x) eqn:Hx'; [by left; eexists|].
    right. by apply Cn. }
  assert (∀ x, is_Some (ports s !! x) →
            (is_Some (ports s' !! x) ∨ port_gone s' x)) as Hport.
  { intros x Hx. destruct (ports s' !! x) eqn:Hx'; [by left; eexists|].
    right. by apply Cp. }
  split.
  - intros k r Hr. apply fk_ok_spec. intros x Hx.
    pose proof (lookup_weaken _ _ _ _ Hr Sn) as Hr0.
    destruct (Hnode x) as [|(G & _ & _)]; [|done|by destruct (G k r Hr)].
    eapply fk_ok_spec; [by eapply Fn|done].
  - intros k r Hr. apply fk_ok_spec. intros x Hx.
    pose proof (lookup_weaken _ _ _ _ Hr Sp) as Hr0.
    destruct (Hnode x) as [|(_ & G & _)]; [|done|by destruct (G k r Hr)].
    eapply fk_ok_spec; [by eapply Fp|done].
  - intros k r Hr. apply fk_ok_spec. intros x Hx.
    pose proof (lookup_weaken _ _ _ _ Hr Sv) as Hr0.
    destruct (Hport x) as [|[G _]]; [|done|by destruct (G k r Hr)].
    eapply fk_ok_spec; [by eapply Fv|done].
  - intros k r Hr. apply fk_ok_spec. intros x Hx.
    pose proof (lookup_weaken _ _ _ _ Hr Se) as Hr0.
    destruct (Hport x) as [|[_ G]]; [|done|by destruct (G k r Hr) as [? _]].
    eapply fk_ok_spec; [by eapply Ff|done].
  - intros k r Hr. apply fk_ok_spec. intros x Hx.
    pose proof (lookup_weaken _ _ _ _ Hr Se) as Hr0.
    destruct (Hport x) as [|[_ G]]; [|done|by destruct (G k r Hr) as [_ ?]].
    eapply fk_ok_spec; [by eapply Fe|done].
  - intros t Ht.
    destruct (Hnode (tk_node_id t)) as [|(_ & _ & G)];
      [|done|by destruct (G t Ht)].
    by eapply Ft, lookup_weaken_is_Some.
Qed.

(** X15: a hard delete leaves no dangling reference: from a store whose
    foreign keys are all valid it returns, with a nesting limit above the
    number of nodes, a store whose foreign keys are all valid. *)
Theorem delete_node_fk_valid limit n s :
  fk_valid s → (size (nodes s) < limit)%nat →
  ∃ s', delete_node limit n s = Some s' ∧ fk_valid s'.
Proof.
  intros Hfk Hsz. destruct (delete_node_total limit n s Hsz) as [s' Hs'].
  exists s'. split; [done|].
  destruct (delete_node_post _ _ _ _ Hs') as [P _].
  by eapply delete_post_fk_valid.
Qed.

Lemma family_fk_valid : fk_valid family.
Proof.
  apply (reachable_inv fk_valid); [apply fk_valid_empty| |].
  - intros w s s' Hs Hw. by eapply run_write_fk_valid.
  - apply family_reachable.
Qed.

Lemma delete_node_fk_valid_witness :
  ∃ s', delete_node 5 "B" family = Some s' ∧ fk_valid s'.
Proof.
  apply (delete_node_fk_valid 5 "B" family family_fk_valid).
  vm_compute. lia.
Defined.

(** ** Hard delete after a soft delete or restore *)

Lemma SetAlive_frame limit n target ts s s' :
  SetAlive limit n target ts s = Some s' →
  (∀ k, chg (nodes s) (nodes s') k → in_subtree s n k) ∧
  (∀ p, chg (ports s) (ports s') p → port_in_subtree s n p) ∧
  (∀ x, chg (port_values s) (port_values s') x →
     ∃ r p, port_values s !! x = Some r ∧ v_port_id r = Some p ∧
            port_in_subtree s n p) ∧
  (∀ e, chg (edges s) (edges s') e →
     ∃ r p, edges s !! e = Some r ∧
            (e_from_port_id r = Some p ∨ e_to_port_id r = Some p) ∧
            port_in_subtree s n p) ∧
  (∀ t, chg (tags s) (tags s') t → in_subtree s n (tk_node_id t)).
Proof.
  intros Hs'. destruct (nodes s !! n) as [old|] eqn:Hn.
  - destruct (decide (alive old = target)) as [Ha|Ha].
    + apply (SetAlive_settled_inv _ _ _ _ _ _ old) in Hs' as ->; [|done..].
      store_simpl.
      split_and!; try (intros k Hc; by destruct Hc).
      intros k <-%chg_insert_only. apply rtc_refl.
    + by eapply row_post_frame, SetAlive_flip.
  - rewrite SetAlive_missing in Hs' by done. injection Hs' as <-.
    split_and!; intros k Hc; by destruct Hc.
Qed.

(** Two tables that differ only on rows marked [In], after deletes that
    take exactly the marked rows, are equal. *)
Lemma deleted_tables_agree `{Countable K} {R} `{EqDecision R}
    (m m1 h h1 : gmap K R) (In : K → Prop) :
  h ⊆ m → h1 ⊆ m1 →
  (∀ k, removed m h k → In k) → (∀ k, removed m1 h1 k → In k) →
  (∀ k, In k → h !! k = None) → (∀ k, In k → h1 !! k = None) →
  (∀ k, m1 !! k ≠ m !! k → In k) →
  h1 = h.
Proof.
  intros Sh Sh1 G G1 E E1 F. apply map_eq. intros k.
  destruct (decide (m1 !! k = m !! k)) as [Heq|Hne].
  2: { by rewrite (E k), (E1 k) by auto. }
  destruct (m !! k) as [r|] eqn:Hr.
  - destruct (kept_or_removed _ _ _ _ Sh Hr) as [Hk|Hk%G].
    + rewrite Hk. destruct (kept_or_removed _ _ _ _ Sh1 Heq) as [|Hk1%G1];
        [done|]. rewrite (E k) in Hk; done.
    + by rewrite (E k), (E1 k).
  - rewrite (lookup_weaken_None _ _ _ Hr Sh).
    by rewrite (lookup_weaken_None _ _ _ Heq Sh1).
Qed.

Lemma own_rows_same_rows s s' n :
  same_rows (nodes s) (nodes s') → same_rows (ports s) (ports s') →
  same_rows (port_values s) (port_values s') →
  same_rows (edges s) (edges s') →
  (∀ k, in_subtree s' n k → in_subtree s n k) ∧
  (∀ p, port_in_subtree s' n p → port_in_subtree s n p) ∧
  (∀ v, (∃ r p, port_values s' !! v = Some r ∧ v_port_id r = Some p ∧
                port_in_subtree s' n p) →
        ∃ r p, port_values s !! v = Some r ∧ v_port_id r = Some p ∧
               port_in_subtree s n p) ∧
  (∀ e, (∃ r p, edges s' !! e = Some r ∧
                (e_from_port_id r = Some p ∨ e_to_port_id r = Some p) ∧
                port_in_subtree s' n p) →
        ∃ r p, edges s !! e = Some r ∧
               (e_from_port_id r = Some p ∨ e_to_port_id r = Some p) ∧
               port_in_subtree s n p).
Proof.
  intros Hn Hp Hv He.
  assert (∀ k, in_subtree s' n k → in_subtree s n k) as Hsub
    by (intros k; by apply in_subtree_same_rows).
  assert (∀ p, port_in_subtree s' n p → port_in_subtree s n p) as Hport.
  { intros p (r' & x & Hr' & Hx & Hin).
    eapply port_in_subtree_same_rows; [done..|]. by apply Hsub. }
  split_and!; [done..| |].
  - intros v (r' & p & Hr' & Hvp & Hin).
    destruct (same_rows_lookup _ _ _ _ Hv Hr') as (r & Hr & Heq).
    exists r, p. split_and!; [done| |by apply Hport].
    by rewrite (v_port_id_erase _ _ Heq).
  - intros e (r' & p & Hr' & Hep & Hin).
    destruct (same_rows_lookup _ _ _ _ He Hr') as (r & Hr & Heq).
    destruct (e_ports_erase _ _ Heq) as [Ef Et].
    exists r, p. split_and!; [done| |by apply Hport].
    by rewrite Ef, Et.
Qed.



(** ** Queries after a hard delete *)

Lemma rec_cte_nil fuel step : rec_cte fuel step [] = Some [].
Proof. by destruct fuel. Qed.

(** X17: after the hard delete of N, run with a nesting limit above the
    number of nodes, no query returns a node of its subtree: the hierarchy
    query rooted at N is empty, the hierarchy query rooted anywhere
    returns no node of the subtree, and neither do the tag searches, for
    any predicates.  (A soft delete hides nothing from these queries.) *)
Theorem delete_node_hides_subtree limit n s :
  (size (nodes s) < limit)%nat → is_Some (nodes s !! n) →
  ∃ s', delete_node limit n s = Some s' ∧
    (∀ bound fuel D, nodes_hierarchy bound fuel n D s' = Some []) ∧
    (∀ bound fuel root D rows x,
       nodes_hierarchy bound fuel root D s' = Some rows → x ∈ rows →
       ¬ in_subtree s n (h_id x)) ∧
    (∀ required k, in_subtree s n k →
       (k ∉ find_by_tags required s') ∧
       (k ∉ filtered_nodes required s')) ∧
    (∀ key value k r, in_subtree s n k →
       (k, r) ∉ nodes_tagged key value s').
Proof.
  intros Hsz Hn. destruct (delete_node_total limit n s Hsz) as [s' Hs'].
  exists s'. split; [done|].
  destruct (delete_node_post _ _ _ _ Hs') as [P N].
  destruct (delete_post_removes _ _ _ Hn N P) as (En & _ & Et & _).
  split_and!.
  - intros bound fuel D. unfold nodes_hierarchy, anchor. rewrite N.
    apply rec_cte_nil.
  - intros bound fuel root D rows x Hrows
      (l & k & r & _ & Hr & _ & ->)%(nodes_hierarchy_elem _ _ _ _ _ _ _ Hrows).
    simpl. intros Hk%En. congruence.
  - intros required k Hk.
    assert (¬ ∃ key v, (key, v) ∈ required ∧
                       is_Some (tags s' !! (k, key, v))) as Hno.
    { intros (key & v & _ & [r Hr]). by rewrite (Et (k, key, v)) in Hr. }
    split; intros [_ Hin]%list_elem_of_filter;
      by apply Hno, elem_of_matched_nodes.
  - intros key value k r Hk
      [_ Hr%elem_of_map_to_list]%list_elem_of_filter.
    rewrite (En k Hk) in Hr. done.
Qed.

Lemma delete_node_hides_subtree_witness :
  ∃ s', delete_node 5 "B" family = Some s' ∧
    (∀ bound fuel D, nodes_hierarchy bound fuel "B" D s' = Some []) ∧
    (∀ bound fuel root D rows x,
       nodes_hierarchy bound fuel root D s' = Some rows → x ∈ rows →
       ¬ in_subtree family "B" (h_id x)) ∧
    (∀ required k, in_subtree family "B" k →
       (k ∉ find_by_tags required s') ∧
       (k ∉ filtered_nodes required s')) ∧
    (∀ key value k r, in_subtree family "B" k →
       (k, r) ∉ nodes_tagged key value s').
Proof.
  apply (delete_node_hides_subtree 5 "B" family).
  - vm_compute. lia.
  - by eexists.
Defined.

(** * The populate program *)

(** ** createPorts *)

Lemma prefix8_Some nodeID :
  (8 ≤ String.length nodeID)%nat → is_Some (prefix8 nodeID).
Proof. intros Hlen. unfold prefix8. by rewrite decide_True. Qed.

Lemma prefix8_None nodeID :
  (String.length nodeID < 8)%nat → prefix8 nodeID = None.
Proof. intros Hlen. unfold prefix8. rewrite decide_False; [done|lia]. Qed.

(** X18: called on an existing node with an id of at least eight bytes
    and two fresh, different port ids, createPorts returns the two ids,
    input first; the store has exactly two more ports, both alive and
    owned by the node, one of type input and one of type output; the
    counter grew by two and both ids were appended to the list of all
    ports, which still names rows of ports only; nothing else changed. *)
Theorem createPorts_ok inputPortID outputPortID nodeID s totalPorts allPorts :
  (8 ≤ String.length nodeID)%nat → is_Some (nodes s !! nodeID) →
  ports s !! inputPortID = None → ports s !! outputPortID = None →
  inputPortID ≠ outputPortID →
  (∀ p, p ∈ allPorts → is_Some (ports s !! p)) →
  ∃ s', createPorts inputPortID outputPortID nodeID (s, totalPorts, allPorts)
        = Ok ([inputPortID; outputPortID],
              (s', (totalPorts + 2)%nat,
               allPorts ++ [inputPortID; outputPortID])) ∧
    size (ports s') = (size (ports s) + 2)%nat ∧
    (∀ p, p ∈ allPorts ++ [inputPortID; outputPortID] →
          is_Some (ports s' !! p)) ∧
    (∃ r, ports s' !! inputPortID = Some r ∧ p_node_id r = Some nodeID ∧
          p_port_type r = "input" ∧ alive r = true) ∧
    (∃ r, ports s' !! outputPortID = Some r ∧ p_node_id r = Some nodeID ∧
          p_port_type r = "output" ∧ alive r = true) ∧
    (∀ p, p ≠ inputPortID → p ≠ outputPortID →
          ports s' !! p = ports s !! p) ∧
    nodes s' = nodes s ∧ port_values s' = port_values s ∧
    edges s' = edges s ∧ tags s' = tags s.
Proof.
  intros Hlen Hnode Hin Hout Hne Hall.
  destruct (prefix8_Some nodeID Hlen) as [pre Hpre].
  unfold createPorts. rewrite Hpre. unfold insert_port. rewrite Hin.
  assert (fk_ok (Some nodeID) (nodes s) = true) as Hfk
    by (by apply bool_decide_eq_true).
  rewrite Hfk. store_simpl.
  rewrite lookup_insert_ne, Hout, Hfk by done. store_simpl.
  eexists. split.
  { replace (totalPorts + 2)%nat with (S (S totalPorts)) by lia.
    by rewrite <- !app_assoc. }
  store_simpl. split_and!; try done.
  - rewrite !map_size_insert_None; [lia|done|by rewrite lookup_insert_ne].
  - intros p [Hp|[->|Hp%list_elem_of_singleton]%elem_of_cons]%elem_of_app;
      [|
      |subst p].
    + do 2 apply is_Some_insert_mono. by apply Hall.
    + apply is_Some_insert_mono. rewrite lookup_insert_eq. by eexists.
    + rewrite lookup_insert_eq. by eexists.
  - eexists. rewrite lookup_insert_ne, lookup_insert_eq by done. done.
  - eexists. rewrite lookup_insert_eq. done.
  - intros p Hp1 Hp2. by rewrite !lookup_insert_ne.
Qed.

Lemma createPorts_ok_witness :
  ∃ s', createPorts "inport01" "outport1" "network1" (one_network, 0%nat, [])
        = Ok (["inport01"; "outport1"],
              (s', (0 + 2)%nat, [] ++ ["inport01"; "outport1"])) ∧
    size (ports s') = (size (ports one_network) + 2)%nat ∧
    (∀ p, p ∈ [] ++ ["inport01"; "outport1"] → is_Some (ports s' !! p)) ∧
    (∃ r, ports s' !! "inport01" = Some r ∧ p_node_id r = Some "network1" ∧
          p_port_type r = "input" ∧ alive r = true) ∧
    (∃ r, ports s' !! "outport1" = Some r ∧ p_node_id r = Some "network1" ∧
          p_port_type r = "output" ∧ alive r = true) ∧
    (∀ p, p ≠ "inport01" → p ≠ "outport1" →
          ports s' !! p = ports one_network !! p) ∧
    nodes s' = nodes one_network ∧ port_values s' = port_values one_network ∧
    edges s' = edges one_network ∧ tags s' = tags one_network.
Proof.
  apply (createPorts_ok "inport01" "outport1" "network1" one_network 0 []).
  - vm_compute. lia.
  - by eexists.
  - done.
  - done.
  - done.
  - by intros p ?%elem_of_nil.
Defined.

(** X19: createPorts panics exactly when the node id is shorter than
    eight bytes (the slice nodeID[:8], evaluated before the first insert),
    and ends in log.Fatal exactly when the id is long enough and the node
    does not exist, one of the two port ids is taken, or the two port ids
    are equal. *)
Theorem createPorts_fails inputPortID outputPortID nodeID s totalPorts
    allPorts :
  let result :=
    createPorts inputPortID outputPortID nodeID (s, totalPorts, allPorts) in
  (result = Panic ↔ (String.length nodeID < 8)%nat) ∧
  (result = Fatal ↔
     (8 ≤ String.length nodeID)%nat ∧
     (nodes s !! nodeID = None ∨ is_Some (ports s !! inputPortID) ∨
      is_Some (ports s !! outputPortID) ∨ inputPortID = outputPortID)).
Proof.
  cbv zeta. unfold createPorts, prefix8.
  destruct (decide (8 ≤ String.length nodeID)%nat) as [Hlen|Hlen].
  2: { split; [split; [lia|done]|]. split; [done|lia]. }
  unfold insert_port. simpl.
  destruct (ports s !! inputPortID) as [r|] eqn:Hin.
  { split; [split; [done|lia]|]. split; [|done]. intros _.
    split; [done|]. right; left. by eexists. }
  destruct (nodes s !! nodeID) as [nr|] eqn:Hnode.
  2: { rewrite bool_decide_eq_false_2 by (by intros [? ?]).
       split; [split; [done|lia]|]. split; [|done]. intros _. auto. }
  rewrite bool_decide_eq_true_2 by (by eexists). store_simpl.
  destruct (decide (inputPortID = outputPortID)) as [->|Hne].
  { rewrite lookup_insert_eq.
    split; [split; [done|lia]|]. split; [|done]. intros _. auto 6. }
  rewrite lookup_insert_ne by done.
  destruct (ports s !! outputPortID) as [r|] eqn:Hout.
  { split; [split; [done|lia]|]. split; [|done]. intros _.
    split; [done|]. right; right; left. by eexists. }
  rewrite bool_decide_eq_true_2 by (rewrite Hnode; by eexists).
  split; [split; [done|lia]|]. split; [done|].
  intros [_ [?|[[? ?]|[[? ?]|?]]]]; congruence.
Qed.

(** ** The tag loop *)

Lemma length_remove_dups_cons `{EqDecision A} (x : A) (l : list A) :
  length (remove_dups (x :: l)) =
  S (length (remove_dups (filter (λ y, y ≠ x) l))).
Proof.
  change (S (length (remove_dups (filter (λ y, y ≠ x) l))))
    with (length (x :: remove_dups (filter (λ y, y ≠ x) l))).
  apply Permutation_length, NoDup_Permutation.
  - apply NoDup_remove_dups.
  - apply NoDup_cons. split; [|apply NoDup_remove_dups].
    rewrite elem_of_remove_dups, list_elem_of_filter. by intros [? _].
  - intros y. rewrite elem_of_remove_dups, !elem_of_cons,
      elem_of_remove_dups, list_elem_of_filter.
    destruct (decide (y = x)) as [->|Hne]; [by split; left|].
    split; [intros [?|?]|intros [?|[_ ?]]]; auto.
Qed.

Lemma insert_tag_exists n k v s :
  is_Some (nodes s !! n) →
  insert_tag n k v s =
  Some (match tags s !! (n, k, v) with
        | Some _ => s
        | None => set_tags (insert (n, k, v) (Tag None)) s
        end).
Proof.
  intros Hn. unfold insert_tag. destruct (tags s !! (n, k, v)); [done|].
  simpl. by rewrite bool_decide_eq_true_2.
Qed.

Lemma add_tags_spec nodeID draws s totalTags :
  is_Some (nodes s !! nodeID) →
  let result := add_tags nodeID draws (s, totalTags) in
  result.2 = (totalTags + length draws)%nat ∧
  (nodes result.1 = nodes s ∧ ports result.1 = ports s ∧
   port_values result.1 = port_values s ∧ edges result.1 = edges s) ∧
  (∀ t, tags result.1 !! t =
        match tags s !! t with
        | Some r => Some r
        | None =>
            if bool_decide (tk_node_id t = nodeID ∧
                            (tk_key t, tk_value t) ∈ drawn_tags draws)
            then Some (Tag None) else None
        end) ∧
  size (tags result.1) =
    (size (tags s) +
     length (remove_dups
       (filter (λ kv, tags s !! (nodeID, kv.1, kv.2) = None)
               (drawn_tags draws))))%nat.
Proof.
  revert s totalTags. induction draws as [|d draws IH]; intros s c Hn.
  { simpl. split; [lia|]. split; [done|]. split; [|lia].
    intros t. destruct (tags s !! t); [done|].
    rewrite bool_decide_eq_false_2; [done|]. by intros [_ ?%elem_of_nil]. }
  cbv zeta. unfold add_tags. simpl foldl.
  set (k := tagKeys !!! d.1). set (v := tagValues !!! d.2).
  rewrite (insert_tag_exists nodeID k v s Hn). simpl default.
  change (drawn_tags (d :: draws)) with ((k, v) :: drawn_tags draws).
  destruct (tags s !! (nodeID, k, v)) as [r|] eqn:Hr.
  - destruct (IH s (S c) Hn) as (Hc & Hsame & Hlook & Hsize).
    fold (add_tags nodeID draws (s, S c)).
    split; [simpl; lia|]. split; [done|]. split.
    + intros t. rewrite Hlook. destruct (tags s !! t) eqn:Ht; [done|].
      erewrite bool_decide_ext; [done|]. rewrite elem_of_cons.
      split; [intros [? ?]; auto|].
      intros [Hnode [[= Hk Hv]|?]]; [|done].
      destruct t as [[n' k'] v'].
      unfold tk_node_id, tk_key, tk_value in *. simpl in *. congruence.
    + rewrite Hsize. rewrite filter_cons_False; [done|].
      simpl. by rewrite Hr.
  - set (s1 := set_tags (insert (nodeID, k, v) (Tag None)) s).
    destruct (IH s1 (S c) Hn) as (Hc & Hsame & Hlook & Hsize).
    fold (add_tags nodeID draws (s1, S c)).
    split; [simpl; lia|]. split; [done|]. split.
    + intros t. rewrite Hlook. subst s1. store_simpl.
      destruct (decide (t = (nodeID, k, v))) as [->|Hne].
      * rewrite lookup_insert_eq, Hr.
        rewrite bool_decide_eq_true_2; [done|]. split; [done|left].
      * rewrite lookup_insert_ne by done.
        destruct (tags s !! t) eqn:Ht; [done|].
        erewrite bool_decide_ext; [done|]. rewrite elem_of_cons.
        split; [intros [? ?]; auto|].
        intros [Hnode [[= Hk Hv]|?]]; [|done].
        destruct Hne. destruct t as [[n' k'] v'].
        unfold tk_node_id, tk_key, tk_value in *. simpl in *. congruence.
    + rewrite Hsize. subst s1. store_simpl.
      rewrite map_size_insert_None by done.
      rewrite filter_cons_True by done.
      rewrite length_remove_dups_cons, list_filter_filter.
      rewrite Nat.add_succ_comm. do 4 f_equal.
      apply list_filter_iff. intros [k' v']. simpl.
      destruct (decide ((k', v') = (k, v))) as [[= -> ->]|Hne].
      * rewrite lookup_insert_eq. split; [done|by intros [? _]].
      * rewrite lookup_insert_ne by congruence.
        split; [done|by intros [_ ?]].
Qed.

(** X20: the tag loop on an existing node counts one tag per round,
    while the table gains one alive row per distinct drawn pair that the
    node did not have yet: rows that exist stay as they are (a soft-deleted
    tag is not revived by INSERT OR IGNORE), so the rows added are at most
    the rounds counted, and fewer when a pair is drawn twice.  No other
    table changes. *)
Theorem add_tags_counts nodeID draws s totalTags :
  is_Some (nodes s !! nodeID) →
  let result := add_tags nodeID draws (s, totalTags) in
  result.2 = (totalTags + length draws)%nat ∧
  (∀ t r, tags s !! t = Some r → tags result.1 !! t = Some r) ∧
  (∀ t, tags s !! t = None →
        tags result.1 !! t =
        if bool_decide (tk_node_id t = nodeID ∧
                        (tk_key t, tk_value t) ∈ drawn_tags draws)
        then Some (Tag None) else None) ∧
  size (tags result.1) =
    (size (tags s) +
     length (remove_dups
       (filter (λ kv, tags s !! (nodeID, kv.1, kv.2) = None)
               (drawn_tags draws))))%nat ∧
  (size (tags result.1) - size (tags s) ≤ result.2 - totalTags)%nat ∧
  nodes result.1 = nodes s ∧ ports result.1 = ports s ∧
  port_values result.1 = port_values s ∧ edges result.1 = edges s.
Proof.
  intros Hn. cbv zeta.
  destruct (add_tags_spec nodeID draws s totalTags Hn)
    as (Hc & (? & ? & ? & ?) & Hlook & Hsize).
  split_and!; try done.
  - intros t r Hr. by rewrite Hlook, Hr.
  - intros t Hr. by rewrite Hlook, Hr.
  - rewrite Hsize, Hc.
    pose proof (length_remove_dups_le
      (filter (λ kv, tags s !! (nodeID, kv.1, kv.2) = None)
              (drawn_tags draws))) as Hle1.
    pose proof (length_filter
      (λ kv, tags s !! (nodeID, kv.1, kv.2) = None) (drawn_tags draws))
      as Hle2.
    unfold drawn_tags in Hle2 at 2. rewrite length_fmap in Hle2. lia.
Qed.

Lemma add_tags_counts_witness :
  let result := add_tags "network1" [(1, 4); (6, 12); (1, 4)]%nat
                  (one_network, 0%nat) in
  result.2 = (0 + length [(1, 4); (6, 12); (1, 4)]%nat)%nat ∧
  (∀ t r, tags one_network !! t = Some r → tags result.1 !! t = Some r) ∧
  (∀ t, tags one_network !! t = None →
        tags result.1 !! t =
        if bool_decide (tk_node_id t = "network1" ∧
                        (tk_key t, tk_value t) ∈
                          drawn_tags [(1, 4); (6, 12); (1, 4)]%nat)
        then Some (Tag None) else None) ∧
  size (tags result.1) =
    (size (tags one_network) +
     length (remove_dups
       (filter (λ kv, tags one_network !! ("network1", kv.1, kv.2) = None)
               (drawn_tags [(1, 4); (6, 12); (1, 4)]%nat))))%nat ∧
  (size (tags result.1) - size (tags one_network) ≤ result.2 - 0)%nat ∧
  nodes result.1 = nodes one_network ∧ ports result.1 = ports one_network ∧
  port_values result.1 = port_values one_network ∧
  edges result.1 = edges one_network.
Proof.
  apply (add_tags_counts "network1" [(1, 4); (6, 12); (1, 4)]%nat
           one_network 0).
  by eexists.
Defined.

(** The same pair drawn twice: three rounds are counted, two rows exist. *)
Example add_tags_overcounts :
  let result := add_tags "network1" [(1, 4); (6, 12); (1, 4)]%nat
                  (one_network, 0%nat) in
  result.2 = 3%nat ∧
  (map_to_list (tags result.1)).*1 =
    [("network1", "category", "medium"); ("network1", "zone", "zone-a")].
Proof. by vm_compute. Qed.

(** ** The edge loop *)

Lemma insert_edge_Some e f t d s s' :
  insert_edge e f t d s = Some s' →
  edges s !! e = None ∧ s' = set_edges (insert e (Edge None f t d)) s.
Proof.
  unfold insert_edge. destruct (edges s !! e); [done|].
  destruct (fk_ok f (ports s) && fk_ok t (ports s)); [|done].
  by intros [= <-].
Qed.

Lemma add_edges_inv fromPorts allPorts description draws s totalEdges :
  let result :=
    add_edges fromPorts allPorts description draws (s, totalEdges) in
  result.2 =
    (totalEdges +
     length (filter (λ d, fromPorts !!! d.1.1 ≠ allPorts !!! d.1.2) draws))%nat
  ∧
  (∀ e r, edges s !! e = Some r → edges result.1 !! e = Some r) ∧
  (∀ e r, edges s !! e = None → edges result.1 !! e = Some r →
     ∃ i j, (i, j, e) ∈ draws ∧ fromPorts !!! i ≠ allPorts !!! j ∧
            r = Edge None (Some (fromPorts !!! i)) (Some (allPorts !!! j))
                  (Some description)) ∧
  (size (edges result.1) + totalEdges ≤ size (edges s) + result.2)%nat ∧
  nodes result.1 = nodes s ∧ ports result.1 = ports s ∧
  port_values result.1 = port_values s ∧ tags result.1 = tags s.
Proof.
  cbv zeta.
  revert s totalEdges. induction draws as [|[[i j] e0] draws IH]; intros s c.
  { simpl. split_and!; try done; try lia. intros e r Hn Hr. congruence. }
  unfold add_edges. simpl foldl.
  destruct (decide (fromPorts !!! i ≠ allPorts !!! j)) as [Hne|Heq].
  2: { fold (add_edges fromPorts allPorts description draws (s, c)).
       destruct (IH s c) as (Hc & Hold & Hnew & Hsz & ? & ? & ? & ?).
       rewrite filter_cons_False by done.
       split_and!; try done.
       intros e r Hn Hr. destruct (Hnew e r Hn Hr) as (i' & j' & Hin & ?).
       exists i', j'. split; [by right|done]. }
  rewrite filter_cons_True by done. simpl length.
  destruct (insert_edge e0 _ _ _ s) as [s1|] eqn:Hs1; simpl default.
  - apply insert_edge_Some in Hs1 as [He0 ->].
    set (s1 := set_edges _ s).
    fold (add_edges fromPorts allPorts description draws (s1, S c)).
    destruct (IH s1 (S c)) as (Hc & Hold & Hnew & Hsz & ? & ? & ? & ?).
    subst s1. store_simpl.
    rewrite map_size_insert_None in Hsz by done.
    split_and!; try done; try lia.
    + intros e r Hr. apply Hold. rewrite lookup_insert_ne; [done|].
      intros <-. congruence.
    + intros e r Hn Hr. destruct (decide (e = e0)) as [->|Hnee].
      * exists i, j. split; [left|]. split; [done|].
        specialize (Hold e0 _ (lookup_insert_eq _ _ _)). congruence.
      * destruct (Hnew e r) as (i' & j' & Hin & ?); [|done|].
        { by rewrite lookup_insert_ne. }
        exists i', j'. split; [by right|done].
  - fold (add_edges fromPorts allPorts description draws (s, S c)).
    destruct (IH s (S c)) as (Hc & Hold & Hnew & Hsz & ? & ? & ? & ?).
    split_and!; try done; try lia.
    intros e r Hn Hr. destruct (Hnew e r Hn Hr) as (i' & j' & Hin & ?).
    exists i', j'. split; [by right|done].
Qed.

(** X21: the edge loop counts one edge per round whose two ports differ;
    it leaves every existing edge as it is, and every edge it adds is
    alive, carries the id of one of the rounds and joins the two different
    ports drawn in that round, so it adds no self-loop and at most as many
    rows as it counts (a failed insert is counted too).  No other table
    changes. *)
Theorem add_edges_spec fromPorts allPorts description draws s totalEdges :
  let result :=
    add_edges fromPorts allPorts description draws (s, totalEdges) in
  result.2 =
    (totalEdges +
     length (filter (λ d, fromPorts !!! d.1.1 ≠ allPorts !!! d.1.2) draws))%nat
  ∧
  (∀ e r, edges s !! e = Some r → edges result.1 !! e = Some r) ∧
  (∀ e r, edges s !! e = None → edges result.1 !! e = Some r →
     ∃ i j, (i, j, e) ∈ draws ∧ fromPorts !!! i ≠ allPorts !!! j ∧
            r = Edge None (Some (fromPorts !!! i)) (Some (allPorts !!! j))
                  (Some description)) ∧
  (size (edges result.1) - size (edges s) ≤ result.2 - totalEdges)%nat ∧
  nodes result.1 = nodes s ∧ ports result.1 = ports s ∧
  port_values result.1 = port_values s ∧ tags result.1 = tags s.
Proof.
  cbv zeta.
  destruct (add_edges_inv fromPorts allPorts description draws s totalEdges)
    as (Hc & ? & ? & ? & ? & ? & ? & ?).
  split_and!; try done. lia.
Qed.

(** * Further properties of SetAlive and of the hierarchy query *)

(** ** SetAlive twice *)

Lemma SetAlive_root_row limit n target ts s s' old :
  nodes s !! n = Some old → SetAlive limit n target ts s = Some s' →
  nodes s' !! n = Some (set_deleted_at (target_value target ts) old).
Proof.
  intros Hn Hs'. destruct (decide (alive old = target)) as [Ha|Ha].
  - apply (SetAlive_settled_inv _ _ _ _ _ _ old) in Hs' as ->; [|done..].
    store_simpl. apply lookup_insert_eq.
  - pose proof (SetAlive_flip _ _ _ _ _ _ _ Hn Ha Hs') as Hpost.
    pose proof Hpost as (F & _).
    assert (chg (nodes s) (nodes s') n) as Hc.
    { apply (row_post_walked _ _ _ _ _ Hpost). eapply creach_root; [done..|].
      by apply off_target_true_alive. }
    destruct (flips_chg _ _ _ _ (sf_nodes _ _ _ F) Hc) as (r & Hr & _ & Hr').
    congruence.
Qed.



(** ** The hierarchy query on a forest *)

Lemma at_depth_tc s root l k :
  at_depth s root (S l) k → tc (parent_of s) k root.
Proof.
  revert k. induction l as [|l IH]; intros k Hd;
    inversion Hd as [|l' x k' Hd' Hp]; subst.
  - inversion Hd'; subst. by apply tc_once.
  - eapply tc_l; [done|]. by apply IH.
Qed.

Lemma parent_of_fun s k x y : parent_of s k x → parent_of s k y → x = y.
Proof. intros (r & Hr & Hx) (r' & Hr' & Hy). congruence. Qed.

(** In a forest a node has one depth below a root. *)
Lemma at_depth_fun s root l l' k :
  acyclic s → at_depth s root l k → at_depth s root l' k → l = l'.
Proof.
  intros Hac Hl. revert l'. induction Hl as [Hroot|l x k Hd IH Hp];
    intros l' Hl'.
  - destruct l' as [|l']; [done|].
    destruct (Hac root). by eapply at_depth_tc.
  - inversion Hl' as [Hroot Heq|l0 x' k' Hd' Hp']; subst.
    + destruct (Hac k).
      eapply at_depth_tc. econstructor; [exact Hd|exact Hp].
    + f_equal. apply IH. by rewrite (parent_of_fun _ _ _ _ Hp Hp').
Qed.

(** X23: when the nodes form a forest the hierarchy query returns no node
    twice: every id occurs in at most one row, at one level. *)
Theorem nodes_hierarchy_forest_ids bound fuel root D s rows :
  acyclic s → nodes_hierarchy bound fuel root D s = Some rows →
  NoDup (h_id <$> rows).
Proof.
  intros Hac Hrows. apply NoDup_fmap_2_strong;
    [|by eapply nodes_hierarchy_NoDup].
  intros x y
    (l & k & r & Hd & Hr & _ & ->)%(nodes_hierarchy_elem _ _ _ _ _ _ _ Hrows)
    (l' & k' & r' & Hd' & Hr' & _ & ->)
      %(nodes_hierarchy_elem _ _ _ _ _ _ _ Hrows).
  simpl. intros <-. rewrite Hr in Hr'. injection Hr' as <-.
  by rewrite (at_depth_fun _ _ _ _ _ Hac Hd Hd').
Qed.

Lemma chain_reachable : reachable chain.
Proof.
  exists [InsertNode "n0" "network" None "n" None;
          InsertNode "n1" "device" (Some "n0") "n" None;
          InsertNode "n2" "point" (Some "n1") "n" None;
          InsertNode "n3" "point" (Some "n2") "n" None;
          InsertNode "n4" "point" (Some "n3") "n" None;
          InsertNode "n5" "point" (Some "n4") "n" None].
  by vm_compute.
Qed.

Lemma nodes_hierarchy_forest_ids_witness :
  NoDup (h_id <$> [hrow_of "n0" (a_node "network" None) 0;
                   hrow_of "n1" (a_node "device" (Some "n0")) 1]).
Proof.
  apply (nodes_hierarchy_forest_ids (λ l D, bool_decide (l < D)) 3 "n0" 1
           chain).
  - apply reachable_forest, chain_reachable.
  - by vm_compute.
Defined.

(** Without the forest shape a node comes back once per level: the row
    that names itself as parent is returned at every level up to D. *)
Example self_parent_repeats :
  h_id <$> default [] (nodes_hierarchy_pg 4 "A" 2 self_parented)
  = ["A"; "A"; "A"].
Proof. by vm_compute. Qed.

(** ** The edge loop with fresh ids *)

Lemma lookup_total_elem_of (l : list string) i :
  (i < length l)%nat → l !!! i ∈ l.
Proof.
  intros Hi. destruct (lookup_lt_is_Some_2 l i Hi) as [x Hx].
  rewrite (list_lookup_total_correct _ _ _ Hx).
  by eapply list_elem_of_lookup_2.
Qed.

Lemma insert_edge_fresh e f t d s :
  edges s !! e = None → is_Some (ports s !! f) → is_Some (ports s !! t) →
  insert_edge e (Some f) (Some t) d s =
  Some (set_edges (insert e (Edge None (Some f) (Some t) d)) s).
Proof.
  intros He Hf Ht. unfold insert_edge, fk_ok. rewrite He.
  by rewrite !bool_decide_eq_true_2.
Qed.

(** X24: when the indices drawn are in range, both port lists name rows of
    ports, and the edge ids drawn are fresh and pairwise different, no
    insert of the edge loop fails: the table gains exactly as many rows as
    the loop counts, one for every round whose two ports differ. *)
Theorem add_edges_exact fromPorts allPorts description draws s totalEdges :
  (∀ d, d ∈ draws →
        (d.1.1 < length fromPorts)%nat ∧ (d.1.2 < length allPorts)%nat) →
  (∀ p, p ∈ fromPorts → is_Some (ports s !! p)) →
  (∀ p, p ∈ allPorts → is_Some (ports s !! p)) →
  NoDup draws.*2 → (∀ d, d ∈ draws → edges s !! d.2 = None) →
  let result :=
    add_edges fromPorts allPorts description draws (s, totalEdges) in
  size (edges result.1) =
    (size (edges s) + (result.2 - totalEdges))%nat ∧
  ∀ d, d ∈ draws → fromPorts !!! d.1.1 ≠ allPorts !!! d.1.2 →
       edges result.1 !! d.2 =
       Some (Edge None (Some (fromPorts !!! d.1.1))
               (Some (allPorts !!! d.1.2)) (Some description)).
Proof.
  cbv zeta. revert s totalEdges.
  induction draws as [|[[i j] e0] draws IH];
    intros s c Hrange Hfrom Hall Hnd Hfresh.
  { simpl. split; [lia|]. by intros d ?%elem_of_nil. }
  rewrite fmap_cons in Hnd. apply NoDup_cons in Hnd as [He0 Hnd].
  simpl in He0.
  assert (∀ d, d ∈ draws →
            (d.1.1 < length fromPorts)%nat ∧ (d.1.2 < length allPorts)%nat)
    as Hrange' by (intros d Hd; apply Hrange; by right).
  assert (∀ d, d ∈ draws → edges s !! d.2 = None) as Hfresh'
    by (intros d Hd; apply Hfresh; by right).
  destruct (Hrange (i, j, e0)) as [Hi Hj]; [left|]. simpl in Hi, Hj.
  unfold add_edges. simpl foldl.
  destruct (decide (fromPorts !!! i ≠ allPorts !!! j)) as [Hne|Heq].
  2: { fold (add_edges fromPorts allPorts description draws (s, c)).
       destruct (IH s c) as [Hsz Hrows]; [done..|]. split; [done|].
       intros d [->|Hd]%elem_of_cons; [done|]. by apply Hrows. }
  assert (edges s !! e0 = None) as He0s by (apply (Hfresh (i, j, e0)); left).
  assert (is_Some (ports s !! (fromPorts !!! i))) as Hf
    by (apply Hfrom; by apply lookup_total_elem_of).
  assert (is_Some (ports s !! (allPorts !!! j))) as Ht
    by (apply Hall; by apply lookup_total_elem_of).
  rewrite (insert_edge_fresh e0 _ _ _ s He0s Hf Ht). simpl default.
  set (s1 := set_edges _ s).
  fold (add_edges fromPorts allPorts description draws (s1, S c)).
  destruct (IH s1 (S c)) as [Hsz Hrows]; [done..| |].
  { intros d Hd. subst s1. store_simpl.
    rewrite lookup_insert_ne; [by apply Hfresh'|].
    intros Heq. apply He0. rewrite Heq.
    apply list_elem_of_fmap. by exists d. }
  destruct (add_edges_inv fromPorts allPorts description draws s1 (S c))
    as (Hc & Hold & _).
  split.
  - rewrite Hsz. subst s1. store_simpl.
    rewrite map_size_insert_None by done. lia.
  - intros d [->|Hd]%elem_of_cons Hned; [|by apply Hrows].
    apply Hold. subst s1. store_simpl. apply lookup_insert_eq.
Qed.

Lemma add_edges_exact_witness :
  let result :=
    add_edges ["pA"] ["pA"; "pC"; "pX"] "Edge from device 2"
      [(0, 1, "e8"); (0, 0, "e9"); (0, 2, "e7")]%nat (family, 0%nat) in
  size (edges result.1) =
    (size (edges family) + (result.2 - 0))%nat ∧
  ∀ d, d ∈ [(0, 1, "e8"); (0, 0, "e9"); (0, 2, "e7")]%nat →
       ["pA"] !!! d.1.1 ≠ ["pA"; "pC"; "pX"] !!! d.1.2 →
       edges result.1 !! d.2 =
       Some (Edge None (Some (["pA"] !!! d.1.1))
               (Some (["pA"; "pC"; "pX"] !!! d.1.2))
               (Some "Edge from device 2")).
Proof.
  apply (add_edges_exact ["pA"] ["pA"; "pC"; "pX"] "Edge from device 2"
           [(0, 1, "e8"); (0, 0, "e9"); (0, 2, "e7")]%nat family 0).
  - apply Forall_forall. apply (bool_decide_unpack _). by vm_compute.
  - apply Forall_forall. apply (bool_decide_unpack _). by vm_compute.
  - apply Forall_forall. apply (bool_decide_unpack _). by vm_compute.
  - apply (bool_decide_unpack _). by vm_compute.
  - apply Forall_forall. apply (bool_decide_unpack _). by vm_compute.
Defined.

(** ** The rows a cascade flips, exactly *)

(** X25: with a nesting limit above the number of nodes and a timestamp
    within the 64-bit integers, a SetAlive on a node whose alive state
    differs from target flips exactly these rows, each to the deleted_at
    of the call: the nodes it walks into (N, and recursively every
    off-target child of a node walked into), the off-target ports and tags
    of those nodes, and the off-target values and incident edges of the
    ports it flips.  Every other row is left as it is. *)
Theorem SetAlive_exact limit n target ts s old :
  nodes s !! n = Some old → alive old ≠ target →
  (size (nodes s) < limit)%nat → int64 ts →
  let v := target_value target ts in
  ∃ s', SetAlive limit n target ts s = Some s' ∧ sflips v s s' ∧
    (∀ k, chg (nodes s) (nodes s') k ↔ creach v s (eq n) k) ∧
    (∀ p, chg (ports s) (ports s') p ↔
          ∃ r x, ports s !! p = Some r ∧ off_target v r = true ∧
                 p_node_id r = Some x ∧ creach v s (eq n) x) ∧
    (∀ x, chg (port_values s) (port_values s') x ↔
          ∃ r p, port_values s !! x = Some r ∧ off_target v r = true ∧
                 v_port_id r = Some p ∧ chg (ports s) (ports s') p) ∧
    (∀ e, chg (edges s) (edges s') e ↔
          ∃ r p, edges s !! e = Some r ∧ off_target v r = true ∧
                 (e_from_port_id r = Some p ∨ e_to_port_id r = Some p) ∧
                 chg (ports s) (ports s') p) ∧
    (∀ t, chg (tags s) (tags s') t ↔
          ∃ r, tags s !! t = Some r ∧ off_target v r = true ∧
               creach v s (eq n) (tk_node_id t)).
Proof.
  intros Hn Ha Hsz _. cbv zeta.
  destruct (SetAlive_total limit n target ts s Hsz) as [s' Hs'].
  exists s'. split; [done|].
  pose proof (SetAlive_flip _ _ _ _ _ _ _ Hn Ha Hs') as Hpost.
  split; [by destruct Hpost|]. by apply row_post_exact.
Qed.

Lemma SetAlive_exact_witness :
  let v := target_value true 0 in
  ∃ s', SetAlive 5 "A" true 0 family_a_dead = Some s' ∧
    sflips v family_a_dead s' ∧
    (∀ k, chg (nodes family_a_dead) (nodes s') k ↔
          creach v family_a_dead (eq "A") k) ∧
    (∀ p, chg (ports family_a_dead) (ports s') p ↔
          ∃ r x, ports family_a_dead !! p = Some r ∧ off_target v r = true ∧
                 p_node_id r = Some x ∧ creach v family_a_dead (eq "A") x) ∧
    (∀ x, chg (port_values family_a_dead) (port_values s') x ↔
          ∃ r p, port_values family_a_dead !! x = Some r ∧
                 off_target v r = true ∧ v_port_id r = Some p ∧
                 chg (ports family_a_dead) (ports s') p) ∧
    (∀ e, chg (edges family_a_dead) (edges s') e ↔
          ∃ r p, edges family_a_dead !! e = Some r ∧ off_target v r = true ∧
                 (e_from_port_id r = Some p ∨ e_to_port_id r = Some p) ∧
                 chg (ports family_a_dead) (ports s') p) ∧
    (∀ t, chg (tags family_a_dead) (tags s') t ↔
          ∃ r, tags family_a_dead !! t = Some r ∧ off_target v r = true ∧
               creach v family_a_dead (eq "A") (tk_node_id t)).
Proof.
  apply (SetAlive_exact 5 "A" true 0 family_a_dead
           (set_deleted_at (Some 7) (a_node "network" None))).
  - by vm_compute.
  - by vm_compute.
  - vm_compute. lia.
  - unfold int64. lia.
Defined.
